(** * Depth-aware node cache of the Figma context service

    A verification development for [ParseDataCache] (utils/parse-data-cache)
    and the [LRUCache] it wraps (utils/lru).  The TypeScript code is embedded
    shallowly: pure helpers become functions, the forEach/for-of loops become
    folds with an explicit early exit, and the asynchronous methods run in a
    small state monad that threads the eviction store and the number of
    remote metadata calls made so far.  The development also covers the
    caller of the cache, [FigmaService.getNode] (services/figma), and the
    pure helpers of utils/common. *)

From Stdlib Require Import ZArith Lia Ascii String.
From stdpp Require Import base option list strings sorting gmap.

Local Open Scope string_scope.
Local Open Scope Z_scope.
Local Open Scope list_scope.

(** ** Loops with early exit

    [for (const x of xs) { ... return r; ... }] : the body either returns a
    result ([Some r]) or falls through to the next element ([None]). *)

Section for_of.
Context {A R : Type} (body : A -> option R).

Fixpoint for_of (xs : list A) : option R :=
  match xs with
  | [] => None
  | x :: rest =>
      match body x with
      | Some r => Some r
      | None => for_of rest
      end
  end.
End for_of.

(** ** Node trees *)

Module Tree.

(** [SimplifiedNode]: the identifier, the fields that a spread copy
    carries over unchanged ([name] and [type] stand for all of them), and the
    optional [children] array.  [None] is a node without a [children]
    property, [Some []] a node with an empty array. *)
#[local] Unset Elimination Schemes.
Inductive SimplifiedNode : Type :=
  mkNode (id name type : string) (children : option (list SimplifiedNode)).
#[local] Set Elimination Schemes.

Definition id (n : SimplifiedNode) : string :=
  match n with mkNode i _ _ _ => i end.
Definition name (n : SimplifiedNode) : string :=
  match n with mkNode _ s _ _ => s end.
Definition type (n : SimplifiedNode) : string :=
  match n with mkNode _ _ t _ => t end.
Definition children (n : SimplifiedNode) : option (list SimplifiedNode) :=
  match n with mkNode _ _ _ c => c end.

(** [Math.max(...xs)]: the largest argument, and -Infinity ([None]) when there
    is none. *)
Definition Math_max (xs : list Z) : option Z :=
  match xs with
  | [] => None
  | x :: rest => Some (fold_left Z.max rest x)
  end.

(** [getNodeDepth]: 0 when [children] is missing or empty, otherwise one more
    than the deepest child ([Math.max] over a non-empty array). *)
Fixpoint getNodeDepth (node : SimplifiedNode) : Z :=
  match children node with
  | None => 0
  | Some [] => 0
  | Some (child :: rest) =>
      1 + fold_left Z.max (map getNodeDepth rest) (getNodeDepth child)
  end.

(** [getNodeDepthFromRoot(nodes, targetId, currentDepth)].  The loop body for
    one node is [depthFromRoot_in]; -1 is the not-found sentinel. *)
Fixpoint depthFromRoot_in (targetId : string) (currentDepth : Z)
    (node : SimplifiedNode) : option Z :=
  if String.eqb (id node) targetId then Some currentDepth
  else
    match children node with
    | Some cs =>
        let found :=
          default (-1) (for_of (depthFromRoot_in targetId (currentDepth + 1)) cs) in
        if negb (found =? -1) then Some found else None
    | None => None
    end.

Definition getNodeDepthFromRoot (nodes : list SimplifiedNode)
    (targetId : string) (currentDepth : Z) : Z :=
  default (-1) (for_of (depthFromRoot_in targetId currentDepth) nodes).

(** [limitNodeDepth]: at the cut the node is copied without its [children]
    property; a node with nothing below it is returned as it is; otherwise the
    node is copied with its children limited one level lower. *)
Fixpoint limitNodeDepth (node : SimplifiedNode) (maxDepth : Z) : SimplifiedNode :=
  if maxDepth <=? 0 then mkNode (id node) (name node) (type node) None
  else
    match children node with
    | None => node
    | Some [] => node
    | Some cs =>
        mkNode (id node) (name node) (type node)
          (Some (map (fun child => limitNodeDepth child (maxDepth - 1)) cs))
    end.

(** [findNodeInTree]: depth-first, first match wins.  [findNode_in] is the
    loop body for one node. *)
Fixpoint findNode_in (targetId : string) (node : SimplifiedNode)
    : option SimplifiedNode :=
  if String.eqb (id node) targetId then Some node
  else
    match children node with
    | Some cs => for_of (findNode_in targetId) cs
    | None => None
    end.

Definition findNodeInTree (nodes : list SimplifiedNode) (targetId : string)
    : option SimplifiedNode :=
  for_of (findNode_in targetId) nodes.

(** The node reached from a forest by a path of child indices. *)
Fixpoint subnode (nodes : list SimplifiedNode) (path : list nat)
    : option SimplifiedNode :=
  match path with
  | [] => None
  | i :: rest =>
      match nth_error nodes i with
      | None => None
      | Some n =>
          match rest with
          | [] => Some n
          | _ => match children n with
                 | Some cs => subnode cs rest
                 | None => None
                 end
          end
      end
  end.

(** What it means that [findNodeInTree] and [getNodeDepthFromRoot] walk the
    forest in the same order: when the search finds a node, the node carries
    the target id and lies at the end of a path of child indices, and the
    depth reported is the number of edges of that path below the root level;
    when the search finds nothing, the depth is the sentinel. *)
Definition located_at (targetId : string) (nodes : list SimplifiedNode)
    (currentDepth : Z) : Prop :=
  match for_of (findNode_in targetId) nodes with
  | Some node =>
      id node = targetId
      /\ exists path,
           subnode nodes path = Some node
           /\ path <> []
           /\ for_of (depthFromRoot_in targetId currentDepth) nodes
              = Some (currentDepth + Z.of_nat (length path) - 1)
  | None => for_of (depthFromRoot_in targetId currentDepth) nodes = None
  end.

End Tree.

(** ** Cache keys

    Keys are the strings ["<fileKey>:<selector>:<depth or default>"]. *)

Module Key.

(** [s.split(':')]. *)
Fixpoint split_colon (s : string) : list string :=
  match s with
  | EmptyString => [EmptyString]
  | String c rest =>
      if Ascii.eqb c ":"%char then EmptyString :: split_colon rest
      else
        match split_colon rest with
        | part :: parts => String c part :: parts
        | [] => [String c EmptyString]
        end
  end.

(** White space skipped by [parseInt] (the ASCII part of StrWhiteSpaceChar). *)
Definition is_space (c : ascii) : bool :=
  let n := nat_of_ascii c in
  (n =? 32)%nat || ((9 <=? n)%nat && (n <=? 13)%nat).

Definition digit_of (c : ascii) : option Z :=
  let n := nat_of_ascii c in
  if ((48 <=? n)%nat && (n <=? 57)%nat)%bool then Some (Z.of_nat n - 48) else None.

Fixpoint skip_space (s : string) : string :=
  match s with
  | String c rest => if is_space c then skip_space rest else s
  | EmptyString => s
  end.

(** The longest prefix of decimal digits, read as a number ([None] when the
    string does not start with a digit). *)
Fixpoint digits (s : string) (acc : option Z) : option Z :=
  match s with
  | String c rest =>
      match digit_of c with
      | Some d => digits rest (Some (10 * default 0 acc + d))
      | None => acc
      end
  | EmptyString => acc
  end.

(** [parseInt(s, 10)]; [None] is NaN.  The value is the exact integer: the
    rounding of IEEE doubles beyond 2^53 is not modelled, which does not
    change a comparison with a tree depth. *)
Definition parseInt10 (s : string) : option Z :=
  match skip_space s with
  | String "-"%char rest => Z.opp <$> digits rest None
  | String "+"%char rest => digits rest None
  | t => digits t None
  end.

(** [getCacheKeyDepthLimit]: the number after the last colon, or [None]
    (null) for "default" and any other text. *)
Definition getCacheKeyDepthLimit (cacheKey : string) : option Z :=
  let parts := split_colon cacheKey in
  let lastPart := List.last parts EmptyString in
  parseInt10 lastPart.

(** [cacheKey.startsWith(`${fileKey}:`)]. *)
Definition forFile (fileKey cacheKey : string) : bool :=
  String.prefix (fileKey +:+ ":") cacheKey.

End Key.

(** ** The eviction store ([LRUCache<K, V>])

    [cache] is the JavaScript [Map] from keys to list nodes, kept as the
    sequence of its entries in insertion order (the order [Map.forEach]
    visits); an entry carries the node's [value].  [chain] is the doubly
    linked list read from [head] to [tail]: the keys of its nodes, most
    recently used first. *)

Module LRU.
Section lru.
Context {K : Type} `{EqDecision K} {V : Type}.

Record LRUCache : Type := mkLRU {
  capacity : Z;
  cache : list (K * V);
  chain : list K;
}.

Definition new (capacity : Z) : LRUCache := mkLRU capacity [] [].

(** [Map.prototype.get / set / delete]. *)
Fixpoint Map_get (key : K) (m : list (K * V)) : option V :=
  match m with
  | [] => None
  | (k, v) :: rest => if decide (k = key) then Some v else Map_get key rest
  end.

Fixpoint Map_set (key : K) (value : V) (m : list (K * V)) : list (K * V) :=
  match m with
  | [] => [(key, value)]
  | (k, v) :: rest =>
      if decide (k = key) then (k, value) :: rest
      else (k, v) :: Map_set key value rest
  end.

Definition Map_delete (key : K) (m : list (K * V)) : list (K * V) :=
  filter (fun e => e.1 <> key) m.

Definition head (c : LRUCache) : option K := List.head (chain c).
Definition tail (c : LRUCache) : option K := last (chain c).

(** [removeNode]: unlink the node of [key]. *)
Definition removeNode (key : K) (c : LRUCache) : LRUCache :=
  mkLRU (capacity c) (cache c) (filter (fun k => k <> key) (chain c)).

(** [addToFront]: the node becomes the new head. *)
Definition addToFront (key : K) (c : LRUCache) : LRUCache :=
  mkLRU (capacity c) (cache c) (key :: chain c).

Definition moveToFront (key : K) (c : LRUCache) : LRUCache :=
  if decide (head c = Some key) then c
  else addToFront key (removeNode key c).

Definition get (key : K) (c : LRUCache) : option V * LRUCache :=
  match Map_get key (cache c) with
  | None => (None, c)
  | Some value => (Some value, moveToFront key c)
  end.

Definition size (c : LRUCache) : Z := Z.of_nat (length (cache c)).

Definition put (key : K) (value : V) (c : LRUCache) : LRUCache :=
  match Map_get key (cache c) with
  | Some _ =>
      moveToFront key (mkLRU (capacity c) (Map_set key value (cache c)) (chain c))
  | None =>
      let c1 :=
        if size c >=? capacity c then
          match tail c with
          | Some t =>
              removeNode t (mkLRU (capacity c) (Map_delete t (cache c)) (chain c))
          | None => c
          end
        else c in
      addToFront key (mkLRU (capacity c1) (Map_set key value (cache c1)) (chain c1))
  end.

Definition delete (key : K) (c : LRUCache) : bool * LRUCache :=
  match Map_get key (cache c) with
  | None => (false, c)
  | Some _ =>
      let c1 := removeNode key c in
      (true, mkLRU (capacity c1) (Map_delete key (cache c1)) (chain c1))
  end.

Definition clear (c : LRUCache) : LRUCache := mkLRU (capacity c) [] [].

Definition has (key : K) (c : LRUCache) : bool :=
  bool_decide (is_Some (Map_get key (cache c))).

(** [forEach(callback)]: the callback is called with each value and key in
    the order of the [Map]; what it changes outside the store is threaded
    as [acc]. *)
Definition forEach {S : Type} (callback : V -> K -> S -> S) (c : LRUCache)
    (acc : S) : S :=
  fold_left (fun a e => callback e.2 e.1 a) (cache c) acc.

(** *** Histories of operations

    The operations a client can apply, and a run of the store together
    with a clock that records, for every key, when it was last touched:
    by a [put], or by a [get] that finds it. *)
Inductive op : Type :=
  | Get (key : K)
  | Put (key : K) (value : V)
  | Delete (key : K)
  | Clear.

Definition step (o : op) (c : LRUCache) : LRUCache :=
  match o with
  | Get key => (get key c).2
  | Put key value => put key value c
  | Delete key => (delete key c).2
  | Clear => clear c
  end.

Record Timed : Type := mkTimed {
  lru : LRUCache;
  now : nat;
  touchedAt : K -> nat;
}.

Definition touches (o : op) (c : LRUCache) : option K :=
  match o with
  | Get key => if has key c then Some key else None
  | Put key _ => Some key
  | Delete _ => None
  | Clear => None
  end.

Definition timed_step (t : Timed) (o : op) : Timed :=
  mkTimed (step o (lru t)) (S (now t))
    (match touches o (lru t) with
     | Some key => fun k => if decide (k = key) then now t else touchedAt t k
     | None => touchedAt t
     end).

Definition timed_run (capacity : Z) (ops : list op) : Timed :=
  fold_left timed_step ops (mkTimed (new capacity) 0 (fun _ => 0%nat)).

Definition run (capacity : Z) (ops : list op) : LRUCache :=
  fold_left (fun c o => step o c) ops (new capacity).

(** Recency order of the chain: every node was touched after the nodes
    behind it. *)
Definition newer (at_ : K -> nat) (a b : K) : Prop := (at_ b < at_ a)%nat.

Record wf (t : Timed) : Prop := mkWf {
  wf_keys : NoDup (cache (lru t)).*1;
  wf_same : forall k, k ∈ chain (lru t) <-> k ∈ (cache (lru t)).*1;
  wf_sorted : StronglySorted (newer (touchedAt t)) (chain (lru t));
  wf_past : forall k, k ∈ chain (lru t) -> (touchedAt t k < now t)%nat;
}.
End lru.
Arguments LRUCache : clear implicits.
Arguments op : clear implicits.
Arguments Timed : clear implicits.
End LRU.

(** ** The depth-aware cache ([ParseDataCache])

    Depths are integers ([number] restricted to the values the callers
    pass); an absent depth, [null] or [undefined], is [None].  One method
    runs from start to end: what other callers do while a [getFileMeta] call
    is pending is outside this model. *)

Module Cache.
Import Tree Key.

(** [SimplifiedDesign].  The component, component-set and style tables are
    only passed on by the cache, so they are kept as opaque text. *)
Record SimplifiedDesign : Type := mkDesign {
  designName : string;
  lastModified : string;
  thumbnailUrl : string;
  nodes : list SimplifiedNode;
  components : string;
  componentSets : string;
  globalVars : string;
}.

(** [CacheItem].  [lastTouchedAt] is [None] when the property is undefined. *)
Record CacheItem : Type := mkItem {
  data : SimplifiedDesign;
  lastTouchedAt : option string;
}.

(** How a promise settles. *)
Inductive Settled (A : Type) : Type :=
  | Fulfilled (a : A)
  | Rejected.
Arguments Fulfilled {A} a.
Arguments Rejected {A}.

Record GetFileMetaResponse : Type := mkMeta {
  last_touched_at : option string;
}.

(** [CacheValidationParams].  [getFileMeta n] is how the call settles when
    [n] calls were made before it. *)
Record CacheValidationParams : Type := mkParams {
  fileKey : string;
  getFileMeta : nat -> Settled GetFileMetaResponse;
}.

(** The state of one cache object: its [LRUCache] and the number of
    [getFileMeta] calls made so far. *)
Record State : Type := mkState {
  store : LRU.LRUCache string CacheItem;
  metaCalls : nat;
}.

Definition M (A : Type) : Type := State -> A * State.

Definition ret {A : Type} (a : A) : M A := fun s => (a, s).

Definition bind {A B : Type} (m : M A) (k : A -> M B) : M B :=
  fun s => let '(a, s1) := m s in k a s1.

Notation "'let*' x := m 'in' k" := (bind m (fun x => k))
  (at level 10, x pattern, m at level 100, k at level 200).

Definition withStore {A : Type}
    (f : LRU.LRUCache string CacheItem -> A * LRU.LRUCache string CacheItem)
    : M A :=
  fun s => let '(a, c) := f (store s) in (a, mkState c (metaCalls s)).

Definition readStore : M (LRU.LRUCache string CacheItem) :=
  fun s => (store s, s).

(** [await validationParams.getFileMeta()]. *)
Definition callGetFileMeta (validationParams : CacheValidationParams)
    : M (Settled GetFileMetaResponse) :=
  fun s =>
    (getFileMeta validationParams (metaCalls s),
     mkState (store s) (S (metaCalls s))).

(** A string used as a condition: undefined and the empty string are false. *)
Definition truthy (s : option string) : bool :=
  match s with
  | Some t => negb (String.eqb t EmptyString)
  | None => false
  end.

(** [a >= b] where [a] may be -Infinity. *)
Definition geInf (a : option Z) (b : Z) : bool :=
  match a with
  | Some x => x >=? b
  | None => false
  end.

Definition checkNodeDepthSatisfiesRequirement (cacheData : SimplifiedDesign)
    (targetNodeId : string) (requiredDepth : option Z) : bool :=
  match requiredDepth with
  | None => true
  | Some required =>
      match findNodeInTree (nodes cacheData) targetNodeId with
      | None => false
      | Some targetNode =>
          let overallCacheDepth := Math_max (map getNodeDepth (nodes cacheData)) in
          let targetNodeDepth := getNodeDepth targetNode in
          geInf overallCacheDepth required || (targetNodeDepth >=? required)
      end
  end.

(** The callback of [findNodeInCache] for one entry, when no result has been
    recorded yet: the new value of [result]. *)
Definition findNodeInCache_entry (fileKey nodeId : string)
    (requiredDepth : option Z) (cacheItem : CacheItem) (cacheKey : string)
    : option (SimplifiedNode * CacheItem) :=
  if forFile fileKey cacheKey then
    let cacheDepthLimit := getCacheKeyDepthLimit cacheKey in
    let incomplete :=
      match requiredDepth, cacheDepthLimit with
      | None, Some limit =>
          match findNodeInTree (nodes (data cacheItem)) nodeId with
          | Some targetNode =>
              let nodeDepthFromRoot :=
                getNodeDepthFromRoot (nodes (data cacheItem)) nodeId 0 in
              let nodeSubtreeDepth := getNodeDepth targetNode in
              let totalDepthNeeded := nodeDepthFromRoot + nodeSubtreeDepth in
              totalDepthNeeded >=? limit
          | None => true
          end
      | _, _ => false
      end in
    if incomplete then None
    else if checkNodeDepthSatisfiesRequirement (data cacheItem) nodeId requiredDepth
    then
      match findNodeInTree (nodes (data cacheItem)) nodeId with
      | Some node =>
          let finalNode :=
            match requiredDepth with
            | Some required =>
                if required >=? 0 then limitNodeDepth node required else node
            | None => node
            end in
          Some (finalNode, cacheItem)
      | None => None
      end
    else None
  else None.

Definition findNodeInCache (c : LRU.LRUCache string CacheItem)
    (fileKey nodeId : string) (requiredDepth : option Z)
    : option (SimplifiedNode * CacheItem) :=
  LRU.forEach
    (fun cacheItem cacheKey result =>
       match result with
       | Some _ => result
       | None => findNodeInCache_entry fileKey nodeId requiredDepth cacheItem cacheKey
       end)
    c None.

Definition createDesignFromNodes (originalDesign : SimplifiedDesign)
    (nodes : list SimplifiedNode) : SimplifiedDesign :=
  mkDesign (designName originalDesign) (lastModified originalDesign)
    (thumbnailUrl originalDesign) nodes (components originalDesign)
    (componentSets originalDesign) (globalVars originalDesign).

(** [validateCacheItem]: the [try] block awaits [getFileMeta]; a rejected
    call lands in the [catch] block, which answers [true]. *)
Definition validateCacheItem (cacheItem : CacheItem)
    (validationParams : CacheValidationParams) : M bool :=
  if negb (truthy (lastTouchedAt cacheItem)) then ret true
  else
    let* settled := callGetFileMeta validationParams in
    match settled with
    | Fulfilled fileMeta =>
        let currentLastTouchedAt := last_touched_at fileMeta in
        if truthy currentLastTouchedAt
           && negb (bool_decide (currentLastTouchedAt = lastTouchedAt cacheItem))
        then ret false
        else ret true
    | Rejected => ret true
    end.

Definition get (cacheKey : string)
    (validationParams : option CacheValidationParams)
    : M (option SimplifiedDesign) :=
  let* found := withStore (LRU.get cacheKey) in
  match found with
  | None => ret None
  | Some cacheItem =>
      match validationParams with
      | Some params =>
          let* isValid := validateCacheItem cacheItem params in
          if negb isValid then
            let* _ := withStore (LRU.delete cacheKey) in
            ret None
          else ret (Some (data cacheItem))
      | None => ret (Some (data cacheItem))
      end
  end.

Definition clearFileCache_store (fileKey : string)
    (c : LRU.LRUCache string CacheItem) : LRU.LRUCache string CacheItem :=
  let keysToDelete :=
    LRU.forEach
      (fun _ cacheKey keys =>
         if forFile fileKey cacheKey then (keys ++ [cacheKey])%list else keys)
      c [] in
  fold_left (fun c1 key => (LRU.delete key c1).2) keysToDelete c.

Definition clearFileCache (fileKey : string) : M unit :=
  withStore (fun c => (tt, clearFileCache_store fileKey c)).

Definition findNodeData (fileKey nodeId : string)
    (validationParams : option CacheValidationParams)
    (requiredDepth : option Z) : M (option SimplifiedNode) :=
  let* c := readStore in
  match findNodeInCache c fileKey nodeId requiredDepth with
  | None => ret None
  | Some (node, cacheItem) =>
      match validationParams with
      | Some params =>
          let* isValid := validateCacheItem cacheItem params in
          if negb isValid then
            let* _ := clearFileCache fileKey in
            ret None
          else ret (Some node)
      | None => ret (Some node)
      end
  end.

Record MultipleNodes : Type := mkMultiple {
  cachedNodes : list SimplifiedNode;
  missingNodeIds : list string;
  sourceDesign : option SimplifiedDesign;
}.

(** The scan that records [sourceDesign]: every entry of the file that
    contains the node assigns its design. *)
Definition recordSourceDesign (c : LRU.LRUCache string CacheItem)
    (fileKey nodeId : string) (sourceDesign : option SimplifiedDesign)
    : option SimplifiedDesign :=
  LRU.forEach
    (fun cacheItem cacheKey source =>
       if forFile fileKey cacheKey
          && bool_decide (is_Some (findNodeInTree (nodes (data cacheItem)) nodeId))
       then Some (data cacheItem)
       else source)
    c sourceDesign.

Fixpoint findMultipleNodes_loop (fileKey : string) (nodeIds : list string)
    (validationParams : option CacheValidationParams)
    (requiredDepth : option Z) (acc : MultipleNodes) : M MultipleNodes :=
  match nodeIds with
  | [] => ret acc
  | nodeId :: rest =>
      let* cachedNode := findNodeData fileKey nodeId validationParams requiredDepth in
      match cachedNode with
      | Some node =>
          let* c := readStore in
          let source :=
            match sourceDesign acc with
            | Some _ => sourceDesign acc
            | None => recordSourceDesign c fileKey nodeId (sourceDesign acc)
            end in
          findMultipleNodes_loop fileKey rest validationParams requiredDepth
            (mkMultiple (cachedNodes acc ++ [node])%list (missingNodeIds acc) source)
      | None =>
          findMultipleNodes_loop fileKey rest validationParams requiredDepth
            (mkMultiple (cachedNodes acc) (missingNodeIds acc ++ [nodeId])%list
               (sourceDesign acc))
      end
  end.

Definition findMultipleNodes (fileKey : string) (nodeIds : list string)
    (validationParams : option CacheValidationParams)
    (requiredDepth : option Z) : M MultipleNodes :=
  findMultipleNodes_loop fileKey nodeIds validationParams requiredDepth
    (mkMultiple [] [] None).

Definition put (cacheKey : string) (data : SimplifiedDesign)
    (lastTouchedAt : option string) : M unit :=
  withStore (fun c => (tt, LRU.put cacheKey (mkItem data lastTouchedAt) c)).

Definition mergeNodesAsDesign (sourceDesign : SimplifiedDesign)
    (nodes : list SimplifiedNode) : SimplifiedDesign :=
  createDesignFromNodes sourceDesign nodes.

Definition clearAllCache : M unit :=
  withStore (fun c => (tt, LRU.clear c)).

Definition has (cacheKey : string) : M bool :=
  withStore (fun c => (LRU.has cacheKey c, c)).

Definition create (capacity : Z) : State := mkState (LRU.new capacity) 0.

(** *** Reading of the store used to state what [findMultipleNodes] returns

    The design of the last entry, in the order of the scan, whose key is of
    the file and whose snapshot contains the node. *)
Definition containsNode (fileKey nodeId : string) (e : string * CacheItem) : Prop :=
  forFile fileKey e.1 = true
  /\ is_Some (findNodeInTree (nodes (data e.2)) nodeId).

#[global] Instance containsNode_dec fileKey nodeId e :
  Decision (containsNode fileKey nodeId e).
Proof. unfold containsNode. apply _. Defined.

Definition lastEntryContaining (c : LRU.LRUCache string CacheItem)
    (fileKey nodeId : string) : option SimplifiedDesign :=
  (fun e => data e.2) <$> last (filter (containsNode fileKey nodeId) (LRU.cache c)).

End Cache.

(** ** Forests as JavaScript sees them

    The type [SimplifiedNode[]] has no empty slots, but a value cast to it
    can hold [null] or [undefined] where a node is expected.  [JsNull] is
    such a slot; reading a property of it throws a TypeError. *)

Module Raw.

#[local] Unset Elimination Schemes.
Inductive JsNode : Type :=
  | JsNull
  | JsObject (id name type : string) (children : option (list JsNode)).
#[local] Set Elimination Schemes.

(** How a call ends: with a value, or by throwing. *)
Inductive Completion (A : Type) : Type :=
  | Normal (a : A)
  | TypeError.
Arguments Normal {A} a.
Arguments TypeError {A}.

(** A [for ... of] loop whose body returns a result ([Normal (Some r)]),
    falls through ([Normal None]) or throws. *)
Section for_of_throwing.
Context {A R : Type} (body : A -> Completion (option R)).

Fixpoint for_of_throwing (xs : list A) : Completion (option R) :=
  match xs with
  | [] => Normal None
  | x :: rest =>
      match body x with
      | Normal None => for_of_throwing rest
      | Normal (Some r) => Normal (Some r)
      | TypeError => TypeError
      end
  end.
End for_of_throwing.

(** [findNodeInTree] on such a forest; [Normal None] is the result [null]. *)
Fixpoint findNode_in (targetId : string) (node : JsNode)
    : Completion (option JsNode) :=
  match node with
  | JsNull => TypeError
  | JsObject id _ _ children =>
      if String.eqb id targetId then Normal (Some node)
      else
        match children with
        | Some cs => for_of_throwing (findNode_in targetId) cs
        | None => Normal None
        end
  end.

Definition findNodeInTree (nodes : list JsNode) (targetId : string)
    : Completion (option JsNode) :=
  for_of_throwing (findNode_in targetId) nodes.

(** A well-typed node as a JavaScript value. *)
Fixpoint embed (node : Tree.SimplifiedNode) : JsNode :=
  match node with
  | Tree.mkNode id name type children =>
      JsObject id name type
        (match children with
         | Some cs => Some (map embed cs)
         | None => None
         end)
  end.

(** The slots of a forest in the order a depth-first walk meets them. *)
Fixpoint slots_in (node : JsNode) : list JsNode :=
  node ::
  match node with
  | JsObject _ _ _ (Some cs) => flat_map slots_in cs
  | _ => []
  end.

Definition slots (nodes : list JsNode) : list JsNode := flat_map slots_in nodes.

(** A slot that ends the search: an empty slot, or a node with the id. *)
Definition decisive (targetId : string) (slot : JsNode) : bool :=
  match slot with
  | JsNull => true
  | JsObject id _ _ _ => String.eqb id targetId
  end.

(** The search as a walk over the slots: the first decisive slot decides. *)
Definition verdict (targetId : string) (l : list JsNode)
    : Completion (option JsNode) :=
  match List.find (decisive targetId) l with
  | None => Normal None
  | Some JsNull => TypeError
  | Some node => Normal (Some node)
  end.

Definition firstDecisive (targetId : string) (nodes : list JsNode)
    : Completion (option JsNode) :=
  verdict targetId (slots nodes).

(** The forest of the test of the sibling search [findNodeById]. *)
Definition nodesWithNullOrUndefined : list JsNode :=
  [ JsObject "1" "Node 1" "FRAME" None;
    JsNull;
    JsNull;
    JsObject "2" "Node 2" "GROUP"
      (Some [ JsNull; JsObject "2-1" "Node 2-1" "RECTANGLE" None; JsNull ]) ].

End Raw.

(** ** Nodes as objects

    To speak about copies and mutation the nodes are placed in a store of
    objects: a node is then a reference, and its [children] array holds
    references.  References are indices into the store and a new object is
    put after the existing ones. *)

Module Heap.
Import Tree.

Abbreviation addr := nat.

(** A node object.  [oprops] is a member whose value is itself an array or
    an object ([componentProperties] and the like): the node holds the
    reference to it, and a rest or spread copy of the node copies that
    reference. *)
Record Obj : Type := mkObj {
  oid : string;
  oname : string;
  otype : string;
  oprops : option addr;
  ochildren : option (list addr);
}.

Abbreviation heap := (list Obj).

(** The arrays and objects that nodes hold as members, in a store of their
    own; [limitNodeDepth] creates none and assigns to none. *)
Abbreviation members := (list (list string)).

(** [node.componentProperties], read through the reference to the node. *)
Definition member (h : heap) (m : members) (a : addr) : option (list string) :=
  match h !! a with
  | Some o =>
      match oprops o with
      | Some r => m !! r
      | None => None
      end
  | None => None
  end.


(** An object literal: a new object, and its reference. *)
Definition alloc (o : Obj) (h : heap) : addr * heap := (length h, h ++ [o]).


(** [children.map(child => f(child))] for an [f] that creates objects. *)
Fixpoint map_children (f : addr -> heap -> option (addr * heap))
    (cs : list addr) (h : heap) : option (list addr * heap) :=
  match cs with
  | [] => Some ([], h)
  | child :: rest =>
      match f child h with
      | None => None
      | Some (child', h1) =>
          match map_children f rest h1 with
          | None => None
          | Some (rest', h2) => Some (child' :: rest', h2)
          end
      end
  end.

(** [limitNodeDepth] on references.  The recursion descends with
    [maxDepth - 1] and stops at [maxDepth <= 0], so [Z.to_nat maxDepth]
    bounds its depth; [fuel] is that bound.  [None] stands for a reference
    to no object, which a JavaScript program cannot hold. *)
Fixpoint limitNodeDepth_fuel (fuel : nat) (node : addr) (maxDepth : Z)
    (h : heap) : option (addr * heap) :=
  match h !! node with
  | None => None
  | Some o =>
      if maxDepth <=? 0 then
        Some (alloc (mkObj (oid o) (oname o) (otype o) (oprops o) None) h)
      else
        match ochildren o with
        | None => Some (node, h)
        | Some [] => Some (node, h)
        | Some cs =>
            match fuel with
            | O => None
            | S fuel' =>
                match map_children
                        (fun child => limitNodeDepth_fuel fuel' child (maxDepth - 1))
                        cs h with
                | None => None
                | Some (cs', h1) =>
                    Some (alloc (mkObj (oid o) (oname o) (otype o) (oprops o) (Some cs')) h1)
                end
            end
        end
  end.

Definition limitNodeDepth (node : addr) (maxDepth : Z) (h : heap)
    : option (addr * heap) :=
  limitNodeDepth_fuel (Z.to_nat maxDepth) node maxDepth h.










End Heap.

(** ** The caller of the cache ([FigmaService.getNode]) and its helpers *)

Module Service.
Import Tree Key Cache.

(** [normalizeFigmaNodeId]: [nodeId.replace(/-/g, ":")]. *)
Fixpoint normalizeFigmaNodeId (nodeId : string) : string :=
  match nodeId with
  | EmptyString => EmptyString
  | String c rest =>
      String (if Ascii.eqb c "-"%char then ":"%char else c)
        (normalizeFigmaNodeId rest)
  end.

(** The decimal digits of [n >= 0] put in front of [acc]; [fuel] bounds the
    number of digits. *)
Fixpoint digitsOf (fuel : nat) (n : Z) (acc : string) : string :=
  match fuel with
  | O => acc
  | S fuel' =>
      let acc' := String (ascii_of_nat (48 + Z.to_nat (n mod 10))) acc in
      if n / 10 =? 0 then acc' else digitsOf fuel' (n / 10) acc'
  end.

(** A number in a template literal, for the integers that JavaScript prints
    in plain decimal notation (those below 10^21 in absolute value). *)
Definition numberToString (d : Z) : string :=
  if d <? 0 then String "-"%char (digitsOf (S (Z.to_nat (- d))) (- d) EmptyString)
  else digitsOf (S (Z.to_nat d)) d EmptyString.

(** A depth used as a condition: [null], [undefined] and 0 are false. *)
Definition truthyDepth (depth : option Z) : option Z :=
  match depth with
  | Some d => if d =? 0 then None else Some d
  | None => None
  end.

(** [`${fileKey}:${nodeIds}:${depth || "default"}`]. *)
Definition cacheKeyOf (fileKey nodeIds : string) (depth : option Z) : string :=
  fileKey +:+ ":" +:+ nodeIds +:+ ":" +:+
  match truthyDepth depth with
  | Some d => numberToString d
  | None => "default"
  end.

(** [s.split(",")]. *)
Fixpoint split_comma (s : string) : list string :=
  match s with
  | EmptyString => [EmptyString]
  | String c rest =>
      if Ascii.eqb c ","%char then EmptyString :: split_comma rest
      else
        match split_comma rest with
        | part :: parts => String c part :: parts
        | [] => [String c EmptyString]
        end
  end.

(** [s.trim()].  The strings are read as UTF-8.  What [trim] removes at
    both ends are the code points of WhiteSpace and LineTerminator, listed
    here by the bytes of their encodings: TAB, LF, VT, FF, CR, SP, then
    U+00A0, U+1680, U+2000 to U+200A, U+2028, U+2029, U+202F, U+205F,
    U+3000 and U+FEFF. *)
Definition bytes (codes : list nat) : string :=
  fold_right (fun n s => String (ascii_of_nat n) s) EmptyString codes.

Definition whiteSpace : list string :=
  map bytes
    [ [9%nat]; [10%nat]; [11%nat]; [12%nat]; [13%nat]; [32%nat];
      [194%nat; 160%nat];
      [225%nat; 154%nat; 128%nat];
      [226%nat; 128%nat; 128%nat]; [226%nat; 128%nat; 129%nat];
      [226%nat; 128%nat; 130%nat]; [226%nat; 128%nat; 131%nat];
      [226%nat; 128%nat; 132%nat]; [226%nat; 128%nat; 133%nat];
      [226%nat; 128%nat; 134%nat]; [226%nat; 128%nat; 135%nat];
      [226%nat; 128%nat; 136%nat]; [226%nat; 128%nat; 137%nat];
      [226%nat; 128%nat; 138%nat];
      [226%nat; 128%nat; 168%nat]; [226%nat; 128%nat; 169%nat];
      [226%nat; 128%nat; 175%nat];
      [226%nat; 129%nat; 159%nat];
      [227%nat; 128%nat; 128%nat];
      [239%nat; 187%nat; 191%nat] ].

(** The rest of [s] after the prefix [p], when [s] starts with [p]. *)
Fixpoint stripPrefix (p s : string) : option string :=
  match p, s with
  | EmptyString, _ => Some s
  | String a p', String b s' =>
      if Ascii.eqb a b then stripPrefix p' s' else None
  | String _ _, EmptyString => None
  end.

(** Removes the characters of [white] at the front of [s]; each round
    removes one character, so the length of [s] bounds the rounds. *)
Fixpoint trimStart_fuel (white : list string) (fuel : nat) (s : string) : string :=
  match fuel with
  | O => s
  | S fuel' =>
      match for_of (fun w => stripPrefix w s) white with
      | Some rest => trimStart_fuel white fuel' rest
      | None => s
      end
  end.

Definition trimStart (s : string) : string :=
  trimStart_fuel whiteSpace (String.length s) s.

(** At the end the same characters are removed: read backwards. *)
Definition trimEnd (s : string) : string :=
  String.rev
    (trimStart_fuel (map String.rev whiteSpace) (String.length s) (String.rev s)).

Definition trim (s : string) : string := trimEnd (trimStart s).

(** [parts.join(",")]. *)
Fixpoint join_comma (parts : list string) : string :=
  match parts with
  | [] => EmptyString
  | [part] => part
  | part :: rest => part +:+ "," +:+ join_comma rest
  end.

(** How [getNode] ends: with a design, with the error of a failed fetch, or
    with the TypeError of reading the name of a design that is [null]. *)
Inductive Outcome : Type :=
  | Returned (design : SimplifiedDesign)
  | FetchFailed
  | NullDesign.

(** The service: its cache and the fetches of nodes made so far, each with
    the file, the ids and the depth put into the request. *)
Record ServiceState : Type := mkService {
  cacheState : State;
  fetches : list (string * string * option Z);
}.

(** The remote side: how the [n]-th fetch of nodes settles, parsed, and how
    the calls for the file metadata settle. *)
Record Remote : Type := mkRemote {
  nodesResponse : string -> string -> option Z -> nat -> Settled SimplifiedDesign;
  metaResponse : nat -> Settled GetFileMetaResponse;
}.

(** [fetchAndProcessNodes]: the depth goes into the request only when it is
    truthy. *)
Definition fetchAndProcessNodes (remote : Remote) (fileKey nodeIds : string)
    (depth : option Z) (sv : ServiceState) : Settled SimplifiedDesign * ServiceState :=
  (nodesResponse remote fileKey nodeIds (truthyDepth depth) (length (fetches sv)),
   mkService (cacheState sv)
     (fetches sv ++ [(fileKey, nodeIds, truthyDepth depth)])).

Definition getNode (useCache : bool) (remote : Remote)
    (fileKey _nodeIds : string) (depth : option Z) (sv : ServiceState)
    : Outcome * ServiceState :=
  let nodeIds := normalizeFigmaNodeId _nodeIds in
  if negb useCache then
    match fetchAndProcessNodes remote fileKey nodeIds depth sv with
    | (Fulfilled result, sv1) => (Returned result, sv1)
    | (Rejected, sv1) => (FetchFailed, sv1)
    end
  else
    let cacheKey := cacheKeyOf fileKey nodeIds depth in
    let validationParams := mkParams fileKey (metaResponse remote) in
    let '(cachedResult, s1) :=
      Cache.get cacheKey (Some validationParams) (cacheState sv) in
    match cachedResult with
    | Some result => (Returned result, mkService s1 (fetches sv))
    | None =>
        let nodeIdArray := map trim (split_comma nodeIds) in
        let '(found, s2) :=
          findMultipleNodes fileKey nodeIdArray (Some validationParams) depth s1 in
        match missingNodeIds found, sourceDesign found with
        | [], Some source =>
            let mergedDesign := mergeNodesAsDesign source (cachedNodes found) in
            let s3 := (put cacheKey mergedDesign (Some (lastModified source)) s2).2 in
            (Returned mergedDesign, mkService s3 (fetches sv))
        | missing, source =>
            let sv2 := mkService s2 (fetches sv) in
            let '(fetched, sv3) :=
              match missing with
              | [] => (Fulfilled None, sv2)
              | _ =>
                  match fetchAndProcessNodes remote fileKey (join_comma missing)
                          depth sv2 with
                  | (Fulfilled response, sv3) => (Fulfilled (Some response), sv3)
                  | (Rejected, sv3) => (Rejected, sv3)
                  end
              end in
            match fetched with
            | Rejected => (FetchFailed, sv3)
            | Fulfilled apiResponse =>
                let allNodes :=
                  cachedNodes found
                  ++ match apiResponse with
                     | Some response => nodes response
                     | None => []
                     end in
                match (match source with
                       | Some design => Some design
                       | None => apiResponse
                       end) with
                | None => (NullDesign, sv3)
                | Some original =>
                    let finalDesign := mergeNodesAsDesign original allNodes in
                    let s3 :=
                      (put cacheKey finalDesign (Some (lastModified finalDesign))
                         (cacheState sv3)).2 in
                    (Returned finalDesign, mkService s3 (fetches sv3))
                end
            end
        end
    end.

End Service.

(** ** Utilities ([utils/common]) *)

Module Common.

(** *** [removeEmptyKeys]

    The data it is applied to: [undefined], [null], the values that [typeof]
    does not call an object ([Prim] stands for booleans, numbers and
    strings), arrays, and objects as the list of their own enumerable
    members in the order in which [for ... in] visits them.  The prototype
    of an object is not part of the value: [removeEmptyKeys] reads own
    members only. *)
#[local] Unset Elimination Schemes.
Inductive Value : Type :=
  | Undefined
  | Null
  | Prim (text : string)
  | Arr (items : list Value)
  | Obj (members : list (string * Value)).
#[local] Set Elimination Schemes.

(** The values that are skipped: [undefined], an empty array and an object
    without keys. *)
Definition isEmpty (v : Value) : bool :=
  match v with
  | Undefined | Arr [] | Obj [] => true
  | _ => false
  end.

(** [obj[key] = value] on an object created by a literal makes a member,
    except for the key [__proto__]: that assignment goes to the setter of
    [Object.prototype], which changes the prototype or does nothing, and no
    member is made. *)
Definition isProto (key : string) : bool := String.eqb key "__proto__".

(** The body of the loop over the members, after the value was cleaned:
    what [result[key] = cleanedValue] adds to the members of [result]. *)
Definition keepMember (key : string) (cleanedValue : Value)
    : option (string * Value) :=
  if isEmpty cleanedValue then None
  else if isProto key then None
  else Some (key, cleanedValue).

Fixpoint removeEmptyKeys (input : Value) : Value :=
  match input with
  | Arr items => Arr (map removeEmptyKeys items)
  | Obj members =>
      Obj (omap (fun member => keepMember member.1 (removeEmptyKeys member.2))
             members)
  | _ => input
  end.

(** No object inside the value, at any level, has a member that would be
    skipped. *)
Fixpoint noEmptyMembers (v : Value) : bool :=
  match v with
  | Arr items => forallb noEmptyMembers items
  | Obj members =>
      forallb (fun member => negb (isEmpty member.2) && noEmptyMembers member.2)
        members
  | _ => true
  end.

(** No object inside the value, at any level, has a member named
    [__proto__]. *)
Fixpoint ordinaryKeys (v : Value) : bool :=
  match v with
  | Arr items => forallb ordinaryKeys items
  | Obj members =>
      forallb (fun member => negb (isProto member.1) && ordinaryKeys member.2)
        members
  | _ => true
  end.

(** *** [generateCSSShorthand]

    The numbers are kept abstract: [same] is [===], [zero] the number 0 and
    [show] the text of a number in a template literal. *)
Section shorthand.
Context {num : Type} (same : num -> num -> bool) (zero : num) (show : num -> string).

Record Sides : Type := mkSides { top : num; right : num; bottom : num; left : num }.

(** The second argument; a member that is missing takes its default. *)
Record Options : Type := mkOptions {
  ignoreZero : option bool;
  suffix : option string;
}.

Definition generateCSSShorthand (values : Sides) (options : Options)
    : option string :=
  let ignoreZero := default true (ignoreZero options) in
  let suffix := default "px" (suffix options) in
  let '(mkSides top right bottom left) := values in
  if ignoreZero && same top zero && same right zero && same bottom zero
     && same left zero
  then None
  else if same top right && same right bottom && same bottom left
  then Some (show top +:+ suffix)
  else if same right left then
    if same top bottom
    then Some (show top +:+ suffix +:+ " " +:+ show right +:+ suffix)
    else Some (show top +:+ suffix +:+ " " +:+ show right +:+ suffix +:+ " "
               +:+ show bottom +:+ suffix)
  else Some (show top +:+ suffix +:+ " " +:+ show right +:+ suffix +:+ " "
             +:+ show bottom +:+ suffix +:+ " " +:+ show left +:+ suffix).

(** How CSS reads a shorthand of one to four values: one value is for all
    sides, two are top/bottom and right/left, three are top, right/left and
    bottom, four are top, right, bottom and left. *)
Definition css_sides (parts : list num) : option Sides :=
  match parts with
  | [a] => Some (mkSides a a a a)
  | [a; b] => Some (mkSides a b a b)
  | [a; b; c] => Some (mkSides a b c b)
  | [a; b; c; d] => Some (mkSides a b c d)
  | _ => None
  end.

(** The text of a shorthand: the values with their unit, joined by spaces. *)
Fixpoint css_text (unit : string) (parts : list num) : string :=
  match parts with
  | [] => EmptyString
  | [a] => show a +:+ unit
  | a :: rest => show a +:+ unit +:+ " " +:+ css_text unit rest
  end.

(** Two numbers that a reader of the shorthand cannot tell apart. *)
Definition agree (a b : num) : Prop := a = b \/ same a b = true.

Definition sides_agree (s1 s2 : Sides) : Prop :=
  agree (top s1) (top s2) /\ agree (right s1) (right s2)
  /\ agree (bottom s1) (bottom s2) /\ agree (left s1) (left s2).

End shorthand.

(** *** [removeUnusedComponentsAndStyles]

    The node with the fields that the function reads. *)
#[local] Unset Elimination Schemes.
Inductive StyledNode : Type :=
  mkStyled (type : string) (componentId textStyle : option string)
    (children : option (list StyledNode)).
#[local] Set Elimination Schemes.

Definition type (n : StyledNode) : string :=
  match n with mkStyled t _ _ _ => t end.
Definition componentId (n : StyledNode) : option string :=
  match n with mkStyled _ c _ _ => c end.
Definition textStyle (n : StyledNode) : option string :=
  match n with mkStyled _ _ s _ => s end.
Definition children (n : StyledNode) : option (list StyledNode) :=
  match n with mkStyled _ _ _ c => c end.

Record SimplifiedComponentDefinition : Type := mkComponent {
  componentKey : string;
  componentSetId : option string;
}.

(** The dictionaries of the design given are plain objects: the lists hold
    their own members in the order of [for ... in]. *)
Record SimplifiedDesign : Type := mkDesign {
  designName : string;
  nodes : list StyledNode;
  components : list (string * SimplifiedComponentDefinition);
  componentSets : list (string * string);
  styles : list (string * string);
}.

(** The two sets that the walk over the nodes fills. *)
Record Used : Type := mkUsed {
  usedComponentIds : gset string;
  usedStyles : gset string;
}.

(** [if (x) set.add(x)]: a missing or empty string is not added. *)
Definition addIfTruthy (x : option string) (set : gset string) : gset string :=
  match x with
  | Some t => if String.eqb t EmptyString then set else {[ t ]} ∪ set
  | None => set
  end.

Fixpoint findUsedComponents (node : StyledNode) (used : Used) : Used :=
  let used1 :=
    if String.eqb (type node) "INSTANCE"
    then mkUsed (addIfTruthy (componentId node) (usedComponentIds used))
           (addIfTruthy (textStyle node) (usedStyles used))
    else used in
  match children node with
  | Some cs => fold_left (fun acc child => findUsedComponents child acc) cs used1
  | None => used1
  end.

(** [dictionary[key] = value] for a key that [dictionary], made by a
    literal, does not have yet: a new last member, and for the key
    [__proto__] no member. *)
Definition assign {V : Type} (dictionary : list (string * V))
    (entry : string * V) : list (string * V) :=
  if isProto entry.1 then dictionary else dictionary ++ [entry].

(** [for (const key in source) if (used.has(key)) target[key] = source[key]]
    for a new [target]. *)
Definition keepUsed {V : Type} (used : gset string) (source : list (string * V))
    : list (string * V) :=
  fold_left
    (fun target entry =>
       if bool_decide (entry.1 ∈ used) then assign target entry else target)
    source [].

Definition removeUnusedComponentsAndStyles (design : SimplifiedDesign)
    : SimplifiedDesign :=
  let used :=
    fold_left (fun acc node => findUsedComponents node acc) (nodes design)
      (mkUsed ∅ ∅) in
  let '(newComponents, usedComponentSets) :=
    fold_left
      (fun (acc : list (string * SimplifiedComponentDefinition) * gset string)
           entry =>
         if bool_decide (entry.1 ∈ usedComponentIds used)
         then (assign acc.1 entry, addIfTruthy (componentSetId entry.2) acc.2)
         else acc)
      (components design) ([], ∅) in
  let newComponentSets := keepUsed usedComponentSets (componentSets design) in
  let newStyles := keepUsed (usedStyles used) (styles design) in
  mkDesign (designName design) (nodes design) newComponents newComponentSets
    newStyles.

(** The nodes of a forest, at any level. *)
Inductive inside : list StyledNode -> StyledNode -> Prop :=
  | inside_here nodes node : node ∈ nodes -> inside nodes node
  | inside_below nodes node cs below :
      node ∈ nodes -> children node = Some cs -> inside cs below ->
      inside nodes below.

(** An INSTANCE node whose [field] is the non-empty string [k]. *)
Definition instanceWith (field : StyledNode -> option string)
    (nodes : list StyledNode) (k : string) : Prop :=
  exists node,
    inside nodes node /\ type node = "INSTANCE" /\ field node = Some k
    /\ k <> EmptyString.

(** What a walk over [nodes] adds to the two sets. *)
Definition collects (nodes : list StyledNode) (before after : Used) : Prop :=
  (forall k, k ∈ usedComponentIds after
             <-> k ∈ usedComponentIds before \/ instanceWith componentId nodes k)
  /\ (forall k, k ∈ usedStyles after
               <-> k ∈ usedStyles before \/ instanceWith textStyle nodes k).

End Common.

(** ** Sample data (the fixtures of the cache's test suite) *)

Module Samples.
Import Tree Cache.

Definition leaf (id name type : string) : SimplifiedNode := mkNode id name type None.

Definition mockNode1 : SimplifiedNode :=
  mkNode "node-1" "Test Node 1" "FRAME"
    (Some [ mkNode "child-1" "Child Node 1" "RECTANGLE"
              (Some [ leaf "grandchild-1" "Grandchild Node 1" "TEXT";
                      leaf "grandchild-2" "Grandchild Node 2" "VECTOR" ]);
            leaf "child-2" "Child Node 2" "TEXT" ]).

Definition mockNode2 : SimplifiedNode :=
  mkNode "node-2" "Test Node 2" "COMPONENT"
    (Some [ leaf "child-3" "Child Node 3" "RECTANGLE" ]).

Definition mockNode3 : SimplifiedNode := leaf "node-3" "Test Node 3" "INSTANCE".

Definition mockShallowNode1 : SimplifiedNode :=
  mkNode "node-1" "Test Node 1" "FRAME"
    (Some [ leaf "child-1" "Child Node 1" "RECTANGLE";
            leaf "child-2" "Child Node 2" "TEXT" ]).

Definition design (name lastModified : string) (nodes : list SimplifiedNode)
    : SimplifiedDesign :=
  mkDesign name lastModified "https://example.com/thumb.png" nodes "{}" "{}" "{}".

Definition mockDesign1 : SimplifiedDesign :=
  design "Test Design 1" "2023-01-01T10:00:00Z" [mockNode1].
Definition mockDesign2 : SimplifiedDesign :=
  design "Test Design 2" "2023-01-01T11:00:00Z" [mockNode2].
Definition mockShallowDesign1 : SimplifiedDesign :=
  design "Test Design 1 Shallow" "2023-01-01T10:00:00Z" [mockShallowNode1].
Definition mockMultiNodeDesign : SimplifiedDesign :=
  design "Multi Node Design" "2023-01-01T13:00:00Z" [mockNode1; mockNode2; mockNode3].

Definition stamp : option string := Some "2023-01-01T10:00:00Z".

(** A cache holding the given entries, put in order into a fresh cache of
    capacity 10. *)
Definition cacheOf (entries : list (string * SimplifiedDesign)) : State :=
  fold_left (fun s e => (put e.1 e.2 stamp s).2) entries (create 10).

(** One shallow snapshot fetched with depth 1. *)
Definition shallowCache : State := cacheOf [("file1:node-1:1", mockShallowDesign1)].

(** The deep snapshot of node-1 and a snapshot of several roots. *)
Definition twoViews : State :=
  cacheOf [("file1:node-1:default", mockDesign1);
           ("file1:multi:default", mockMultiNodeDesign)].

(** Entries of two files. *)
Definition twoFiles : State :=
  cacheOf [("file1:node-1:default", mockDesign1);
           ("file1:node-2:default", mockDesign2);
           ("file2:node-3:default", design "Test Design 3" "2023-01-01T12:00:00Z" [mockNode3])].

(** The remote file was touched after the snapshots were stored. *)
Definition touchedSince : CacheValidationParams :=
  mkParams "file1" (fun _ => Fulfilled (mkMeta (Some "2023-01-01T14:00:00Z"))).

Definition unreachable : CacheValidationParams :=
  mkParams "file1" (fun _ => Rejected).


Definition library : Service.Remote :=
  Service.mkRemote (fun _ _ _ _ => Fulfilled mockMultiNodeDesign)
    (fun _ => Fulfilled (mkMeta None)).

Definition freshService : Service.ServiceState :=
  Service.mkService (create 10) [].

(** A short history on a store of numbers. *)
Definition demo_ops : list (LRU.op string nat) :=
  [LRU.Put "a" 1%nat; LRU.Put "b" 2%nat; LRU.Get "a"].

End Samples.

(** * Properties *)

(** ** Node-tree utilities *)

Module TreeFacts.
Import Tree.

(** Induction over a node and, through [Forall], over its children. *)
Lemma SimplifiedNode_ind (P : SimplifiedNode -> Prop) :
  (forall i n t, P (mkNode i n t None)) ->
  (forall i n t cs, Forall P cs -> P (mkNode i n t (Some cs))) ->
  forall node, P node.
Proof.
  intros Hleaf Hnode.
  fix IH 1. intros [i n t [cs|]]; [|apply Hleaf].
  apply Hnode. induction cs as [|c cs IHcs]; constructor; [apply IH | exact IHcs].
Qed.

Lemma fold_left_max_le (l : list Z) (x b : Z) :
  fold_left Z.max l x <= b <-> x <= b /\ Forall (fun y => y <= b) l.
Proof.
  revert x. induction l as [|y l IH]; intros x; simpl.
  - split; [intros H; split; [exact H | constructor] | tauto].
  - rewrite IH, Forall_cons. split.
    + intros [Hm Hl]. repeat split; [lia | lia | exact Hl].
    + intros [Hx [Hy Hl]]. split; [lia | exact Hl].
Qed.

Lemma fold_left_max_ge_init (l : list Z) (x : Z) : x <= fold_left Z.max l x.
Proof.
  pose proof (proj1 (fold_left_max_le l x (fold_left Z.max l x)) (Z.le_refl _)).
  tauto.
Qed.

Lemma fold_left_max_ge_elem (l : list Z) (x y : Z) :
  y ∈ l -> y <= fold_left Z.max l x.
Proof.
  intros Hy.
  pose proof (proj1 (fold_left_max_le l x (fold_left Z.max l x)) (Z.le_refl _))
    as [_ Hall].
  rewrite Forall_forall in Hall. auto.
Qed.

Lemma getNodeDepth_cons i n t c cs :
  getNodeDepth (mkNode i n t (Some (c :: cs)))
  = 1 + fold_left Z.max (map getNodeDepth cs) (getNodeDepth c).
Proof. reflexivity. Qed.

Lemma getNodeDepth_nonneg node : 0 <= getNodeDepth node.
Proof.
  induction node as [i n t|i n t cs IH] using SimplifiedNode_ind; [simpl; lia|].
  destruct cs as [|c cs]; [simpl; lia|].
  rewrite getNodeDepth_cons. inversion IH as [|? ? Hc Hcs]; subst.
  pose proof (fold_left_max_ge_init (map getNodeDepth cs) (getNodeDepth c)). lia.
Qed.

(** A node is at most [b] deep when each child is at most [b - 1] deep. *)
Lemma getNodeDepth_le i n t cs b :
  0 <= b ->
  Forall (fun c => getNodeDepth c <= b - 1) cs ->
  getNodeDepth (mkNode i n t (Some cs)) <= b.
Proof.
  intros Hb Hall. destruct cs as [|c cs]; [simpl; lia|].
  rewrite getNodeDepth_cons. inversion Hall as [|? ? Hc Hcs]; subst.
  cut (fold_left Z.max (map getNodeDepth cs) (getNodeDepth c) <= b - 1); [lia|].
  apply fold_left_max_le. split; [exact Hc|].
  rewrite Forall_map. exact Hcs.
Qed.

Lemma limitNodeDepth_cut node d :
  d <= 0 -> limitNodeDepth node d = mkNode (id node) (name node) (type node) None.
Proof.
  intros Hd. destruct node as [i n t cs]; simpl.
  destruct (Z.leb_spec d 0); [reflexivity | lia].
Qed.

Lemma limitNodeDepth_keep i n t c cs d :
  0 < d ->
  limitNodeDepth (mkNode i n t (Some (c :: cs))) d
  = mkNode i n t (Some (map (fun child => limitNodeDepth child (d - 1)) (c :: cs))).
Proof.
  intros Hd. simpl. destruct (Z.leb_spec d 0); [lia | reflexivity].
Qed.

Lemma limitNodeDepth_childless i n t cs d :
  0 < d -> cs = None \/ cs = Some [] ->
  limitNodeDepth (mkNode i n t cs) d = mkNode i n t cs.
Proof.
  intros Hd [-> | ->]; simpl; destruct (Z.leb_spec d 0); (lia || reflexivity).
Qed.

Lemma limitNodeDepth_depth node d :
  0 <= d -> getNodeDepth (limitNodeDepth node d) <= d.
Proof.
  revert d.
  induction node as [i n t|i n t cs IH] using SimplifiedNode_ind; intros d Hd.
  - destruct (Z.leb_spec d 0) as [H0|H0].
    + rewrite limitNodeDepth_cut by lia. simpl. lia.
    + rewrite limitNodeDepth_childless by auto. simpl. lia.
  - destruct (Z.leb_spec d 0) as [H0|H0].
    + rewrite limitNodeDepth_cut by lia. simpl. lia.
    + destruct cs as [|c cs].
      * rewrite limitNodeDepth_childless by auto. simpl. lia.
      * rewrite limitNodeDepth_keep by lia.
        apply getNodeDepth_le; [lia|].
        rewrite Forall_map. eapply Forall_impl; [exact IH|].
        intros x Hx. apply Hx. lia.
Qed.

Lemma limitNodeDepth_fields node d :
  id (limitNodeDepth node d) = id node
  /\ name (limitNodeDepth node d) = name node
  /\ type (limitNodeDepth node d) = type node.
Proof.
  destruct node as [i n t [[|c cs]|]]; simpl; destruct (d <=? 0); auto.
Qed.


(** Every node kept by [limitNodeDepth] is the limited copy of the node at
    the same place in the input. *)
Lemma subnode_limit (cs : list SimplifiedNode) (d : Z) (path : list nat) m' :
  subnode (map (fun c => limitNodeDepth c d) cs) path = Some m' ->
  exists m, subnode cs path = Some m
            /\ m' = limitNodeDepth m (d + 1 - Z.of_nat (length path)).
Proof.
  revert cs d. induction path as [|i rest IH]; intros cs d; [done|].
  cbn [subnode]. rewrite nth_error_map.
  destruct (nth_error cs i) as [n|]; [|done]. cbn [option_map].
  destruct rest as [|j rest].
  - intros [= <-]. exists n. split; [done|]. f_equal. simpl. lia.
  - destruct n as [i0 n0 t0 kids].
    destruct (Z.leb_spec d 0) as [Hd|Hd].
    { rewrite limitNodeDepth_cut by done. done. }
    destruct kids as [[|c kids]|].
    + rewrite limitNodeDepth_childless by auto. cbn [children].
      cbn [subnode nth_error]. by destruct j.
    + rewrite limitNodeDepth_keep by done. cbn [children].
      intros Hsub. apply IH in Hsub as (m & Hm & ->).
      exists m. split; [done|]. f_equal. cbn [length]. lia.
    + rewrite limitNodeDepth_childless by auto. done.
Qed.

Lemma located_at_forest targetId (nodes : list SimplifiedNode) :
  Forall (fun n => forall cur, 0 <= cur -> located_at targetId [n] cur) nodes ->
  forall cur, 0 <= cur -> located_at targetId nodes cur.
Proof.
  induction 1 as [|n nodes Hn Hall IH]; intros cur Hcur; [done|].
  specialize (Hn cur Hcur). specialize (IH cur Hcur).
  unfold located_at in *. cbn [for_of] in *.
  destruct (findNode_in targetId n) as [node|].
  - destruct Hn as (Hid & path & Hsub & Hne & Hdepth).
    split; [done|]. exists path. split; [|split; [done|]].
    + destruct path as [|[|i] rest]; [done| |].
      * exact Hsub.
      * cbn [subnode nth_error] in Hsub. by destruct i.
    + by destruct (depthFromRoot_in targetId cur n).
  - destruct (depthFromRoot_in targetId cur n); [done|].
    destruct (for_of (findNode_in targetId) nodes) as [node|]; [|done].
    destruct IH as (Hid & path & Hsub & Hne & Hdepth).
    split; [done|]. destruct path as [|i rest]; [done|].
    exists (S i :: rest). split; [exact Hsub|]. split; [done|].
    rewrite Hdepth. done.
Qed.

Lemma located_at_node targetId (n : SimplifiedNode) cur :
  0 <= cur -> located_at targetId [n] cur.
Proof.
  revert cur.
  induction n as [i nm ty|i nm ty cs IH] using SimplifiedNode_ind; intros cur Hcur.
  - unfold located_at. cbn. destruct (String.eqb i targetId) eqn:E; [|done].
    apply String.eqb_eq in E. split; [done|].
    exists [0%nat]. repeat split; [done|]. f_equal. simpl. lia.
  - pose proof (located_at_forest targetId cs IH (cur + 1) ltac:(lia)) as Hcs.
    unfold located_at in *. cbn [for_of findNode_in depthFromRoot_in id children].
    destruct (String.eqb i targetId) eqn:E.
    + apply String.eqb_eq in E. split; [done|].
      exists [0%nat]. repeat split; [done|]. f_equal. simpl. lia.
    + destruct (for_of (findNode_in targetId) cs) as [node|].
      * destruct Hcs as (Hid & path & Hsub & Hne & Hdepth).
        split; [done|]. exists (0%nat :: path).
        split; [cbn [subnode nth_error children]; by destruct path|].
        split; [done|].
        rewrite Hdepth. cbn [from_option Datatypes.id].
        destruct (Z.eqb_spec (cur + 1 + Z.of_nat (length path) - 1) (-1)) as [Hm|_]; [lia|].
        cbn [negb]. f_equal. cbn [length]. lia.
      * rewrite Hcs. done.
Qed.

Lemma findNodeInTree_depth (nodes : list SimplifiedNode) targetId :
  match findNodeInTree nodes targetId with
  | Some node =>
      id node = targetId
      /\ exists path,
           subnode nodes path = Some node
           /\ path <> []
           /\ getNodeDepthFromRoot nodes targetId 0 = Z.of_nat (length path) - 1
  | None => getNodeDepthFromRoot nodes targetId 0 = -1
  end.
Proof.
  assert (located_at targetId nodes 0) as H.
  { apply located_at_forest; [|lia].
    apply Forall_forall. intros n _ cur Hcur. by apply located_at_node. }
  unfold located_at, findNodeInTree, getNodeDepthFromRoot in *.
  destruct (for_of (findNode_in targetId) nodes) as [node|].
  - destruct H as (Hid & path & Hsub & Hne & Hdepth).
    split; [done|]. exists path. repeat split; [done | done|]. by rewrite Hdepth.
  - by rewrite H.
Qed.

Lemma getNodeDepthFromRoot_nonneg (nodes : list SimplifiedNode) targetId node :
  findNodeInTree nodes targetId = Some node ->
  0 <= getNodeDepthFromRoot nodes targetId 0.
Proof.
  intros Hfind. pose proof (findNodeInTree_depth nodes targetId) as H.
  rewrite Hfind in H. destruct H as (_ & path & _ & Hne & ->).
  destruct path; [done|]. simpl. lia.
Qed.

(** C3 (as amended).  For every node and every [d >= 0] the limited copy is
    at most [d] deep; for every [d <= 0] it has no [children] property (so
    its depth is 0, which for a negative [d] is more than [d]); and every node
    the copy retains sits where a node of the input sits and has its id, name
    and type. *)
Theorem limitNodeDepth_truncates node d :
  (0 <= d -> getNodeDepth (limitNodeDepth node d) <= d)
  /\ (d <= 0 -> children (limitNodeDepth node d) = None)
  /\ (forall path kept,
        subnode [limitNodeDepth node d] path = Some kept ->
        exists original,
          subnode [node] path = Some original
          /\ id kept = id original
          /\ name kept = name original
          /\ type kept = type original).
Proof.
  split; [apply limitNodeDepth_depth|]. split.
  - intros Hd. by rewrite limitNodeDepth_cut.
  - intros path kept Hsub.
    apply (subnode_limit [node] d path kept) in Hsub as (m & Hm & ->).
    exists m. split; [done|]. apply limitNodeDepth_fields.
Qed.

Lemma limitNodeDepth_truncates_witness :
  getNodeDepth (limitNodeDepth Samples.mockNode1 1) <= 1.
Proof.
  apply (limitNodeDepth_truncates Samples.mockNode1 1). lia.
Defined.

(** A negative limit cannot bound the depth: the copy of a leaf is 0 deep. *)
Lemma limitNodeDepth_negative_limit :
  ~ (forall node d, getNodeDepth (limitNodeDepth node d) <= d).
Proof.
  intros H. specialize (H Samples.mockNode3 (-1)). vm_compute in H. by apply H.
Qed.

End TreeFacts.

(** ** The eviction store *)

Module LRUFacts.
Import LRU.
Section facts.
Context {K : Type} `{EqDecision K} {V : Type}.
Implicit Types (c : LRUCache K V) (m : list (K * V)) (k key : K) (t : Timed K V).

Lemma Map_get_None key m : Map_get key m = None <-> key ∉ m.*1.
Proof.
  induction m as [|[k v] m IH]; simpl.
  - split; [intros _; apply not_elem_of_nil | done].
  - rewrite not_elem_of_cons. destruct (decide (k = key)) as [->|Hne].
    + split; [done | intros [Hk _]; done].
    + rewrite IH. split; [intros Hm; split; [congruence | done] | tauto].
Qed.

Lemma Map_get_is_Some key m : is_Some (Map_get key m) <-> key ∈ m.*1.
Proof.
  destruct (Map_get key m) as [v|] eqn:E.
  - split; [intros _ | eauto].
    destruct (decide (key ∈ m.*1)) as [Hin|Hnin]; [done|].
    apply Map_get_None in Hnin. congruence.
  - apply Map_get_None in E. split; [intros [? ?]; done | done].
Qed.

Lemma Map_set_keys_old key value m :
  key ∈ m.*1 -> (Map_set key value m).*1 = m.*1.
Proof.
  induction m as [|[k v] m IH]; simpl; intros Hin.
  - by apply elem_of_nil in Hin.
  - destruct (decide (k = key)) as [->|Hne]; [done|].
    simpl. f_equal. apply IH. apply elem_of_cons in Hin as [?|?]; [congruence | done].
Qed.

Lemma Map_set_keys_new key value m :
  key ∉ m.*1 -> (Map_set key value m).*1 = m.*1 ++ [key].
Proof.
  induction m as [|[k v] m IH]; simpl; intros Hnin; [done|].
  apply not_elem_of_cons in Hnin as [Hne Hnin].
  destruct (decide (k = key)) as [->|_]; [done|].
  simpl. f_equal. by apply IH.
Qed.

Lemma Map_delete_keys key m :
  (Map_delete key m).*1 = filter (fun k => k <> key) m.*1.
Proof.
  unfold Map_delete. induction m as [|[k v] m IH]; [done|].
  rewrite fmap_cons. simpl fst.
  destruct (decide (k <> key)) as [Hne|Heq].
  - rewrite !filter_cons_True by done. rewrite fmap_cons. simpl. by f_equal.
  - rewrite !filter_cons_False by done. done.
Qed.

Lemma length_filter_ne key (l : list K) :
  NoDup l -> key ∈ l -> S (length (filter (fun k => k <> key) l)) = length l.
Proof.
  induction 1 as [|x l Hx Hnd IH]; intros Hin.
  - by apply elem_of_nil in Hin.
  - destruct (decide (x = key)) as [->|Hne].
    + rewrite filter_cons_False by (intros Hc; by apply Hc).
      simpl. f_equal.
      assert (filter (fun k => k <> key) l = l) as ->; [|done].
      clear IH Hin Hnd. induction l as [|y l IHl]; [done|].
      apply not_elem_of_cons in Hx as [Hy Hl].
      rewrite filter_cons_True by congruence. f_equal. by apply IHl.
    + rewrite filter_cons_True by done. simpl. f_equal. apply IH.
      apply elem_of_cons in Hin as [?|?]; [congruence | done].
Qed.

Lemma sorted_NoDup at_ (l : list K) :
  StronglySorted (newer at_) l -> NoDup l.
Proof.
  induction 1 as [|x l Hs IH Hall]; constructor; [|done].
  intros Hin. rewrite Forall_forall in Hall. specialize (Hall _ Hin).
  unfold newer in Hall. lia.
Qed.

Lemma sorted_filter at_ (P : K -> Prop) `{forall k, Decision (P k)} (l : list K) :
  StronglySorted (newer at_) l -> StronglySorted (newer at_) (filter P l).
Proof.
  induction 1 as [|x l Hs IH Hall]; [constructor|].
  destruct (decide (P x)).
  - rewrite filter_cons_True by done. constructor; [done|].
    rewrite Forall_forall in Hall |- *. intros y Hy.
    apply list_elem_of_filter in Hy as [_ Hy]. auto.
  - by rewrite filter_cons_False.
Qed.

Lemma sorted_ext at_ at' (l : list K) :
  (forall k, k ∈ l -> at' k = at_ k) ->
  StronglySorted (newer at_) l -> StronglySorted (newer at') l.
Proof.
  intros Hext Hs. induction Hs as [|x l Hs IH Hall]; constructor.
  - apply IH. intros k Hk. apply Hext. by apply elem_of_cons; right.
  - rewrite Forall_forall in Hall |- *. intros y Hy. unfold newer.
    rewrite !Hext by (apply elem_of_cons; auto). by apply Hall.
Qed.

(** The last node of the chain is the one touched longest ago. *)
Lemma sorted_last_oldest at_ (l : list K) victim k :
  StronglySorted (newer at_) l -> last l = Some victim ->
  k ∈ l -> k <> victim -> (at_ victim < at_ k)%nat.
Proof.
  intros Hs Hlast Hk Hne.
  apply last_Some in Hlast as [l' ->].
  apply elem_of_app in Hk as [Hk|Hk].
  - eapply (StronglySorted_app_1_elem_of (newer at_) l' [victim] k victim); eauto.
    by apply list_elem_of_singleton.
  - apply list_elem_of_singleton in Hk. done.
Qed.

Lemma moveToFront_chain key c :
  NoDup (chain c) ->
  chain (moveToFront key c) = key :: filter (fun k => k <> key) (chain c).
Proof.
  intros Hnd. unfold moveToFront, head.
  destruct (decide (List.head (chain c) = Some key)) as [Hh|Hh]; [|done].
  destruct (chain c) as [|x l] eqn:E; [done|]. simpl in Hh.
  injection Hh as ->. f_equal.
  rewrite filter_cons_False by (intros Hc; by apply Hc).
  apply NoDup_cons in Hnd as [Hx _].
  clear E. induction l as [|y l IHl]; [done|].
  apply not_elem_of_cons in Hx as [Hy Hl].
  rewrite filter_cons_True by congruence. f_equal. by apply IHl.
Qed.

Lemma moveToFront_cache key c : cache (moveToFront key c) = cache c.
Proof. unfold moveToFront. by destruct (decide _). Qed.

Lemma moveToFront_capacity key c : capacity (moveToFront key c) = capacity c.
Proof. unfold moveToFront. by destruct (decide _). Qed.

(** A store whose chain is [key] in front of nodes touched earlier is well
    formed once [key] is stamped with the current time. *)
Lemma wf_front t key c' (l : list K) :
  StronglySorted (newer (touchedAt t)) l ->
  (forall k, k ∈ l -> (touchedAt t k < now t)%nat) ->
  key ∉ l ->
  chain c' = key :: l ->
  NoDup (cache c').*1 ->
  (forall k, k ∈ key :: l <-> k ∈ (cache c').*1) ->
  wf (mkTimed c' (S (now t))
        (fun k => if decide (k = key) then now t else touchedAt t k)).
Proof.
  intros Hs Hpast Hnin Hchain Hnd Hsame.
  constructor; simpl; rewrite ?Hchain; [done | done | |].
  - constructor.
    + apply (sorted_ext (touchedAt t)); [|done].
      intros k Hk. destruct (decide (k = key)) as [->|]; [done | done].
    + rewrite Forall_forall. intros y Hy. unfold newer.
      destruct (decide (key = key)) as [_|]; [|done].
      destruct (decide (y = key)) as [->|]; [done|]. by apply Hpast.
  - intros k Hk. destruct (decide (k = key)); [lia|].
    apply elem_of_cons in Hk as [?|Hk]; [done|].
    specialize (Hpast _ Hk). lia.
Qed.

(** A store whose chain keeps some of the nodes, in their order, stays well
    formed when no key is stamped. *)
Lemma wf_keep t c' :
  StronglySorted (newer (touchedAt t)) (chain c') ->
  (forall k, k ∈ chain c' -> k ∈ chain (lru t)) ->
  NoDup (cache c').*1 ->
  (forall k, k ∈ chain c' <-> k ∈ (cache c').*1) ->
  wf t ->
  wf (mkTimed c' (S (now t)) (touchedAt t)).
Proof.
  intros Hs Hsub Hnd Hsame Hwf. constructor; simpl; [done | done | done |].
  intros k Hk. pose proof (wf_past _ Hwf k (Hsub _ Hk)). lia.
Qed.

Lemma filter_ne_sub key (l : list K) k :
  k ∈ filter (fun x => x <> key) l <-> k <> key /\ k ∈ l.
Proof. exact (list_elem_of_filter (fun x => x <> key) l k). Qed.

Lemma wf_touch_present t key c' :
  wf t ->
  key ∈ (cache (lru t)).*1 ->
  (cache c').*1 = (cache (lru t)).*1 ->
  chain c' = key :: filter (fun k => k <> key) (chain (lru t)) ->
  wf (mkTimed c' (S (now t))
        (fun k => if decide (k = key) then now t else touchedAt t k)).
Proof.
  intros Hwf Hin Hkeys Hchain.
  apply (wf_front t key c' (filter (fun k => k <> key) (chain (lru t)))).
  - apply sorted_filter, Hwf.
  - intros k Hk. apply filter_ne_sub in Hk as [_ Hk]. by apply Hwf.
  - intros Hk. apply filter_ne_sub in Hk as [Hk _]. done.
  - done.
  - rewrite Hkeys. apply Hwf.
  - intros k. rewrite Hkeys, elem_of_cons, filter_ne_sub, (wf_same _ Hwf).
    split; [intros [->|[_ ?]]; done|].
    intros Hk. destruct (decide (k = key)); [by left | by right].
Qed.

Lemma wf_init (n : Z) : wf (mkTimed (K:=K) (V:=V) (new n) 0 (fun _ => 0%nat)).
Proof.
  constructor; simpl; [constructor | done | constructor |].
  intros k Hk. by apply elem_of_nil in Hk.
Qed.

Lemma wf_step t o : wf t -> wf (timed_step t o).
Proof.
  intros Hwf. pose proof (sorted_NoDup _ _ (wf_sorted _ Hwf)) as Hnd.
  destruct t as [c n at_]. simpl in *.
  destruct o as [key|key value|key|]; unfold timed_step; simpl.
  - (* get *)
    unfold get, has.
    destruct (Map_get key (cache c)) as [v|] eqn:E; simpl.
    + apply (wf_touch_present (mkTimed c n at_)); simpl; [done | | |].
      * apply Map_get_is_Some. eauto.
      * by rewrite moveToFront_cache.
      * by apply moveToFront_chain.
    + apply (wf_keep (mkTimed c n at_)); simpl; try done; apply Hwf.
  - (* put *)
    unfold put.
    destruct (Map_get key (cache c)) as [v|] eqn:E.
    + assert (key ∈ (cache c).*1) as Hin by (apply Map_get_is_Some; eauto).
      apply (wf_touch_present (mkTimed c n at_)); simpl; [done | done | |].
      * rewrite moveToFront_cache. simpl. by apply Map_set_keys_old.
      * by rewrite moveToFront_chain.
    + apply Map_get_None in E.
      set (c1 := if size c >=? capacity c then _ else c).
      assert (StronglySorted (newer at_) (chain c1)
              /\ (forall k, k ∈ chain c1 -> k ∈ chain c)
              /\ NoDup (cache c1).*1
              /\ (forall k, k ∈ chain c1 <-> k ∈ (cache c1).*1)
              /\ (forall k, k ∈ (cache c1).*1 -> k ∈ (cache c).*1)) as (Hs1 & Hsub1 & Hnd1 & Hsame1 & Hk1).
      { subst c1. destruct (size c >=? capacity c); [|by repeat split; try apply Hwf].
        unfold tail. destruct (last (chain c)) as [victim|]; [|by repeat split; try apply Hwf].
        simpl. rewrite Map_delete_keys. repeat split.
        - apply sorted_filter, Hwf.
        - intros k Hk. by apply filter_ne_sub in Hk as [_ Hk].
        - apply NoDup_filter, Hwf.
        - rewrite !filter_ne_sub, (wf_same _ Hwf). done.
        - rewrite !filter_ne_sub, (wf_same _ Hwf). done.
        - intros k Hk. by apply filter_ne_sub in Hk as [_ Hk]. }
      assert (key ∉ (cache c1).*1) as Hnin1 by (intros Hc; apply E; auto).
      apply (wf_front (mkTimed c n at_) key _ (chain c1)); simpl; try done.
      * intros k Hk. apply (wf_past _ Hwf). simpl. auto.
      * by rewrite Hsame1.
      * rewrite Map_set_keys_new by done. apply NoDup_app. repeat split; [done | |apply NoDup_singleton].
        intros k Hk Hk'. apply list_elem_of_singleton in Hk'. by subst.
      * intros k. rewrite Map_set_keys_new by done.
        rewrite elem_of_cons, elem_of_app, list_elem_of_singleton, Hsame1. tauto.
  - (* delete *)
    unfold delete. destruct (Map_get key (cache c)) as [v|] eqn:E; simpl.
    + apply (wf_keep (mkTimed c n at_)); simpl; try done.
      * apply sorted_filter, Hwf.
      * intros k Hk. by apply filter_ne_sub in Hk as [_ Hk].
      * rewrite Map_delete_keys. apply NoDup_filter, Hwf.
      * intros k. rewrite Map_delete_keys, !filter_ne_sub, (wf_same _ Hwf). done.
    + apply (wf_keep (mkTimed c n at_)); simpl; try done; apply Hwf.
  - (* clear *)
    apply (wf_keep (mkTimed c n at_)); simpl; try done; try constructor.
    intros k Hk. by apply elem_of_nil in Hk.
Qed.

Lemma wf_timed_run (n : Z) (ops : list (op K V)) : wf (timed_run n ops).
Proof.
  unfold timed_run. generalize (wf_init n).
  generalize (mkTimed (V:=V) (new n) 0 (fun _ : K => 0%nat)).
  induction ops as [|o ops IH]; intros t Hwf; simpl; [done|].
  apply IH. by apply wf_step.
Qed.

Lemma timed_run_lru (n : Z) (ops : list (op K V)) :
  lru (timed_run n ops) = run n ops.
Proof.
  unfold timed_run, run.
  change (new n) with (lru (mkTimed (V:=V) (new n) 0 (fun _ : K => 0%nat))) at 2.
  generalize (mkTimed (V:=V) (new n) 0 (fun _ : K => 0%nat)).
  induction ops as [|o ops IH]; intros t; simpl; [done|].
  by rewrite IH.
Qed.

Lemma has_true key c : has key c = true <-> key ∈ (cache c).*1.
Proof. unfold has. rewrite bool_decide_eq_true. apply Map_get_is_Some. Qed.

Lemma has_false key c : has key c = false <-> key ∉ (cache c).*1.
Proof. unfold has. rewrite bool_decide_eq_false, Map_get_is_Some. done. Qed.

Lemma size_keys c : size c = Z.of_nat (length (cache c).*1).
Proof. unfold size. by rewrite length_fmap. Qed.

Lemma step_capacity o c : capacity (step o c) = capacity c.
Proof.
  destruct o as [key|key value|key|]; simpl; [| | |done].
  - unfold get. destruct (Map_get key (cache c)); simpl; [apply moveToFront_capacity | done].
  - unfold put. destruct (Map_get key (cache c)); [by rewrite moveToFront_capacity|].
    simpl. destruct (size c >=? capacity c); [|done].
    by destruct (tail c).
  - unfold delete. by destruct (Map_get key (cache c)).
Qed.

(** What [put] does with a new key when the store is full and not empty. *)
Lemma put_full key value c victim :
  Map_get key (cache c) = None ->
  capacity c <= size c ->
  tail c = Some victim ->
  put key value c =
    mkLRU (capacity c)
      (Map_set key value (Map_delete victim (cache c)))
      (key :: filter (fun k => k <> victim) (chain c)).
Proof.
  intros Hget Hfull Htail. unfold put. rewrite Hget.
  destruct (Z.geb_spec (size c) (capacity c)) as [_|Hlt]; [|lia].
  by rewrite Htail.
Qed.

(** No operation takes a well-formed store above its capacity, a store of
    capacity zero or less being able to hold one entry. *)
Lemma size_step t o :
  wf t ->
  size (lru t) <= Z.max (capacity (lru t)) 1 ->
  size (step o (lru t)) <= Z.max (capacity (lru t)) 1.
Proof.
  intros Hwf Hsize. destruct t as [c n at_]. simpl in *.
  destruct o as [key|key value|key|]; simpl.
  - unfold get. destruct (Map_get key (cache c)); simpl; [|done].
    unfold size. by rewrite moveToFront_cache.
  - unfold put. destruct (Map_get key (cache c)) as [v|] eqn:E.
    + rewrite size_keys, moveToFront_cache. simpl.
      rewrite Map_set_keys_old by (apply Map_get_is_Some; eauto).
      by rewrite <- size_keys.
    + apply Map_get_None in E.
      destruct (Z.geb_spec (size c) (capacity c)) as [Hfull|Hroom].
      * unfold tail. destruct (last (chain c)) as [victim|] eqn:Hlast; simpl.
        -- rewrite size_keys. simpl.
           rewrite Map_set_keys_new
             by (rewrite Map_delete_keys, filter_ne_sub; tauto).
           rewrite length_app, Map_delete_keys. simpl.
           assert (victim ∈ (cache c).*1) as Hv.
           { apply (wf_same _ Hwf). simpl. by apply last_Some_elem_of. }
           pose proof (length_filter_ne victim _ (wf_keys _ Hwf) Hv) as Hlen.
           simpl in Hlen. rewrite size_keys in Hsize. lia.
        -- apply last_None in Hlast.
           assert ((cache c).*1 = []) as Hnil.
           { destruct ((cache c).*1) as [|k l] eqn:Hk; [done|].
             assert (k ∈ chain c) as Hin
               by (apply (wf_same _ Hwf); simpl; rewrite Hk; apply elem_of_cons; auto).
             rewrite Hlast in Hin. by apply elem_of_nil in Hin. }
           rewrite size_keys. simpl. rewrite Map_set_keys_new by done.
           rewrite Hnil. simpl. lia.
      * rewrite size_keys. simpl. rewrite Map_set_keys_new by done.
        rewrite length_app. simpl. rewrite size_keys in Hroom. lia.
  - unfold delete. destruct (Map_get key (cache c)); simpl; [|done].
    rewrite size_keys. simpl. rewrite Map_delete_keys.
    pose proof (length_filter (fun k => k <> key) (cache c).*1).
    rewrite size_keys in Hsize. lia.
  - unfold size. simpl. lia.
Qed.

Lemma timed_run_snoc (n : Z) (ops : list (op K V)) o :
  timed_run n (ops ++ [o]) = timed_step (timed_run n ops) o.
Proof. unfold timed_run. by rewrite fold_left_app. Qed.

Lemma timed_run_capacity (n : Z) (ops : list (op K V)) :
  capacity (lru (timed_run n ops)) = n.
Proof.
  induction ops as [|o ops IH] using rev_ind; [done|].
  rewrite timed_run_snoc. simpl. by rewrite step_capacity.
Qed.

Lemma size_bound (n : Z) (ops : list (op K V)) :
  size (lru (timed_run n ops)) <= Z.max n 1.
Proof.
  induction ops as [|o ops IH] using rev_ind; [unfold size; simpl; lia|].
  rewrite timed_run_snoc. simpl.
  rewrite <- (timed_run_capacity n ops) at 2.
  apply size_step; [apply wf_timed_run|].
  by rewrite timed_run_capacity.
Qed.

(** C4 (as amended).  For every history of get, put, delete and clear on
    a store built with capacity [n >= 1]: the store never holds more than
    [n] entries, and a put of a new key into a store that holds [n]
    entries removes exactly one key, the one touched longest ago, where a
    put and a get that hits count as touches; all other keys stay. *)
Theorem lru_bounded_and_evicts_oldest (n : Z) (ops : list (op K V)) :
  1 <= n ->
  let t := timed_run n ops in
  lru t = run n ops
  /\ size (lru t) <= n
  /\ forall key value,
       has key (lru t) = false ->
       size (lru t) = n ->
       exists victim,
         has victim (lru t) = true
         /\ (forall k, has k (lru t) = true -> k <> victim ->
               (touchedAt t victim < touchedAt t k)%nat)
         /\ (forall k, has k (put key value (lru t)) = true
               <-> k = key \/ (k <> victim /\ has k (lru t) = true)).
Proof.
  intros Hn t. pose proof (wf_timed_run n ops) as Hwf. fold t in Hwf.
  split; [apply timed_run_lru|].
  split; [pose proof (size_bound n ops); fold t in H; lia|].
  intros key value Hnew Hfull.
  assert (capacity (lru t) = n) as Hcap by apply timed_run_capacity.
  destruct (tail (lru t)) as [victim|] eqn:Htail; cycle 1.
  { apply last_None in Htail.
    assert ((cache (lru t)).*1 = []) as Hnil.
    { destruct ((cache (lru t)).*1) as [|k l] eqn:Hk; [done|].
      assert (k ∈ chain (lru t)) as Hin
        by (apply (wf_same _ Hwf); rewrite Hk; apply elem_of_cons; auto).
      rewrite Htail in Hin. by apply elem_of_nil in Hin. }
    rewrite size_keys, Hnil in Hfull. simpl in Hfull. lia. }
  exists victim.
  assert (victim ∈ chain (lru t)) as Hvin by (by apply last_Some_elem_of).
  split; [apply has_true, (wf_same _ Hwf), Hvin|].
  split.
  - intros k Hk Hne. apply has_true, (wf_same _ Hwf) in Hk.
    exact (sorted_last_oldest _ _ _ _ (wf_sorted _ Hwf) Htail Hk Hne).
  - intros k. apply has_false in Hnew.
    rewrite (put_full key value (lru t) victim); [| by apply Map_get_None | lia | done].
    rewrite !has_true. simpl.
    rewrite Map_set_keys_new by (rewrite Map_delete_keys, filter_ne_sub; tauto).
    rewrite elem_of_app, list_elem_of_singleton, Map_delete_keys, filter_ne_sub.
    tauto.
Qed.
End facts.

Lemma lru_bounded_and_evicts_oldest_witness :
  size (lru (timed_run 2 Samples.demo_ops)) <= 2.
Proof.
  apply (lru_bounded_and_evicts_oldest 2 Samples.demo_ops). lia.
Defined.

(** With capacity 0 the first put finds no tail to evict and the store
    holds one entry. *)
Lemma lru_capacity_zero_exceeded :
  ~ (forall (n : Z) (ops : list (op string nat)), size (run n ops) <= n).
Proof.
  intros H. specialize (H 0 [Put "a" 1%nat]). vm_compute in H. by apply H.
Qed.

(** The victim after [put a; put b; get a; put c] with capacity 2 is [b]. *)
Example lru_get_refreshes :
  (run 2 (Samples.demo_ops ++ [Put "c" 3%nat])).(cache).*1 = ["a"; "c"].
Proof. reflexivity. Qed.
End LRUFacts.

(** ** The depth-aware cache *)

Module CacheFacts.
Import Tree Key Cache TreeFacts.

Implicit Types (c : LRU.LRUCache string CacheItem) (s : State).

Lemma state_eta s : mkState (store s) (metaCalls s) = s.
Proof. by destruct s. Qed.

(** The scan of [findNodeInCache] stops at the first entry that yields a
    result. *)
Lemma findNodeInCache_for_of c fileKey nodeId requiredDepth :
  findNodeInCache c fileKey nodeId requiredDepth
  = for_of (fun e => findNodeInCache_entry fileKey nodeId requiredDepth e.2 e.1)
      (LRU.cache c).
Proof.
  unfold findNodeInCache, LRU.forEach.
  assert (forall l r,
    fold_left (fun a (e : string * CacheItem) =>
      match a with
      | Some _ => a
      | None => findNodeInCache_entry fileKey nodeId requiredDepth e.2 e.1
      end) l (Some r) = Some r) as Hsticky.
  { induction l as [|e l IH]; intros r; [done | apply IH]. }
  induction (LRU.cache c) as [|e l IH]; [done|].
  simpl. destruct (findNodeInCache_entry _ _ _ _ _) as [r|]; [apply Hsticky | apply IH].
Qed.

Lemma for_of_None {A R : Type} (body : A -> option R) (l : list A) :
  for_of body l = None <-> forall x, x ∈ l -> body x = None.
Proof.
  induction l as [|x l IH]; simpl.
  - split; [intros _ y Hy; by apply elem_of_nil in Hy | done].
  - destruct (body x) as [r|] eqn:E.
    + split; [done|]. intros H. specialize (H x). rewrite E in H.
      apply H, elem_of_cons. by left.
    + rewrite IH. split.
      * intros H y Hy. apply elem_of_cons in Hy as [->|Hy]; auto.
      * intros H y Hy. apply H, elem_of_cons. by right.
Qed.

Lemma for_of_first {A R : Type} (body : A -> option R) (pre post : list A) x r :
  (forall y, y ∈ pre -> body y = None) ->
  body x = Some r ->
  for_of body (pre ++ x :: post) = Some r.
Proof.
  intros Hpre Hx. induction pre as [|y pre IH]; simpl; [by rewrite Hx|].
  rewrite Hpre by (apply elem_of_cons; by left).
  apply IH. intros z Hz. apply Hpre, elem_of_cons. by right.
Qed.

Lemma geInf_Math_max (xs : list Z) (b : Z) :
  geInf (Math_max xs) b = true <-> exists x, x ∈ xs /\ b <= x.
Proof.
  destruct xs as [|x xs]; simpl.
  - split; [done | intros (y & Hy & _); by apply elem_of_nil in Hy].
  - rewrite Z.geb_le. split.
    + intros Hb. destruct (decide (b <= x)) as [Hx|Hx].
      { exists x. split; [apply elem_of_cons; by left | done]. }
      assert (~ Forall (fun y => y <= b - 1) xs) as Hnot.
      { intros Hall.
        assert (fold_left Z.max xs x <= b - 1)
          by (apply fold_left_max_le; split; [lia | done]).
        lia. }
      apply not_Forall_Exists in Hnot; [|intros y; apply _].
      apply Exists_exists in Hnot as (y & Hy & Hby).
      exists y. split; [apply elem_of_cons; by right|]. simpl in Hby. lia.
    + intros (y & Hy & Hby). apply elem_of_cons in Hy as [->|Hy].
      * pose proof (fold_left_max_ge_init xs x). lia.
      * pose proof (fold_left_max_ge_elem xs x y Hy). lia.
Qed.

(** *** One entry, unbounded query *)

Lemma entry_other_file fileKey nodeId requiredDepth cacheItem cacheKey :
  forFile fileKey cacheKey = false ->
  findNodeInCache_entry fileKey nodeId requiredDepth cacheItem cacheKey = None.
Proof. intros H. unfold findNodeInCache_entry. by rewrite H. Qed.

Lemma entry_unbounded_tagged fileKey nodeId cacheItem cacheKey tag :
  forFile fileKey cacheKey = true ->
  getCacheKeyDepthLimit cacheKey = Some tag ->
  findNodeInCache_entry fileKey nodeId None cacheItem cacheKey
  = match findNodeInTree (nodes (data cacheItem)) nodeId with
    | Some node =>
        if decide (getNodeDepthFromRoot (nodes (data cacheItem)) nodeId 0
                   + getNodeDepth node < tag)
        then Some (node, cacheItem) else None
    | None => None
    end.
Proof.
  intros Hfile Htag. unfold findNodeInCache_entry. rewrite Hfile, Htag.
  destruct (findNodeInTree (nodes (data cacheItem)) nodeId) as [node|] eqn:E; [|done].
  destruct (Z.geb_spec
    (getNodeDepthFromRoot (nodes (data cacheItem)) nodeId 0 + getNodeDepth node) tag)
    as [Hge|Hlt].
  - destruct (decide _) as [Hd|Hd]; [lia | done].
  - destruct (decide _) as [Hd|Hd]; [done | lia].
Qed.

Lemma entry_unbounded_untagged fileKey nodeId cacheItem cacheKey :
  forFile fileKey cacheKey = true ->
  getCacheKeyDepthLimit cacheKey = None ->
  findNodeInCache_entry fileKey nodeId None cacheItem cacheKey
  = (fun node => (node, cacheItem)) <$> findNodeInTree (nodes (data cacheItem)) nodeId.
Proof.
  intros Hfile Htag. unfold findNodeInCache_entry. rewrite Hfile, Htag. simpl.
  by destruct (findNodeInTree (nodes (data cacheItem)) nodeId).
Qed.

Lemma entry_bounded fileKey nodeId required cacheItem cacheKey :
  forFile fileKey cacheKey = true ->
  findNodeInCache_entry fileKey nodeId (Some required) cacheItem cacheKey
  = match findNodeInTree (nodes (data cacheItem)) nodeId with
    | Some node =>
        if geInf (Math_max (map getNodeDepth (nodes (data cacheItem)))) required
           || (getNodeDepth node >=? required)
        then Some (if required >=? 0 then limitNodeDepth node required else node,
                   cacheItem)
        else None
    | None => None
    end.
Proof.
  intros Hfile. unfold findNodeInCache_entry, checkNodeDepthSatisfiesRequirement.
  rewrite Hfile. destruct (getCacheKeyDepthLimit cacheKey); simpl;
    destruct (findNodeInTree (nodes (data cacheItem)) nodeId) as [node|]; try done;
    by destruct (_ || _).
Qed.

Lemma findNodeData_miss fileKey nodeId validationParams requiredDepth s :
  findNodeInCache (store s) fileKey nodeId requiredDepth = None ->
  findNodeData fileKey nodeId validationParams requiredDepth s = (None, s).
Proof.
  intros Hmiss. unfold findNodeData, bind, readStore. by rewrite Hmiss.
Qed.

Lemma findNodeData_no_validation fileKey nodeId requiredDepth s node cacheItem :
  findNodeInCache (store s) fileKey nodeId requiredDepth = Some (node, cacheItem) ->
  findNodeData fileKey nodeId None requiredDepth s = (Some node, s).
Proof.
  intros Hhit. unfold findNodeData, bind, readStore. by rewrite Hhit.
Qed.


(** C1.  An unbounded query (no required depth) against an entry of the
    queried file whose key ends in a number [tag]: the entry yields a result
    exactly when the node is found in its snapshot and the depth of the node
    below the roots plus the depth of its subtree is less than [tag], and the
    result is then the stored node; the depth below the roots is the number
    of edges of a path from a root to the node found; an entry that yields no
    result is passed over and the scan goes on to the next one; when no entry
    yields a result the query returns nothing and leaves the state as it
    was. *)
Theorem unbounded_query_eligibility c fileKey nodeId :
  (forall cacheKey cacheItem tag,
      forFile fileKey cacheKey = true ->
      getCacheKeyDepthLimit cacheKey = Some tag ->
      (is_Some (findNodeInCache_entry fileKey nodeId None cacheItem cacheKey)
       <-> exists node,
             findNodeInTree (nodes (data cacheItem)) nodeId = Some node
             /\ getNodeDepthFromRoot (nodes (data cacheItem)) nodeId 0
                + getNodeDepth node < tag)
      /\ (forall r,
            findNodeInCache_entry fileKey nodeId None cacheItem cacheKey = Some r ->
            findNodeInTree (nodes (data cacheItem)) nodeId = Some r.1
            /\ r.2 = cacheItem))
  /\ (forall roots node,
        findNodeInTree roots nodeId = Some node ->
        id node = nodeId
        /\ exists path,
             subnode roots path = Some node
             /\ getNodeDepthFromRoot roots nodeId 0 = Z.of_nat (length path) - 1)
  /\ findNodeInCache c fileKey nodeId None
     = for_of (fun e => findNodeInCache_entry fileKey nodeId None e.2 e.1)
         (LRU.cache c)
  /\ ((forall e, e ∈ LRU.cache c ->
         findNodeInCache_entry fileKey nodeId None e.2 e.1 = None) ->
      forall validationParams s,
        store s = c ->
        findNodeData fileKey nodeId validationParams None s = (None, s)).
Proof.
  assert (forall roots node,
    findNodeInTree roots nodeId = Some node ->
    id node = nodeId
    /\ exists path,
         subnode roots path = Some node
         /\ getNodeDepthFromRoot roots nodeId 0 = Z.of_nat (length path) - 1)
    as Hpath.
  { intros roots node Hfind. pose proof (findNodeInTree_depth roots nodeId) as H.
    rewrite Hfind in H. destruct H as (Hid & path & Hsub & _ & Hdepth).
    split; [done|]. by exists path. }
  split; [|split; [exact Hpath|split]].
  - intros cacheKey cacheItem tag Hfile Htag.
    rewrite (entry_unbounded_tagged _ _ _ _ tag) by done.
    destruct (findNodeInTree (nodes (data cacheItem)) nodeId) as [node|].
    + destruct (decide _) as [Hlt|Hge]; split.
      * split; [intros _; by exists node | intros _; eauto].
      * intros r [= <-]. done.
      * split; [intros [? ?]; done|]. intros (n & [= <-] & Hn). lia.
      * done.
    + split; [|done]. split; [intros [? ?]; done|]. intros (n & Hn & _). done.
  - apply findNodeInCache_for_of.
  - intros Hnone validationParams s <-. apply findNodeData_miss.
    rewrite findNodeInCache_for_of. by apply for_of_None.
Qed.

(** The shallow snapshot stored under depth tag 1 cannot answer an
    unbounded query for its root, whose subtree reaches level 1. *)
Lemma unbounded_query_eligibility_witness :
  findNodeData "file1" "node-1" None None Samples.shallowCache
  = (None, Samples.shallowCache).
Proof.
  apply (proj2 (proj2 (proj2 (unbounded_query_eligibility
           (store Samples.shallowCache) "file1" "node-1"))));
    [|reflexivity].
  intros e He. apply list_elem_of_singleton in He as ->. reflexivity.
Defined.

(** C2.  A query with a required depth against an entry of the queried
    file: the entry yields a result exactly when the node is found in its
    snapshot and either some root of the snapshot is at least [required]
    deep or the node itself is; the first such entry in the order of the
    scan decides, and for [required >= 0] the node returned is
    [limitNodeDepth node required]. *)
Theorem bounded_query_eligibility c fileKey nodeId required :
  (forall cacheKey cacheItem,
      forFile fileKey cacheKey = true ->
      (is_Some (findNodeInCache_entry fileKey nodeId (Some required) cacheItem cacheKey)
       <-> exists node,
             findNodeInTree (nodes (data cacheItem)) nodeId = Some node
             /\ ((exists root, root ∈ nodes (data cacheItem)
                               /\ required <= getNodeDepth root)
                 \/ required <= getNodeDepth node)))
  /\ (forall pre cacheKey cacheItem post node,
        LRU.cache c = pre ++ (cacheKey, cacheItem) :: post ->
        (forall e, e ∈ pre ->
           findNodeInCache_entry fileKey nodeId (Some required) e.2 e.1 = None) ->
        is_Some (findNodeInCache_entry fileKey nodeId (Some required) cacheItem cacheKey) ->
        findNodeInTree (nodes (data cacheItem)) nodeId = Some node ->
        0 <= required ->
        findNodeInCache c fileKey nodeId (Some required)
        = Some (limitNodeDepth node required, cacheItem)
        /\ (forall s, store s = c ->
              findNodeData fileKey nodeId None (Some required) s
              = (Some (limitNodeDepth node required), s))
        /\ (forall validationParams s r, store s = c ->
              (findNodeData fileKey nodeId validationParams (Some required) s).1
              = Some r ->
              r = limitNodeDepth node required)).
Proof.
  split.
  - intros cacheKey cacheItem Hfile. rewrite entry_bounded by done.
    destruct (findNodeInTree (nodes (data cacheItem)) nodeId) as [node|]; cycle 1.
    { split; [intros [? ?]; done | intros (n & Hn & _); done]. }
    destruct (geInf _ _ || _) eqn:E.
    + split; [intros _ | eauto]. exists node. split; [done|].
      apply orb_true_iff in E as [E|E].
      * apply geInf_Math_max in E as (x & Hx & Hle). left.
        apply list_elem_of_In, in_map_iff in Hx as (root & <- & Hroot).
        exists root. split; [by apply list_elem_of_In | done].
      * right. apply Z.geb_le in E. done.
    + split; [intros [? ?]; done|]. intros (n & [= <-] & Hn).
      apply orb_false_iff in E as [E1 E2].
      destruct Hn as [(root & Hroot & Hle)|Hle].
      * assert (geInf (Math_max (map getNodeDepth (nodes (data cacheItem)))) required = true)
          as Ht; [|congruence].
        apply geInf_Math_max. exists (getNodeDepth root). split; [|done].
        apply list_elem_of_In, in_map, list_elem_of_In, Hroot.
      * apply Z.geb_le in Hle. congruence.
  - intros pre cacheKey cacheItem post node Hcache Hpre Helig Hfind Hreq.
    assert (forFile fileKey cacheKey = true) as Hfile.
    { destruct (forFile fileKey cacheKey) eqn:E; [done|].
      rewrite entry_other_file in Helig by done. by destruct Helig. }
    assert (findNodeInCache_entry fileKey nodeId (Some required) cacheItem cacheKey
            = Some (limitNodeDepth node required, cacheItem)) as Hentry.
    { rewrite entry_bounded in Helig |- * by done. rewrite Hfind in Helig |- *.
      destruct (geInf _ _ || _); [|by destruct Helig].
      destruct (Z.geb_spec required 0); [done | lia]. }
    assert (findNodeInCache c fileKey nodeId (Some required)
            = Some (limitNodeDepth node required, cacheItem)) as Hscan.
    { rewrite findNodeInCache_for_of, Hcache.
      by apply (for_of_first _ pre post (cacheKey, cacheItem)). }
    split; [done|]. split.
    + intros s <-. by apply (findNodeData_no_validation _ _ _ _ _ cacheItem).
    + intros validationParams s r <-. unfold findNodeData, bind, readStore.
      rewrite Hscan. destruct validationParams as [params|]; [|by intros [= <-]].
      destruct (validateCacheItem cacheItem params s) as [[|] s1]; simpl.
      * by intros [= <-].
      * by destruct (clearFileCache fileKey s1).
Qed.

(** The deep snapshot answers a depth-1 query for its root with the copy
    cut below the children. *)
Lemma bounded_query_eligibility_witness :
  findNodeData "file1" "node-1" None (Some 1) Samples.twoViews
  = (Some (limitNodeDepth Samples.mockNode1 1), Samples.twoViews).
Proof.
  refine (proj1 (proj2 (proj2 (bounded_query_eligibility
    (store Samples.twoViews) "file1" "node-1" 1) []
    "file1:node-1:default" (mkItem Samples.mockDesign1 Samples.stamp)
    [("file1:multi:default", mkItem Samples.mockMultiNodeDesign Samples.stamp)]
    Samples.mockNode1 _ _ _ _ _)) Samples.twoViews _).
  - reflexivity.
  - intros e He. by apply elem_of_nil in He.
  - vm_compute. eauto.
  - reflexivity.
  - lia.
  - reflexivity.
Defined.


(** *** Freshness *)

(** C5.  Validation never changes the store.  When the stored marker is
    empty or missing the entry is fresh and [getFileMeta] is not called.
    Otherwise it is called once: if the call fails the entry is fresh; if it
    succeeds the entry is fresh exactly when the current marker is empty or
    missing or equal to the stored one. *)
Theorem validateCacheItem_verdict cacheItem validationParams s :
  let '(fresh, s1) := validateCacheItem cacheItem validationParams s in
  store s1 = store s
  /\ if truthy (lastTouchedAt cacheItem) then
       metaCalls s1 = S (metaCalls s)
       /\ match getFileMeta validationParams (metaCalls s) with
          | Rejected => fresh = true
          | Fulfilled fileMeta =>
              fresh = negb (truthy (last_touched_at fileMeta))
                      || bool_decide (last_touched_at fileMeta = lastTouchedAt cacheItem)
          end
     else fresh = true /\ metaCalls s1 = metaCalls s.
Proof.
  unfold validateCacheItem, bind, callGetFileMeta, ret.
  destruct (truthy (lastTouchedAt cacheItem)); simpl; [|done].
  destruct (getFileMeta validationParams (metaCalls s)) as [fileMeta|]; simpl; [|done].
  destruct (truthy (last_touched_at fileMeta)); simpl; [|done].
  by destruct (bool_decide _).
Qed.

Lemma validateCacheItem_store cacheItem validationParams s :
  store (validateCacheItem cacheItem validationParams s).2 = store s.
Proof.
  unfold validateCacheItem, bind, callGetFileMeta, ret.
  destruct (truthy (lastTouchedAt cacheItem)); simpl; [|done].
  destruct (getFileMeta validationParams (metaCalls s)) as [fileMeta|]; simpl; [|done].
  by destruct (truthy (last_touched_at fileMeta) && _).
Qed.

(** *** Misses *)

(** C10.  A lookup that misses returns nothing and leaves the whole state,
    the store and the count of [getFileMeta] calls, as it was: [get] when the
    store has no entry under the key, [findNodeData] when the scan yields no
    entry.  So a call that did reach [getFileMeta] had found an entry. *)
Theorem miss_leaves_state fileKey nodeId cacheKey validationParams requiredDepth s :
  (LRU.has cacheKey (store s) = false ->
   get cacheKey validationParams s = (None, s))
  /\ (findNodeInCache (store s) fileKey nodeId requiredDepth = None ->
      findNodeData fileKey nodeId validationParams requiredDepth s = (None, s))
  /\ (metaCalls (get cacheKey validationParams s).2 <> metaCalls s ->
      LRU.has cacheKey (store s) = true)
  /\ (metaCalls (findNodeData fileKey nodeId validationParams requiredDepth s).2
      <> metaCalls s ->
      is_Some (findNodeInCache (store s) fileKey nodeId requiredDepth)).
Proof.
  assert (LRU.has cacheKey (store s) = false ->
          get cacheKey validationParams s = (None, s)) as Hget.
  { intros Hhas. unfold LRU.has in Hhas. apply bool_decide_eq_false in Hhas.
    unfold get, bind, withStore, LRU.get.
    destruct (LRU.Map_get cacheKey (LRU.cache (store s))); [by destruct Hhas|].
    unfold ret. by rewrite state_eta. }
  split; [done|]. split; [apply findNodeData_miss|]. split.
  - intros Hcalls. destruct (LRU.has cacheKey (store s)) eqn:E; [done|].
    rewrite Hget in Hcalls by done. done.
  - intros Hcalls.
    destruct (findNodeInCache (store s) fileKey nodeId requiredDepth) eqn:E; [eauto|].
    rewrite findNodeData_miss in Hcalls by done. done.
Qed.

Lemma miss_leaves_state_witness :
  findNodeData "file1" "node-3" (Some Samples.touchedSince) None Samples.twoFiles
  = (None, Samples.twoFiles).
Proof.
  apply (miss_leaves_state "file1" "node-3" "file1:node-3:default"
           (Some Samples.touchedSince) None Samples.twoFiles).
  reflexivity.
Defined.


(** *** Clearing a file *)

Lemma filter_ext_elem {A : Type} (P Q : A -> Prop)
    `{forall x, Decision (P x)} `{forall x, Decision (Q x)} (l : list A) :
  (forall x, x ∈ l -> P x <-> Q x) -> filter P l = filter Q l.
Proof.
  induction l as [|x l IH]; intros Hext; [done|].
  assert (filter P l = filter Q l) as Hl
    by (apply IH; intros y Hy; apply Hext, elem_of_cons; by right).
  pose proof (Hext x ltac:(apply elem_of_cons; by left)) as Hx.
  destruct (decide (P x)) as [HP|HP].
  - rewrite !filter_cons_True by tauto. by f_equal.
  - rewrite !filter_cons_False by tauto. done.
Qed.

Lemma filter_all {A : Type} (P : A -> Prop) `{forall x, Decision (P x)} (l : list A) :
  (forall x, x ∈ l -> P x) -> filter P l = l.
Proof.
  induction l as [|x l IH]; intros Hall; [done|].
  rewrite filter_cons_True by (apply Hall, elem_of_cons; by left).
  f_equal. apply IH. intros y Hy. apply Hall, elem_of_cons. by right.
Qed.

Lemma keysToDelete_filter fileKey (l : list (string * CacheItem)) (acc : list string) :
  fold_left
    (fun keys (e : string * CacheItem) =>
       if forFile fileKey e.1 then keys ++ [e.1] else keys) l acc
  = acc ++ filter (fun k => forFile fileKey k = true) l.*1.
Proof.
  revert acc. induction l as [|[k v] l IH]; intros acc; simpl.
  - by rewrite app_nil_r.
  - rewrite IH. destruct (forFile fileKey k) eqn:E.
    + rewrite filter_cons_True by done. by rewrite <- app_assoc.
    + rewrite filter_cons_False by congruence. done.
Qed.

(** Deleting a list of keys one after the other removes their entries from
    the map, and from the chain the nodes of those that were in the map. *)
Lemma delete_all (keys : list string) c :
  let c' := fold_left (fun c1 key => (LRU.delete key c1).2) keys c in
  LRU.capacity c' = LRU.capacity c
  /\ LRU.cache c' = filter (fun e => e.1 ∉ keys) (LRU.cache c)
  /\ LRU.chain c'
     = filter (fun k => ~ (k ∈ keys /\ k ∈ (LRU.cache c).*1)) (LRU.chain c).
Proof.
  revert c. induction keys as [|key keys IH]; intros c; simpl.
  - split; [done|]. split; symmetry; apply filter_all.
    + intros x _. apply not_elem_of_nil.
    + intros x _ [Hx _]. by apply elem_of_nil in Hx.
  - specialize (IH (LRU.delete key c).2). simpl in IH.
    destruct IH as (Hcap & Hcache & Hchain).
    rewrite Hcap, Hcache, Hchain. clear Hcap Hcache Hchain.
    unfold LRU.delete.
    destruct (LRU.Map_get key (LRU.cache c)) as [v|] eqn:E; simpl.
    + assert (key ∈ (LRU.cache c).*1) as Hin
        by (apply LRUFacts.Map_get_is_Some; eauto).
      split; [done|]. split.
      * unfold LRU.Map_delete. rewrite list_filter_filter.
        apply filter_ext_elem. intros e _. rewrite not_elem_of_cons. tauto.
      * rewrite list_filter_filter. apply filter_ext_elem. intros k _.
        rewrite LRUFacts.Map_delete_keys, LRUFacts.filter_ne_sub, elem_of_cons.
        split.
        -- intros [Hnot Hne] [[->|Hk] Hkc]; [done|]. apply Hnot. tauto.
        -- intros Hnot. split; [|intros ->; apply Hnot; by split; [left|]].
           intros [Hk [_ Hkc]]. apply Hnot. split; [by right | done].
    + apply LRUFacts.Map_get_None in E.
      split; [done|]. split.
      * apply filter_ext_elem. intros e He. rewrite not_elem_of_cons.
        split; [|tauto]. intros Hn. split; [|done].
        intros Heq. apply E. rewrite <- Heq. apply list_elem_of_fmap. by exists e.
      * apply filter_ext_elem. intros k _. rewrite elem_of_cons.
        split.
        -- intros Hnot [[->|Hk] Hkc]; [done|]. apply Hnot. tauto.
        -- intros Hnot [Hk Hkc]. apply Hnot. split; [by right | done].
Qed.

Lemma clearFileCache_store_spec fileKey c :
  LRU.capacity (clearFileCache_store fileKey c) = LRU.capacity c
  /\ LRU.cache (clearFileCache_store fileKey c)
     = filter (fun e => forFile fileKey e.1 = false) (LRU.cache c)
  /\ LRU.chain (clearFileCache_store fileKey c)
     = filter (fun k => ~ (forFile fileKey k = true /\ k ∈ (LRU.cache c).*1))
         (LRU.chain c).
Proof.
  unfold clearFileCache_store, LRU.forEach.
  rewrite (keysToDelete_filter fileKey (LRU.cache c) []). simpl.
  destruct (delete_all (filter (fun k => forFile fileKey k = true) (LRU.cache c).*1) c)
    as (Hcap & Hcache & Hchain).
  rewrite Hcap, Hcache, Hchain. split; [done|]. split.
  - apply filter_ext_elem. intros e He. rewrite list_elem_of_filter.
    split.
    + intros Hn. destruct (forFile fileKey e.1) eqn:E; [|done].
      exfalso. apply Hn. split; [done|]. apply list_elem_of_fmap. by exists e.
    + intros Hf [Ht _]. congruence.
  - apply filter_ext_elem. intros k _. rewrite list_elem_of_filter. tauto.
Qed.

(** No entry of a file is found once the file has been cleared. *)
Lemma findNodeInCache_cleared fileKey nodeId requiredDepth c :
  findNodeInCache (clearFileCache_store fileKey c) fileKey nodeId requiredDepth = None.
Proof.
  rewrite findNodeInCache_for_of. apply for_of_None. intros e He.
  destruct (clearFileCache_store_spec fileKey c) as (_ & Hcache & _).
  rewrite Hcache in He. apply list_elem_of_filter in He as [Hf _].
  by apply entry_other_file.
Qed.

(** C6.  When the scan finds an entry and the validation judges it stale,
    [findNodeData] returns nothing and the store loses exactly the entries
    whose key starts with the file key and a colon: the other entries keep
    their values and their order, in the map and in the recency chain. *)
Theorem stale_entry_clears_file fileKey nodeId params requiredDepth s node cacheItem :
  findNodeInCache (store s) fileKey nodeId requiredDepth = Some (node, cacheItem) ->
  (validateCacheItem cacheItem params s).1 = false ->
  let '(result, s1) := findNodeData fileKey nodeId (Some params) requiredDepth s in
  result = None
  /\ LRU.capacity (store s1) = LRU.capacity (store s)
  /\ LRU.cache (store s1)
     = filter (fun e => forFile fileKey e.1 = false) (LRU.cache (store s))
  /\ LRU.chain (store s1)
     = filter (fun k => ~ (forFile fileKey k = true /\ k ∈ (LRU.cache (store s)).*1))
         (LRU.chain (store s))
  /\ (forall key, LRU.has key (store s1)
                  = negb (forFile fileKey key) && LRU.has key (store s)).
Proof.
  intros Hhit Hstale. unfold findNodeData, bind, readStore. rewrite Hhit.
  pose proof (validateCacheItem_store cacheItem params s) as Hstore.
  destruct (validateCacheItem cacheItem params s) as [fresh s0]. simpl in *.
  subst fresh. simpl. unfold clearFileCache, withStore, ret. simpl.
  rewrite Hstore.
  destruct (clearFileCache_store_spec fileKey (store s)) as (Hcap & Hcache & Hchain).
  split; [done|]. split; [done|]. split; [done|]. split; [done|].
  intros key. apply eq_true_iff_eq.
  rewrite andb_true_iff, negb_true_iff, !LRUFacts.has_true, Hcache.
  rewrite list_elem_of_fmap. split.
  - intros (e & -> & He). apply list_elem_of_filter in He as [Hf He].
    split; [done|]. apply list_elem_of_fmap. by exists e.
  - intros [Hf Hk]. apply list_elem_of_fmap in Hk as (e & -> & He).
    exists e. split; [done|]. by apply list_elem_of_filter.
Qed.

Lemma stale_entry_clears_file_witness :
  let '(result, s1) :=
    findNodeData "file1" "node-1" (Some Samples.touchedSince) None Samples.twoFiles in
  result = None
  /\ (LRU.cache (store s1)).*1 = ["file2:node-3:default"].
Proof.
  pose proof (stale_entry_clears_file "file1" "node-1" Samples.touchedSince None
    Samples.twoFiles Samples.mockNode1
    (mkItem Samples.mockDesign1 Samples.stamp) eq_refl eq_refl) as H.
  destruct (findNodeData "file1" "node-1" (Some Samples.touchedSince) None
              Samples.twoFiles) as [result s1].
  destruct H as (Hres & _ & Hcache & _). split; [exact Hres|].
  rewrite Hcache. reflexivity.
Defined.


(** *** Several nodes *)

Lemma recordSourceDesign_spec c fileKey nodeId source :
  recordSourceDesign c fileKey nodeId source
  = match lastEntryContaining c fileKey nodeId with
    | Some d => Some d
    | None => source
    end.
Proof.
  unfold recordSourceDesign, lastEntryContaining, LRU.forEach.
  induction (LRU.cache c) as [|e l IH] using rev_ind; [done|].
  rewrite fold_left_app, filter_app. simpl.
  destruct (decide (containsNode fileKey nodeId e)) as [Hc|Hc].
  - rewrite filter_cons_True by done. rewrite filter_nil, last_snoc. simpl.
    destruct Hc as [-> Hfind]. simpl. by rewrite bool_decide_eq_true_2.
  - rewrite filter_cons_False by done. rewrite filter_nil, app_nil_r.
    rewrite <- IH.
    destruct (forFile fileKey e.1) eqn:Hf; [|done]. simpl.
    rewrite bool_decide_eq_false_2; [done|]. intros Hs. apply Hc. by split.
Qed.

Lemma entry_Some_contains fileKey nodeId requiredDepth cacheItem cacheKey r :
  findNodeInCache_entry fileKey nodeId requiredDepth cacheItem cacheKey = Some r ->
  containsNode fileKey nodeId (cacheKey, cacheItem) /\ r.2 = cacheItem.
Proof.
  unfold findNodeInCache_entry, containsNode. simpl.
  destruct (forFile fileKey cacheKey); [|done].
  destruct (match requiredDepth with None => _ | Some _ => _ end); [done|].
  destruct (checkNodeDepthSatisfiesRequirement _ _ _); [|done].
  destruct (findNodeInTree (nodes (data cacheItem)) nodeId) as [node|]; [|done].
  intros [= <-]. eauto.
Qed.

Lemma for_of_Some {A R : Type} (body : A -> option R) (l : list A) r :
  for_of body l = Some r -> exists x, x ∈ l /\ body x = Some r.
Proof.
  induction l as [|x l IH]; simpl; [done|].
  destruct (body x) as [r'|] eqn:E.
  - intros [= ->]. exists x. split; [apply elem_of_cons; by left | done].
  - intros H. apply IH in H as (y & Hy & Hr).
    exists y. split; [apply elem_of_cons; by right | done].
Qed.

(** A hit is backed by an entry that the later scan for the source design
    meets as well. *)
Lemma hit_has_source c fileKey nodeId requiredDepth r :
  findNodeInCache c fileKey nodeId requiredDepth = Some r ->
  is_Some (lastEntryContaining c fileKey nodeId).
Proof.
  rewrite findNodeInCache_for_of. intros H.
  apply for_of_Some in H as ([k item] & Hin & Hr). simpl in Hr.
  apply entry_Some_contains in Hr as [Hc _].
  unfold lastEntryContaining. apply fmap_is_Some, last_is_Some.
  intros Hnil.
  assert ((k, item) ∈ filter (containsNode fileKey nodeId) (LRU.cache c)) as Hf
    by (by apply list_elem_of_filter).
  rewrite Hnil in Hf. by apply elem_of_nil in Hf.
Qed.

(** The three ways [findNodeData] can end. *)
Lemma findNodeData_cases fileKey nodeId validationParams requiredDepth s :
  let '(result, s1) := findNodeData fileKey nodeId validationParams requiredDepth s in
  (result = None /\ s1 = s
   /\ findNodeInCache (store s) fileKey nodeId requiredDepth = None)
  \/ (result = None /\ store s1 = clearFileCache_store fileKey (store s))
  \/ (exists node cacheItem,
        result = Some node /\ store s1 = store s
        /\ findNodeInCache (store s) fileKey nodeId requiredDepth
           = Some (node, cacheItem)).
Proof.
  unfold findNodeData, bind, readStore.
  destruct (findNodeInCache (store s) fileKey nodeId requiredDepth)
    as [[node cacheItem]|] eqn:E; [|by left].
  destruct validationParams as [params|]; [|right; right; by exists node, cacheItem].
  pose proof (validateCacheItem_store cacheItem params s) as Hstore.
  destruct (validateCacheItem cacheItem params s) as [[|] s0]; simpl in *.
  - right; right. by exists node, cacheItem.
  - right; left. unfold clearFileCache, withStore, ret. simpl. by rewrite Hstore.
Qed.

(** Once a source design is recorded the loop keeps it. *)
Lemma loop_keeps_source fileKey nodeIds validationParams requiredDepth acc s d :
  sourceDesign acc = Some d ->
  let res := (findMultipleNodes_loop fileKey nodeIds validationParams requiredDepth acc s).1 in
  sourceDesign res = Some d
  /\ (exists more, cachedNodes res = cachedNodes acc ++ more)
  /\ (exists more, missingNodeIds res = missingNodeIds acc ++ more).
Proof.
  revert acc s. induction nodeIds as [|nodeId rest IH]; intros acc s Hsrc; simpl.
  - split; [done|]. split; exists []; by rewrite app_nil_r.
  - unfold bind.
    destruct (findNodeData fileKey nodeId validationParams requiredDepth s)
      as [[node|] s1].
    + unfold readStore. rewrite Hsrc.
      destruct (IH (mkMultiple (cachedNodes acc ++ [node]) (missingNodeIds acc) (Some d))
                  s1 eq_refl) as (H1 & [more H2] & H3).
      split; [done|]. split; [|done].
      exists (node :: more). rewrite H2. simpl. by rewrite <- app_assoc.
    + destruct (IH (mkMultiple (cachedNodes acc) (missingNodeIds acc ++ [nodeId])
                     (sourceDesign acc)) s1 Hsrc) as (H1 & H2 & [more H3]).
      split; [done|]. split; [done|].
      exists (nodeId :: more). rewrite H3. simpl. by rewrite <- app_assoc.
Qed.

(** Before the first hit the loop only collects misses; the first hit fixes
    the source design. *)
Lemma loop_first_hit fileKey nodeIds validationParams requiredDepth acc s :
  sourceDesign acc = None ->
  cachedNodes acc = [] ->
  let res := (findMultipleNodes_loop fileKey nodeIds validationParams requiredDepth acc s).1 in
  (cachedNodes res = [] /\ sourceDesign res = None)
  \/ (exists pre nodeId post node cacheItem ns more,
        nodeIds = pre ++ nodeId :: post
        /\ missingNodeIds res = missingNodeIds acc ++ pre ++ more
        /\ findNodeInCache (store s) fileKey nodeId requiredDepth
           = Some (node, cacheItem)
        /\ cachedNodes res = node :: ns
        /\ sourceDesign res = lastEntryContaining (store s) fileKey nodeId
        /\ is_Some (sourceDesign res)).
Proof.
  revert acc s. induction nodeIds as [|nodeId rest IH]; intros acc s Hsrc Hcached; simpl.
  - by left.
  - unfold bind.
    pose proof (findNodeData_cases fileKey nodeId validationParams requiredDepth s) as Hcases.
    destruct (findNodeData fileKey nodeId validationParams requiredDepth s)
      as [result s1].
    destruct Hcases as [(-> & -> & Hmiss)|[(-> & Hclear)|(node & cacheItem & -> & Hstore & Hhit)]].
    + destruct (IH (mkMultiple (cachedNodes acc) (missingNodeIds acc ++ [nodeId])
                      (sourceDesign acc)) s Hsrc Hcached)
        as [Hnone|(pre & nid & post & node & item & ns & more & -> & Hm & Hhit & Hc & Hs & Hsome)];
        [by left|].
      right. exists (nodeId :: pre), nid, post, node, item, ns, more.
      repeat split; try done. rewrite Hm. simpl. by rewrite <- app_assoc.
    + destruct (IH (mkMultiple (cachedNodes acc) (missingNodeIds acc ++ [nodeId])
                      (sourceDesign acc)) s1 Hsrc Hcached)
        as [Hnone|(pre & nid & post & node & item & ns & more & _ & _ & Hhit & _)];
        [by left|].
      rewrite Hclear, findNodeInCache_cleared in Hhit. done.
    + unfold readStore. rewrite Hsrc, Hstore, recordSourceDesign_spec.
      pose proof (hit_has_source _ _ _ _ _ Hhit) as [d Hd]. rewrite Hd.
      destruct (loop_keeps_source fileKey rest validationParams requiredDepth
                  (mkMultiple (cachedNodes acc ++ [node]) (missingNodeIds acc) (Some d))
                  s1 d eq_refl) as (H1 & [ns H2] & [more H3]).
      simpl in *. right.
      exists [], nodeId, rest, node, cacheItem, ns, more.
      rewrite H1, H2, H3, Hcached. by repeat split.
Qed.

(** C7 (as amended).  With no ids the result is empty and has no source
    design.  When some id is found, the source design is the design of the
    last entry, in the order of the scan, whose key is of the file and whose
    snapshot contains the first id that was found; the ids before it are
    the first misses.  That entry need not be the one [findNodeData] took
    the node from. *)
Theorem findMultipleNodes_source fileKey nodeIds validationParams requiredDepth s :
  let res := (findMultipleNodes fileKey nodeIds validationParams requiredDepth s).1 in
  (nodeIds = [] -> res = mkMultiple [] [] None)
  /\ (cachedNodes res = [] -> sourceDesign res = None)
  /\ (forall node ns,
        cachedNodes res = node :: ns ->
        exists pre nodeId post cacheItem more,
          nodeIds = pre ++ nodeId :: post
          /\ missingNodeIds res = pre ++ more
          /\ findNodeInCache (store s) fileKey nodeId requiredDepth
             = Some (node, cacheItem)
          /\ sourceDesign res = lastEntryContaining (store s) fileKey nodeId
          /\ is_Some (sourceDesign res)).
Proof.
  cbv zeta. split; [by intros ->|]. unfold findMultipleNodes.
  destruct (loop_first_hit fileKey nodeIds validationParams requiredDepth
              (mkMultiple [] [] None) s eq_refl eq_refl)
    as [[Hc Hs]|(pre & nid & post & node & item & ns & more & Hids & Hm & Hhit & Hc & Hs & Hsome)].
  - split; [done|]. intros node ns Hcons. congruence.
  - split; [intros Hnil; congruence|].
    intros node' ns' Hcons. rewrite Hc in Hcons. injection Hcons as <- <-.
    by exists pre, nid, post, item, more.
Qed.

Lemma findMultipleNodes_source_witness :
  let res :=
    (findMultipleNodes "file1" ["missing"; "node-1"] None None Samples.twoViews).1 in
  exists pre nodeId post cacheItem more,
    ["missing"; "node-1"] = pre ++ nodeId :: post
    /\ missingNodeIds res = pre ++ more
    /\ findNodeInCache (store Samples.twoViews) "file1" nodeId None
       = Some (Samples.mockNode1, cacheItem)
    /\ sourceDesign res = lastEntryContaining (store Samples.twoViews) "file1" nodeId
    /\ is_Some (sourceDesign res).
Proof.
  apply (proj2 (proj2 (findMultipleNodes_source "file1" ["missing"; "node-1"]
                         None None Samples.twoViews)) Samples.mockNode1 []).
  reflexivity.
Defined.

(** In the cache that holds the deep snapshot of node-1 and, after it, the
    snapshot of several roots, node-1 is served from the first entry but the
    source design is the second one. *)
Lemma source_is_not_the_backing_entry :
  let res := (findMultipleNodes "file1" ["node-1"] None None Samples.twoViews).1 in
  exists node cacheItem,
    cachedNodes res = [node]
    /\ findNodeInCache (store Samples.twoViews) "file1" "node-1" None
       = Some (node, cacheItem)
    /\ sourceDesign res <> Some (data cacheItem).
Proof.
  exists Samples.mockNode1, (mkItem Samples.mockDesign1 Samples.stamp).
  split; [reflexivity|]. split; [reflexivity|].
  vm_compute. intros H. discriminate H.
Qed.

End CacheFacts.

(** ** Forests with empty slots *)

Module RawFacts.
Import Raw.

Lemma JsNode_ind (P : JsNode -> Prop) :
  P JsNull ->
  (forall i n t, P (JsObject i n t None)) ->
  (forall i n t cs, Forall P cs -> P (JsObject i n t (Some cs))) ->
  forall node, P node.
Proof.
  intros Hnull Hleaf Hnode.
  fix IH 1. intros [|i n t [cs|]]; [apply Hnull | | apply Hleaf].
  apply Hnode. induction cs as [|c cs IHcs]; constructor; [apply IH | exact IHcs].
Qed.

Lemma find_app_ {A : Type} (f : A -> bool) (l1 l2 : list A) :
  List.find f (l1 ++ l2)
  = match List.find f l1 with Some x => Some x | None => List.find f l2 end.
Proof.
  induction l1 as [|x l1 IH]; simpl; [done|]. by destruct (f x).
Qed.

Lemma verdict_forest targetId (cs : list JsNode) :
  Forall (fun n => findNode_in targetId n = verdict targetId (slots_in n)) cs ->
  for_of_throwing (findNode_in targetId) cs = verdict targetId (flat_map slots_in cs).
Proof.
  induction 1 as [|n cs Hn Hall IH]; simpl; [done|].
  rewrite Hn. unfold verdict in *. rewrite find_app_.
  destruct (List.find (decisive targetId) (slots_in n)) as [[|i nm ty ch]|]; done.
Qed.

Lemma verdict_node targetId (node : JsNode) :
  findNode_in targetId node = verdict targetId (slots_in node).
Proof.
  induction node as [|i n t|i n t cs IH] using JsNode_ind; [done | |].
  - unfold verdict. simpl. by destruct (String.eqb i targetId).
  - unfold verdict. cbn [findNode_in slots_in List.find decisive].
    destruct (String.eqb i targetId); [done|].
    by rewrite verdict_forest.
Qed.

Lemma findNodeInTree_firstDecisive (nodes : list JsNode) targetId :
  findNodeInTree nodes targetId = firstDecisive targetId nodes.
Proof.
  apply verdict_forest, Forall_forall. intros n _. apply verdict_node.
Qed.

Lemma embed_slots_no_null (nodes : list Tree.SimplifiedNode) :
  JsNull ∉ slots (map embed nodes).
Proof.
  unfold slots.
  assert (forall node, JsNull ∉ slots_in (embed node)) as Hnode.
  { induction node as [i n t|i n t cs IH] using TreeFacts.SimplifiedNode_ind; simpl.
    - apply not_elem_of_cons. split; [done | apply not_elem_of_nil].
    - apply not_elem_of_cons. split; [done|].
      induction IH as [|c cs Hc Hcs IHcs]; simpl; [apply not_elem_of_nil|].
      apply not_elem_of_app. by split. }
  induction nodes as [|node nodes IH]; simpl; [apply not_elem_of_nil|].
  apply not_elem_of_app. by split.
Qed.

Lemma embed_inj_id (node : Tree.SimplifiedNode) targetId :
  decisive targetId (embed node) = String.eqb (Tree.id node) targetId.
Proof. by destruct node. Qed.

Lemma findNodeInTree_embed (nodes : list Tree.SimplifiedNode) targetId :
  findNodeInTree (map embed nodes) targetId
  = Normal (embed <$> Tree.findNodeInTree nodes targetId).
Proof.
  unfold findNodeInTree, Tree.findNodeInTree.
  assert (forall node,
    findNode_in targetId (embed node)
    = Normal (embed <$> Tree.findNode_in targetId node)) as Hnode.
  { induction node as [i n t|i n t cs IH] using TreeFacts.SimplifiedNode_ind.
    - simpl. by destruct (String.eqb i targetId).
    - cbn [embed findNode_in Tree.findNode_in Tree.id Tree.children].
      destruct (String.eqb i targetId); [done|].
      induction IH as [|c cs Hc Hcs IHcs]; simpl; [done|].
      rewrite Hc. by destruct (Tree.findNode_in targetId c). }
  induction nodes as [|node nodes IH]; simpl; [done|].
  rewrite Hnode. by destruct (Tree.findNode_in targetId node).
Qed.

(** C8 (as amended).  The search does not skip a [null] or [undefined]
    slot.  It walks the slots depth first and the first slot that is empty or
    carries the id decides: an empty slot makes the search throw, a node with
    the id is returned, and with neither the result is [null].  So on a forest
    without empty slots, which is every forest of the declared type, the
    search never throws and returns the first node with the id. *)
Theorem findNodeInTree_empty_slots targetId :
  (forall nodes, findNodeInTree nodes targetId = firstDecisive targetId nodes)
  /\ (forall nodes,
        JsNull ∉ slots nodes ->
        exists result, findNodeInTree nodes targetId = Normal result)
  /\ (forall nodes : list Tree.SimplifiedNode,
        findNodeInTree (map embed nodes) targetId
        = Normal (embed <$> Tree.findNodeInTree nodes targetId)).
Proof.
  split; [intros nodes; apply findNodeInTree_firstDecisive|].
  split; [|intros nodes; apply findNodeInTree_embed].
  intros nodes Hnull. rewrite findNodeInTree_firstDecisive.
  unfold firstDecisive, verdict.
  destruct (List.find (decisive targetId) (slots nodes)) as [[|i n t ch]|] eqn:E; eauto.
  apply find_some in E as [Hin _]. apply list_elem_of_In in Hin. done.
Qed.

Lemma findNodeInTree_empty_slots_witness :
  exists result,
    findNodeInTree (map embed [Samples.mockNode1; Samples.mockNode2]) "child-3"
    = Normal result.
Proof.
  apply (findNodeInTree_empty_slots "child-3").
  apply embed_slots_no_null.
Defined.

(** On the forest of the sibling's test the search for "2-1" throws at the
    first [null] root, and so does the search for the absent id "3". *)
Lemma findNodeInTree_throws_on_null :
  findNodeInTree nodesWithNullOrUndefined "2-1" = TypeError
  /\ findNodeInTree nodesWithNullOrUndefined "3" = TypeError
  /\ ~ (forall nodes targetId,
          exists result, findNodeInTree nodes targetId = Normal result).
Proof.
  split; [reflexivity|]. split; [reflexivity|].
  intros H. destruct (H nodesWithNullOrUndefined "3") as [result Hr].
  discriminate Hr.
Qed.

End RawFacts.

(** ** Copies and sharing *)

Module HeapFacts.
Import Tree Heap.

Implicit Types (h : heap) (a p q : addr) (node : SimplifiedNode).


















End HeapFacts.

(** ** More on the eviction store *)

Module LRUMore.
Import LRU LRUFacts.
Section more.
Context {K : Type} `{EqDecision K} {V : Type}.
Implicit Types (c : LRUCache K V) (m : list (K * V)) (k key : K) (t : Timed K V).

Lemma Map_get_set key value m k :
  Map_get k (Map_set key value m)
  = if decide (k = key) then Some value else Map_get k m.
Proof.
  induction m as [|[k0 v0] m IH]; simpl.
  - destruct (decide (key = k)) as [->|Hne].
    + by rewrite decide_True.
    + by rewrite decide_False by congruence.
  - destruct (decide (k0 = key)) as [->|Hne]; simpl.
    + destruct (decide (key = k)) as [->|Hk].
      * by rewrite decide_True.
      * by rewrite decide_False by congruence.
    + destruct (decide (k0 = k)) as [->|Hk]; [by rewrite decide_False | exact IH].
Qed.

Lemma Map_get_delete key m k :
  Map_get k (Map_delete key m)
  = if decide (k = key) then None else Map_get k m.
Proof.
  unfold Map_delete. induction m as [|[k0 v0] m IH]; simpl.
  - by destruct (decide (k = key)).
  - destruct (decide (k0 <> key)) as [Hne|Heq].
    + rewrite filter_cons_True by done. simpl.
      destruct (decide (k0 = k)) as [->|Hk]; [by rewrite decide_False | exact IH].
    + rewrite filter_cons_False by done. rewrite IH.
      assert (k0 = key) as -> by (by destruct (decide (k0 = key)); [|exfalso; auto]).
      destruct (decide (k = key)) as [->|Hk]; [done|].
      by rewrite decide_False by congruence.
Qed.

Lemma put_cache key value c :
  exists m, cache (put key value c) = Map_set key value m
            /\ (has key c = true -> m = cache c).
Proof.
  unfold put, has. destruct (Map_get key (cache c)) as [v|] eqn:E.
  - exists (cache c). by rewrite moveToFront_cache.
  - eexists. split; [reflexivity|]. intros Hhas.
    apply bool_decide_eq_true in Hhas. by destruct Hhas.
Qed.

Lemma lru_put_get_core key value c :
  (get key (put key value c)).1 = Some value
  /\ has key (put key value c) = true.
Proof.
  destruct (put_cache key value c) as (m & Hm & _).
  assert (Map_get key (cache (put key value c)) = Some value) as Hget
    by (by rewrite Hm, Map_get_set, decide_True).
  split.
  - unfold get. by rewrite Hget.
  - unfold has. rewrite Hget. apply bool_decide_eq_true. eauto.
Qed.

(** X1.  Whatever the store holds and whatever its capacity, a value that
    was just put is what [get] returns for its key. *)
Theorem lru_put_then_get key value c :
  (get key (put key value c)).1 = Some value
  /\ has key (put key value c) = true.
Proof. apply lru_put_get_core. Qed.

(** X2.  A put on a key that is present replaces the value in place: no
    entry is evicted, even in a full store, the other keys keep their values
    and the order in which [forEach] visits the keys does not change. *)
Theorem lru_put_updates_in_place key value c :
  has key c = true ->
  (cache (put key value c)).*1 = (cache c).*1
  /\ size (put key value c) = size c
  /\ forall k, k <> key ->
       Map_get k (cache (put key value c)) = Map_get k (cache c).
Proof.
  intros Hhas. destruct (put_cache key value c) as (m & Hm & Hsame).
  rewrite (Hsame Hhas) in Hm.
  assert ((cache (put key value c)).*1 = (cache c).*1) as Hkeys
    by (rewrite Hm; by apply Map_set_keys_old, has_true).
  split; [done|]. split; [by rewrite !size_keys, Hkeys|].
  intros k Hk. by rewrite Hm, Map_get_set, decide_False.
Qed.

Lemma lru_delete_one_core key c k :
  (delete key c).1 = has key c
  /\ Map_get k (cache (delete key c).2)
     = if decide (k = key) then None else Map_get k (cache c).
Proof.
  unfold delete, has. destruct (Map_get key (cache c)) as [v|] eqn:E; simpl.
  - split; [done | apply Map_get_delete].
  - split; [done|]. destruct (decide (k = key)) as [->|]; done.
Qed.

(** X3.  [delete] reports whether the key was present; afterwards the key
    is absent and every other key has the value it had. *)
Theorem lru_delete_removes_one key c k :
  (delete key c).1 = has key c
  /\ Map_get k (cache (delete key c).2)
     = if decide (k = key) then None else Map_get k (cache c).
Proof. apply lru_delete_one_core. Qed.

Lemma run_snoc (n : Z) (ops : list (op K V)) o :
  run n (ops ++ [o]) = step o (run n ops).
Proof. unfold run. by rewrite fold_left_app. Qed.

Lemma wf_run (n : Z) (ops : list (op K V)) :
  exists t, wf t /\ lru t = run n ops.
Proof. exists (timed_run n ops). split; [apply wf_timed_run | apply timed_run_lru]. Qed.

Lemma run_capacity (n : Z) (ops : list (op K V)) : capacity (run n ops) = n.
Proof. rewrite <- timed_run_lru. apply timed_run_capacity. Qed.

Lemma wf_chain_perm t : wf t -> chain (lru t) ≡ₚ (cache (lru t)).*1.
Proof.
  intros Hwf. apply NoDup_Permutation.
  - exact (sorted_NoDup _ _ (wf_sorted _ Hwf)).
  - apply Hwf.
  - apply Hwf.
Qed.

(** X4.  In every store reached by gets, puts, deletes and clears from an
    empty one, the map and the linked list describe the same entries: no key
    occurs twice in either, and the list links exactly the keys of the
    map. *)
Theorem lru_map_and_chain_agree (n : Z) (ops : list (op K V)) :
  let c := run n ops in
  NoDup (cache c).*1
  /\ NoDup (chain c)
  /\ chain c ≡ₚ (cache c).*1
  /\ size c = Z.of_nat (length (chain c)).
Proof.
  destruct (wf_run n ops) as (t & Hwf & Ht). cbv zeta. rewrite <- Ht.
  pose proof (wf_chain_perm t Hwf) as Hperm.
  split; [apply Hwf|]. split; [exact (sorted_NoDup _ _ (wf_sorted _ Hwf))|].
  split; [done|]. by rewrite size_keys, Hperm.
Qed.

Lemma head_put key value c : head (put key value c) = Some key.
Proof.
  unfold put. destruct (Map_get key (cache c)); [|done].
  unfold moveToFront. by destruct (decide _).
Qed.

Lemma head_get_hit key c : has key c = true -> head (get key c).2 = Some key.
Proof.
  unfold has, get. intros Hhas. apply bool_decide_eq_true in Hhas as [v Hv].
  rewrite Hv. simpl. unfold moveToFront. by destruct (decide _).
Qed.

(** The most recently used entry outlives the next put when the store has
    room for two. *)
Lemma head_survives_put t key key' value' :
  wf t -> head (lru t) = Some key -> 2 <= capacity (lru t) ->
  has key (put key' value' (lru t)) = true.
Proof.
  intros Hwf Hhead Hcap. set (c := lru t) in *.
  pose proof (sorted_NoDup _ _ (wf_sorted _ Hwf)) as Hnd. fold c in Hnd.
  unfold head in Hhead.
  destruct (chain c) as [|k0 rest] eqn:Hchain; [done|].
  injection Hhead as ->.
  assert (key ∈ (cache c).*1) as Hkey
    by (apply (wf_same _ Hwf); fold c; rewrite Hchain; apply elem_of_cons; by left).
  apply has_true. unfold put.
  destruct (Map_get key' (cache c)) as [v|] eqn:E.
  - rewrite moveToFront_cache. simpl.
    rewrite Map_set_keys_old by (apply Map_get_is_Some; eauto). done.
  - apply Map_get_None in E.
    assert (key <> key') as Hne by (intros ->; done).
    destruct (Z.geb_spec (size c) (capacity c)) as [Hfull|Hroom]; cycle 1.
    { simpl. rewrite Map_set_keys_new by done. apply elem_of_app. by left. }
    unfold tail. rewrite Hchain.
    destruct rest as [|k1 rest].
    { pose proof (wf_chain_perm t Hwf) as Hperm. fold c in Hperm.
      rewrite Hchain in Hperm. rewrite size_keys, <- Hperm in Hfull.
      simpl in Hfull. lia. }
    rewrite last_cons_cons.
    destruct (last (k1 :: rest)) as [victim|] eqn:Hlast; simpl; cycle 1.
    { rewrite Map_set_keys_new by done. apply elem_of_app. by left. }
    assert (victim <> key) as Hv.
    { intros ->. apply last_Some_elem_of in Hlast.
      apply NoDup_cons in Hnd as [Hnin _]. done. }
    rewrite Map_set_keys_new
      by (rewrite Map_delete_keys, filter_ne_sub; tauto).
    apply elem_of_app. left. rewrite Map_delete_keys, filter_ne_sub. by split.
Qed.

(** X5.  With a capacity of at least two, an entry that was just put, or
    just read by a [get] that found it, is never the one that the next put
    evicts. *)
Theorem lru_touched_survives_next_put (n : Z) (ops : list (op K V))
    key value key' value' :
  2 <= n ->
  has key (run n (ops ++ [Put key value; Put key' value'])) = true
  /\ (has key (run n ops) = true ->
      has key (run n (ops ++ [Get key; Put key' value'])) = true).
Proof.
  intros Hn.
  assert (forall o, head (step o (run n ops)) = Some key ->
    has key (run n (ops ++ [o; Put key' value'])) = true) as Hstep.
  { intros o Hhead.
    change (ops ++ [o; Put key' value']) with (ops ++ [o] ++ [Put key' value']).
    rewrite app_assoc, run_snoc. simpl.
    destruct (wf_run n (ops ++ [o])) as (t & Hwf & Ht). rewrite <- Ht.
    apply (head_survives_put t); [done | |].
    - by rewrite Ht, run_snoc.
    - rewrite Ht, run_capacity. lia. }
  split.
  - apply Hstep. simpl. apply head_put.
  - intros Hhas. apply Hstep. simpl. by apply head_get_hit.
Qed.

Lemma Map_set_new key value m :
  key ∉ m.*1 -> Map_set key value m = m ++ [(key, value)].
Proof.
  induction m as [|[k v] m IH]; simpl; intros Hnin; [done|].
  apply not_elem_of_cons in Hnin as [Hne Hnin].
  rewrite decide_False by done. f_equal. by apply IH.
Qed.

(** One put of a new key into a store whose chain is the reverse of its
    map: the oldest entry leaves when the store is full. *)
Lemma put_fifo_step c key value :
  chain c = reverse (cache c).*1 ->
  NoDup (cache c).*1 ->
  key ∉ (cache c).*1 ->
  1 <= capacity c -> size c <= capacity c ->
  cache (put key value c)
  = (if decide (capacity c <= size c) then drop 1 (cache c) else cache c)
    ++ [(key, value)]
  /\ chain (put key value c) = reverse (cache (put key value c)).*1
  /\ capacity (put key value c) = capacity c.
Proof.
  intros Hchain Hnd Hnew Hcap Hsize. unfold put.
  rewrite (proj2 (Map_get_None key (cache c))) by done.
  destruct (Z.geb_spec (size c) (capacity c)) as [Hfull|Hroom]; cycle 1.
  { rewrite decide_False by lia. simpl. rewrite Map_set_new by done.
    split; [done|]. split; [|done].
    by rewrite Hchain, fmap_app, reverse_app. }
  rewrite decide_True by lia.
  destruct (cache c) as [|[k0 v0] l] eqn:Hcache.
  { unfold size in Hfull. rewrite Hcache in Hfull. simpl in Hfull. lia. }
  unfold tail. rewrite Hchain. rewrite fmap_cons, reverse_cons, last_snoc.
  simpl in Hnd. apply NoDup_cons in Hnd as [Hk0 Hnd].
  simpl in Hnew. apply not_elem_of_cons in Hnew as [Hne Hnew].
  assert (Map_delete k0 ((k0, v0) :: l) = l) as Hdel.
  { unfold Map_delete. rewrite filter_cons_False by (simpl; intros Hc; by apply Hc).
    apply CacheFacts.filter_all. intros [k v] Hin. simpl. intros ->.
    apply Hk0. apply list_elem_of_fmap. by exists (k0, v). }
  simpl. rewrite Hdel, drop_0, Map_set_new by done.
  split; [done|]. split; [|done].
  rewrite fmap_app, reverse_app. simpl. f_equal.
  rewrite filter_app, filter_cons_False, filter_nil, app_nil_r
    by (intros Hc; by apply Hc).
  apply CacheFacts.filter_all. intros k Hk. rewrite elem_of_reverse in Hk.
  intros Heq. subst. by apply Hk0.
Qed.

(** X6.  When distinct keys are put one after the other into an empty store
    of capacity [n >= 1] and nothing is read in between, the store ends up
    holding the last [n] of them with their values, in the order they were
    put: entries leave first in, first out. *)
Theorem lru_keeps_the_last_puts (n : Z) (kvs : list (K * V)) :
  1 <= n ->
  NoDup kvs.*1 ->
  cache (run n (map (fun kv => Put kv.1 kv.2) kvs))
  = drop (length kvs - Z.to_nat n) kvs.
Proof.
  intros Hn.
  cut (NoDup kvs.*1 ->
       let c := run n (map (fun kv => Put kv.1 kv.2) kvs) in
       cache c = drop (length kvs - Z.to_nat n) kvs
       /\ chain c = reverse (cache c).*1 /\ capacity c = n).
  { intros Hcut Hnd. apply (Hcut Hnd). }
  induction kvs as [|[k v] kvs IH] using rev_ind; intros Hnd; [done|].
  rewrite fmap_app in Hnd. apply NoDup_app in Hnd as (Hnd & Hfresh & _).
  destruct (IH Hnd) as (Hcache & Hchain & Hcap). clear IH.
  rewrite map_app. simpl map. cbv zeta. rewrite run_snoc. simpl step.
  set (c := run n (map (fun kv => Put kv.1 kv.2) kvs)) in *.
  assert (k ∉ (cache c).*1) as Hnew.
  { rewrite Hcache, fmap_drop. intros Hin.
    apply (Hfresh k); [|simpl; apply elem_of_cons; by left].
    exact (subseteq_drop _ _ _ Hin). }
  assert (NoDup (cache c).*1) as Hndc.
  { rewrite Hcache, fmap_drop.
    exact (sublist_NoDup _ _ Hnd (sublist_drop _ _)). }
  assert (size c = Z.of_nat (length kvs - (length kvs - Z.to_nat n))) as Hsz
    by (unfold size; by rewrite Hcache, length_drop).
  destruct (put_fifo_step c k v Hchain Hndc Hnew ltac:(lia) ltac:(lia))
    as (Hc' & Hch' & Hcap').
  split; [|split; [done | congruence]].
  rewrite Hc', Hcap, length_app. simpl length.
  destruct (decide (n <= size c)) as [Hfull|Hroom].
  - rewrite Hcache, drop_drop.
    replace (length kvs + 1 - Z.to_nat n)%nat
      with (length kvs - Z.to_nat n + 1)%nat by lia.
    rewrite drop_app_le by lia. done.
  - rewrite Hcache.
    replace (length kvs - Z.to_nat n)%nat with 0%nat by lia.
    replace (length kvs + 1 - Z.to_nat n)%nat with 0%nat by lia.
    by rewrite !drop_0.
Qed.

End more.

Lemma lru_put_updates_in_place_witness :
  (cache (put "a" 9%nat (run 2 Samples.demo_ops))).*1
  = (cache (run 2 Samples.demo_ops)).*1.
Proof.
  apply (lru_put_updates_in_place "a" 9%nat (run 2 Samples.demo_ops)).
  reflexivity.
Defined.

Lemma lru_touched_survives_next_put_witness :
  has "a" (run 2 (Samples.demo_ops ++ [Put "a" 7%nat; Put "c" 3%nat])) = true.
Proof.
  apply (lru_touched_survives_next_put 2 Samples.demo_ops "a" 7%nat "c" 3%nat).
  lia.
Defined.

Lemma lru_keeps_the_last_puts_witness :
  cache (run 2 (map (fun kv => Put kv.1 kv.2)
                  [("a", 1%nat); ("b", 2%nat); ("c", 3%nat)]))
  = [("b", 2%nat); ("c", 3%nat)].
Proof.
  apply (lru_keeps_the_last_puts 2 [("a", 1%nat); ("b", 2%nat); ("c", 3%nat)]).
  - lia.
  - refine (bool_decide_unpack _ _). vm_compute. exact I.
Defined.
End LRUMore.

(** ** More on the depth-aware cache *)

Module CacheMore.
Import Tree Key Cache TreeFacts CacheFacts.

Implicit Types (c : LRU.LRUCache string CacheItem) (s : State).

(** The verdict of a validation depends on the count of earlier calls
    only. *)
Lemma validateCacheItem_verdict_calls cacheItem params s s' :
  metaCalls s = metaCalls s' ->
  (validateCacheItem cacheItem params s).1 = (validateCacheItem cacheItem params s').1.
Proof.
  intros Hcalls. unfold validateCacheItem, bind, callGetFileMeta, ret.
  destruct (truthy (lastTouchedAt cacheItem)); simpl; [|done]. rewrite Hcalls.
  destruct (getFileMeta params (metaCalls s')) as [fileMeta|]; simpl; [|done].
  by destruct (truthy (last_touched_at fileMeta) && _).
Qed.

Lemma validateCacheItem_calls cacheItem params s :
  (metaCalls s <= metaCalls (validateCacheItem cacheItem params s).2
   <= S (metaCalls s))%nat.
Proof.
  unfold validateCacheItem, bind, callGetFileMeta, ret.
  destruct (truthy (lastTouchedAt cacheItem)); simpl; [|lia].
  destruct (getFileMeta params (metaCalls s)) as [fileMeta|]; simpl; [|lia].
  destruct (truthy (last_touched_at fileMeta) && _); simpl; lia.
Qed.

(** X7.  What was put under a key is what [get] returns for it: without
    validation always, and with validation exactly when the entry is judged
    fresh. *)
Theorem cache_put_then_get cacheKey design marker validationParams s :
  let s1 := (put cacheKey design marker s).2 in
  (has cacheKey s1).1 = true
  /\ (get cacheKey validationParams s1).1
     = match validationParams with
       | None => Some design
       | Some params =>
           if (validateCacheItem (mkItem design marker) params s1).1
           then Some design else None
       end.
Proof.
  cbv zeta. unfold put, has, withStore. simpl.
  destruct (LRUMore.lru_put_get_core cacheKey (mkItem design marker) (store s))
    as [Hget Hhas].
  split; [done|].
  unfold get, bind, withStore. simpl.
  destruct (LRU.get cacheKey (LRU.put cacheKey (mkItem design marker) (store s)))
    as [found c1] eqn:E.
  simpl in Hget. subst found.
  destruct validationParams as [params|]; [|done].
  set (s2 := mkState c1 (metaCalls s)).
  rewrite (validateCacheItem_verdict_calls _ params
             (mkState (LRU.put cacheKey (mkItem design marker) (store s)) (metaCalls s))
             s2 eq_refl).
  destruct (validateCacheItem (mkItem design marker) params s2) as [[|] s3]; simpl; [done|].
  by destruct (LRU.delete cacheKey (store s3)).
Qed.

(** X8.  When [get] finds the entry and the validation judges it stale
    (the entry has a stamp, [getFileMeta] is fulfilled and reports a stamp
    that is not empty and differs), [get] returns null after one
    [getFileMeta] call and deletes that entry alone: the key is gone and
    every other entry, of the same file or not, keeps its value. *)
Theorem cache_get_stale_deletes_one cacheKey params s cacheItem fileMeta :
  LRU.Map_get cacheKey (LRU.cache (store s)) = Some cacheItem ->
  truthy (lastTouchedAt cacheItem) = true ->
  getFileMeta params (metaCalls s) = Fulfilled fileMeta ->
  truthy (last_touched_at fileMeta) = true ->
  last_touched_at fileMeta <> lastTouchedAt cacheItem ->
  (get cacheKey (Some params) s).1 = None
  /\ metaCalls (get cacheKey (Some params) s).2 = S (metaCalls s)
  /\ forall k,
       LRU.Map_get k (LRU.cache (store (get cacheKey (Some params) s).2))
       = if decide (k = cacheKey) then None
         else LRU.Map_get k (LRU.cache (store s)).
Proof.
  intros Hitem Hstamp Hmeta Hcurrent Hdiffer.
  unfold get, bind, withStore, LRU.get. rewrite Hitem. cbn [fst snd].
  unfold validateCacheItem, bind, callGetFileMeta, ret.
  rewrite Hstamp. cbn [negb metaCalls store]. rewrite Hmeta, Hcurrent.
  rewrite bool_decide_eq_false_2 by done. cbn [negb andb fst snd store metaCalls].
  pose proof (fun k => LRUMore.lru_delete_one_core cacheKey
                         (LRU.moveToFront cacheKey (store s)) k) as Hdel.
  destruct (LRU.delete cacheKey (LRU.moveToFront cacheKey (store s))) as [b c2].
  cbn [fst snd store metaCalls] in *. split; [done|]. split; [done|].
  intros k. destruct (Hdel k) as [_ ->]. by rewrite LRUFacts.moveToFront_cache.
Qed.

Lemma cache_get_stale_deletes_one_witness :
  (get "file1:node-1:default" (Some Samples.touchedSince) Samples.twoFiles).1 = None
  /\ LRU.Map_get "file1:node-2:default"
       (LRU.cache (store (get "file1:node-1:default" (Some Samples.touchedSince)
                            Samples.twoFiles).2))
     = LRU.Map_get "file1:node-2:default" (LRU.cache (store Samples.twoFiles)).
Proof.
  destruct (cache_get_stale_deletes_one "file1:node-1:default" Samples.touchedSince
              Samples.twoFiles (mkItem Samples.mockDesign1 Samples.stamp)
              (mkMeta (Some "2023-01-01T14:00:00Z"))
              eq_refl eq_refl eq_refl eq_refl ltac:(discriminate))
    as (Hnone & _ & Hother).
  split; [exact Hnone|]. exact (Hother "file1:node-2:default").
Defined.

(** The shape of what one entry contributes to the scan. *)
Lemma entry_Some_shape fileKey nodeId requiredDepth cacheItem cacheKey r :
  findNodeInCache_entry fileKey nodeId requiredDepth cacheItem cacheKey = Some r ->
  exists stored,
    findNodeInTree (nodes (data cacheItem)) nodeId = Some stored
    /\ r = (match requiredDepth with
            | Some required =>
                if required >=? 0 then limitNodeDepth stored required else stored
            | None => stored
            end, cacheItem).
Proof.
  unfold findNodeInCache_entry.
  destruct (forFile fileKey cacheKey); [|done].
  destruct (match requiredDepth with None => _ | Some _ => _ end); [done|].
  destruct (checkNodeDepthSatisfiesRequirement _ _ _); [|done].
  destruct (findNodeInTree (nodes (data cacheItem)) nodeId) as [stored|]; [|done].
  intros [= <-]. by exists stored.
Qed.

Lemma findNodeInCache_Some_shape c fileKey nodeId requiredDepth node cacheItem :
  findNodeInCache c fileKey nodeId requiredDepth = Some (node, cacheItem) ->
  exists cacheKey stored,
    (cacheKey, cacheItem) ∈ LRU.cache c
    /\ forFile fileKey cacheKey = true
    /\ findNodeInTree (nodes (data cacheItem)) nodeId = Some stored
    /\ node = match requiredDepth with
              | Some required =>
                  if required >=? 0 then limitNodeDepth stored required else stored
              | None => stored
              end.
Proof.
  rewrite findNodeInCache_for_of. intros H.
  apply for_of_Some in H as ([k item] & Hin & Hr). simpl in Hr.
  pose proof (entry_Some_contains _ _ _ _ _ _ Hr) as [[Hfile _] Hitem].
  apply entry_Some_shape in Hr as (stored & Hfind & Hshape).
  simpl in *. injection Hshape as -> <-.
  by exists k, stored.
Qed.

Lemma findNodeData_hit_core
    fileKey nodeId validationParams requiredDepth s node :
  (findNodeData fileKey nodeId validationParams requiredDepth s).1 = Some node ->
  id node = nodeId
  /\ (exists cacheKey cacheItem stored,
        (cacheKey, cacheItem) ∈ LRU.cache (store s)
        /\ forFile fileKey cacheKey = true
        /\ findNodeInTree (nodes (data cacheItem)) nodeId = Some stored
        /\ match requiredDepth with
           | Some d => if d >=? 0
                       then node = limitNodeDepth stored d /\ getNodeDepth node <= d
                       else node = stored
           | None => node = stored
           end).
Proof.
  intros Hres.
  pose proof (findNodeData_cases fileKey nodeId validationParams requiredDepth s) as Hc.
  destruct (findNodeData fileKey nodeId validationParams requiredDepth s) as [r s1].
  simpl in Hres. subst r.
  destruct Hc as [(Hn & _)|[(Hn & _)|(node' & item & [= <-] & _ & Hhit)]]; [done | done |].
  apply findNodeInCache_Some_shape in Hhit as (k & stored & Hin & Hfile & Hfind & Hnode).
  pose proof (findNodeInTree_depth (nodes (data item)) nodeId) as Hid.
  rewrite Hfind in Hid. destruct Hid as [Hid _].
  split.
  - rewrite Hnode. destruct requiredDepth as [d|]; [|done].
    destruct (d >=? 0); [|done].
    by rewrite (proj1 (limitNodeDepth_fields stored d)).
  - exists k, item, stored. repeat split; try done.
    destruct requiredDepth as [d|]; [|done].
    destruct (Z.geb_spec d 0) as [Hd|Hd]; [|done].
    split; [done|]. rewrite Hnode. apply limitNodeDepth_depth. lia.
Qed.

(** X9.  A node that [findNodeData] returns carries the requested id, comes
    from the snapshot of an entry of the queried file, and for a required
    depth [d >= 0] is at most [d] deep; with the required depth absent or
    negative it is the stored node itself. *)
Theorem findNodeData_hit_is_the_requested_node
    fileKey nodeId validationParams requiredDepth s node :
  (findNodeData fileKey nodeId validationParams requiredDepth s).1 = Some node ->
  id node = nodeId
  /\ (exists cacheKey cacheItem stored,
        (cacheKey, cacheItem) ∈ LRU.cache (store s)
        /\ forFile fileKey cacheKey = true
        /\ findNodeInTree (nodes (data cacheItem)) nodeId = Some stored
        /\ match requiredDepth with
           | Some d => if d >=? 0
                       then node = limitNodeDepth stored d /\ getNodeDepth node <= d
                       else node = stored
           | None => node = stored
           end).
Proof. apply findNodeData_hit_core. Qed.

Lemma findNodeData_hit_is_the_requested_node_witness :
  id (limitNodeDepth Samples.mockNode1 1) = "node-1".
Proof.
  apply (findNodeData_hit_is_the_requested_node "file1" "node-1" None (Some 1)
           Samples.twoViews (limitNodeDepth Samples.mockNode1 1)).
  reflexivity.
Defined.

Lemma findNodeData_read_core fileKey nodeId validationParams requiredDepth s :
  let '(result, s1) := findNodeData fileKey nodeId validationParams requiredDepth s in
  (is_Some result -> store s1 = store s)
  /\ (metaCalls s <= metaCalls s1 <= S (metaCalls s))%nat
  /\ (validationParams = None -> s1 = s).
Proof.
  unfold findNodeData, bind, readStore.
  destruct (findNodeInCache (store s) fileKey nodeId requiredDepth)
    as [[node cacheItem]|]; [|simpl; split; [done | split; [lia | done]]].
  destruct validationParams as [params|]; [|simpl; split; [done | split; [lia | done]]].
  pose proof (validateCacheItem_store cacheItem params s) as Hstore.
  pose proof (validateCacheItem_calls cacheItem params s) as Hcalls.
  destruct (validateCacheItem cacheItem params s) as [[|] s0]; simpl in *.
  - split; [done | split; [lia | done]].
  - unfold clearFileCache, withStore, ret. simpl.
    split; [by intros [? ?] | split; [lia | done]].
Qed.

(** X10.  A lookup by scan is a read: when [findNodeData] returns a node the
    store is exactly as before, recency order included, so serving a node
    this way does not protect its entry from eviction; and one call makes at
    most one [getFileMeta] call, none without validation parameters. *)
Theorem findNodeData_reads_only fileKey nodeId validationParams requiredDepth s :
  let '(result, s1) := findNodeData fileKey nodeId validationParams requiredDepth s in
  (is_Some result -> store s1 = store s)
  /\ (metaCalls s <= metaCalls s1 <= S (metaCalls s))%nat
  /\ (validationParams = None -> s1 = s).
Proof. apply findNodeData_read_core. Qed.

Lemma findNodeData_reads_only_witness :
  store (findNodeData "file1" "node-1" (Some Samples.unreachable) None
           Samples.twoViews).2
  = store Samples.twoViews.
Proof.
  pose proof (findNodeData_reads_only "file1" "node-1" (Some Samples.unreachable)
                None Samples.twoViews) as H.
  destruct (findNodeData "file1" "node-1" (Some Samples.unreachable) None
              Samples.twoViews) as [result s1] eqn:E.
  apply (proj1 H).
  assert (result = (findNodeData "file1" "node-1" (Some Samples.unreachable) None
              Samples.twoViews).1) as -> by (by rewrite E).
  vm_compute. eauto.
Defined.

(** A node found below a root is no deeper than the root. *)
Lemma findNode_in_depth targetId (root : SimplifiedNode) node :
  findNode_in targetId root = Some node -> getNodeDepth node <= getNodeDepth root.
Proof.
  revert node.
  induction root as [i n t|i n t cs IH] using SimplifiedNode_ind; intros node;
    cbn [findNode_in id children]; destruct (String.eqb i targetId).
  - intros [= <-]. lia.
  - done.
  - intros [= <-]. lia.
  - intros Hfind. apply for_of_Some in Hfind as (child & Hchild & Hfound).
    rewrite Forall_forall in IH. specialize (IH child Hchild node Hfound).
    destruct cs as [|c cs]; [by apply elem_of_nil in Hchild|].
    rewrite getNodeDepth_cons.
    cut (getNodeDepth child <= fold_left Z.max (map getNodeDepth cs) (getNodeDepth c)); [lia|].
    apply elem_of_cons in Hchild as [->|Hchild].
    + apply fold_left_max_ge_init.
    + apply fold_left_max_ge_elem. apply list_elem_of_In, in_map, list_elem_of_In, Hchild.
Qed.

Lemma findNodeInTree_below_a_root (roots : list SimplifiedNode) targetId node :
  findNodeInTree roots targetId = Some node ->
  exists root, root ∈ roots /\ getNodeDepth node <= getNodeDepth root.
Proof.
  intros Hfind. apply for_of_Some in Hfind as (root & Hroot & Hfound).
  exists root. split; [done | by apply (findNode_in_depth targetId)].
Qed.

(** X11.  In [checkNodeDepthSatisfiesRequirement] the second test never
    decides: the target lies below some root, so it is never deeper than the
    deepest root, and the check accepts exactly when the node is found and
    the deepest root reaches the required depth. *)
Theorem checkNodeDepth_is_the_forest_depth cacheData targetNodeId required :
  checkNodeDepthSatisfiesRequirement cacheData targetNodeId (Some required)
  = match findNodeInTree (nodes cacheData) targetNodeId with
    | Some _ => geInf (Math_max (map getNodeDepth (nodes cacheData))) required
    | None => false
    end.
Proof.
  unfold checkNodeDepthSatisfiesRequirement.
  destruct (findNodeInTree (nodes cacheData) targetNodeId) as [node|] eqn:Hfind; [|done].
  destruct (geInf _ required) eqn:Hge; [done|]. simpl.
  destruct (Z.geb_spec (getNodeDepth node) required) as [Hnode|Hnode]; [|done].
  apply findNodeInTree_below_a_root in Hfind as (root & Hroot & Hle).
  assert (geInf (Math_max (map getNodeDepth (nodes cacheData))) required = true)
    as Ht; [|congruence].
  apply geInf_Math_max. exists (getNodeDepth root). split; [|lia].
  apply list_elem_of_In, in_map, list_elem_of_In, Hroot.
Qed.

(** What the loop of [findMultipleNodes] adds to the lists it was given. *)
Lemma loop_accounts fileKey nodeIds validationParams requiredDepth acc s :
  let '(res, s1) :=
    findMultipleNodes_loop fileKey nodeIds validationParams requiredDepth acc s in
  (exists hits misses,
      cachedNodes res = cachedNodes acc ++ hits
      /\ missingNodeIds res = missingNodeIds acc ++ misses
      /\ id <$> hits `sublist_of` nodeIds
      /\ misses `sublist_of` nodeIds
      /\ nodeIds ≡ₚ (id <$> hits) ++ misses)
  /\ (metaCalls s <= metaCalls s1 <= metaCalls s + length nodeIds)%nat
  /\ (validationParams = None -> s1 = s).
Proof.
  revert acc s. induction nodeIds as [|nodeId rest IH]; intros acc s; simpl.
  - split; [|split; [lia | done]].
    exists [], []. rewrite !app_nil_r. by repeat split.
  - unfold bind.
    pose proof (findNodeData_read_core fileKey nodeId validationParams requiredDepth s)
      as Hread.
    pose proof (findNodeData_hit_core fileKey nodeId validationParams
                  requiredDepth s) as Hid.
    destruct (findNodeData fileKey nodeId validationParams requiredDepth s)
      as [[node|] s0]; destruct Hread as (_ & Hcalls & Hpure).
    + unfold readStore.
      destruct (Hid node eq_refl) as [Hnode _].
      match goal with
      | |- context [findMultipleNodes_loop _ _ _ _ ?a s0] => specialize (IH a s0)
      end.
      destruct (findMultipleNodes_loop fileKey rest validationParams requiredDepth _ s0)
        as [res s1].
      destruct IH as ((hits & misses & Hc & Hm & Hsh & Hsm & Hperm) & Hcalls' & Hpure').
      simpl in Hc, Hm.
      split; [|split; [lia | intros Hv; rewrite Hpure' by done; by apply Hpure]].
      exists (node :: hits), misses.
      rewrite Hc, Hm, <- app_assoc. simpl. rewrite Hnode.
      repeat split; try done.
      * by apply sublist_skip.
      * by apply sublist_cons.
      * by rewrite Hperm.
    + match goal with
      | |- context [findMultipleNodes_loop _ _ _ _ ?a s0] => specialize (IH a s0)
      end.
      destruct (findMultipleNodes_loop fileKey rest validationParams requiredDepth _ s0)
        as [res s1].
      destruct IH as ((hits & misses & Hc & Hm & Hsh & Hsm & Hperm) & Hcalls' & Hpure').
      simpl in Hc, Hm.
      split; [|split; [lia | intros Hv; rewrite Hpure' by done; by apply Hpure]].
      exists hits, (nodeId :: misses).
      rewrite Hc, Hm, <- app_assoc. simpl.
      repeat split; try done.
      * by apply sublist_cons.
      * by apply sublist_skip.
      * rewrite Hperm. apply Permutation_middle.
Qed.

(** X12.  [findMultipleNodes] accounts for every requested id exactly once:
    the ids of the nodes found and the ids reported missing are each in the
    order of the request and together make up the request.  It makes at most
    one [getFileMeta] call per id, and without validation parameters it
    leaves the whole state as it was. *)
Theorem findMultipleNodes_accounts_for_every_id
    fileKey nodeIds validationParams requiredDepth s :
  let '(res, s1) := findMultipleNodes fileKey nodeIds validationParams requiredDepth s in
  id <$> cachedNodes res `sublist_of` nodeIds
  /\ missingNodeIds res `sublist_of` nodeIds
  /\ nodeIds ≡ₚ (id <$> cachedNodes res) ++ missingNodeIds res
  /\ (length (cachedNodes res) + length (missingNodeIds res) = length nodeIds)%nat
  /\ (metaCalls s <= metaCalls s1 <= metaCalls s + length nodeIds)%nat
  /\ (validationParams = None -> s1 = s).
Proof.
  unfold findMultipleNodes.
  pose proof (loop_accounts fileKey nodeIds validationParams requiredDepth
                (mkMultiple [] [] None) s) as H.
  destruct (findMultipleNodes_loop _ _ _ _ _ s) as [res s1].
  destruct H as ((hits & misses & Hc & Hm & Hsh & Hsm & Hperm) & Hcalls & Hpure).
  simpl in Hc, Hm. rewrite Hc, Hm.
  repeat split; try done; try lia.
  rewrite Hperm, length_app, length_fmap. done.
Qed.

Lemma findMultipleNodes_accounts_for_every_id_witness :
  (findMultipleNodes "file1" ["missing"; "node-1"] None None Samples.twoViews).2
  = Samples.twoViews.
Proof.
  pose proof (findMultipleNodes_accounts_for_every_id "file1" ["missing"; "node-1"]
                None None Samples.twoViews) as H.
  destruct (findMultipleNodes "file1" ["missing"; "node-1"] None None Samples.twoViews)
    as [res s1].
  apply H. reflexivity.
Defined.

(** *** Clearing *)

Lemma for_of_filter {A R : Type} (body : A -> option R) (P : A -> Prop)
    `{forall x, Decision (P x)} (l : list A) :
  (forall x, x ∈ l -> ~ P x -> body x = None) ->
  for_of body (filter P l) = for_of body l.
Proof.
  induction l as [|x l IH]; intros Hskip; [done|].
  assert (for_of body (filter P l) = for_of body l) as Hl
    by (apply IH; intros y Hy; apply Hskip, elem_of_cons; by right).
  destruct (decide (P x)) as [HP|HP].
  - rewrite filter_cons_True by done. simpl. by rewrite Hl.
  - rewrite filter_cons_False by done. simpl.
    rewrite (Hskip x) by (done || apply elem_of_cons; by left). done.
Qed.

(** X13.  After [clearFileCache(fileKey)] every node query for that file
    misses and leaves the state alone, clearing again changes nothing, and the
    queries for a file none of whose keys starts with the cleared prefix are
    answered as before. *)
Theorem clearFileCache_then_lookups fileKey s :
  let s1 := (clearFileCache fileKey s).2 in
  (forall nodeId validationParams requiredDepth,
      findNodeData fileKey nodeId validationParams requiredDepth s1 = (None, s1))
  /\ (clearFileCache fileKey s1).2 = s1
  /\ (forall other nodeId requiredDepth,
        (forall e, e ∈ LRU.cache (store s) ->
           forFile other e.1 = true -> forFile fileKey e.1 = false) ->
        findNodeInCache (store s1) other nodeId requiredDepth
        = findNodeInCache (store s) other nodeId requiredDepth).
Proof.
  cbv zeta. unfold clearFileCache, withStore. simpl.
  destruct (clearFileCache_store_spec fileKey (store s)) as (Hcap & Hcache & Hchain).
  split; [|split].
  - intros nodeId validationParams requiredDepth.
    apply findNodeData_miss. simpl. apply findNodeInCache_cleared.
  - f_equal.
    destruct (clearFileCache_store_spec fileKey (clearFileCache_store fileKey (store s)))
      as (Hcap2 & Hcache2 & Hchain2).
    assert (forall c c' : LRU.LRUCache string CacheItem,
      LRU.capacity c = LRU.capacity c' -> LRU.cache c = LRU.cache c' ->
      LRU.chain c = LRU.chain c' -> c = c') as Hext
      by (intros [? ? ?] [? ? ?]; simpl; congruence).
    apply Hext; [done | |].
    + rewrite Hcache2. apply filter_all. intros e He.
      rewrite Hcache in He. by apply list_elem_of_filter in He as [Hf _].
    + rewrite Hchain2. apply filter_all. intros k Hk [Hf Hin].
      rewrite Hcache in Hin. apply list_elem_of_fmap in Hin as (e & -> & He).
      apply list_elem_of_filter in He as [Hf' _]. congruence.
  - intros other nodeId requiredDepth Hdisjoint.
    rewrite !findNodeInCache_for_of, Hcache.
    apply for_of_filter. intros e He Hf.
    apply entry_other_file. destruct (forFile other e.1) eqn:Ho; [|done].
    specialize (Hdisjoint e He Ho). done.
Qed.

Lemma clearFileCache_then_lookups_witness :
  findNodeInCache (store (clearFileCache "file1" Samples.twoFiles).2)
    "file2" "node-3" None
  = findNodeInCache (store Samples.twoFiles) "file2" "node-3" None.
Proof.
  apply (clearFileCache_then_lookups "file1" Samples.twoFiles).
  intros e He.
  repeat (apply elem_of_cons in He as [->|He]; [by vm_compute|]).
  by apply elem_of_nil in He.
Defined.

(** X14.  After [clearAllCache] nothing is found any more, by key or by
    scan, whatever is asked, and the lookups leave the state as it is, with
    or without validation parameters: [findMultipleNodes] reports every id
    missing and no source design and makes no [getFileMeta] call.  The
    capacity is kept. *)
Theorem clearAllCache_empties s :
  let s1 := (clearAllCache s).2 in
  LRU.capacity (store s1) = LRU.capacity (store s)
  /\ metaCalls s1 = metaCalls s
  /\ (forall cacheKey validationParams,
        get cacheKey validationParams s1 = (None, s1))
  /\ (forall fileKey nodeId validationParams requiredDepth,
        findNodeData fileKey nodeId validationParams requiredDepth s1 = (None, s1))
  /\ (forall fileKey nodeIds validationParams requiredDepth,
        findMultipleNodes fileKey nodeIds validationParams requiredDepth s1
        = (mkMultiple [] nodeIds None, s1)).
Proof.
  cbv zeta. unfold clearAllCache, withStore. simpl.
  split; [done|]. split; [done|]. split; [done|].
  assert (forall fileKey nodeId validationParams requiredDepth,
    findNodeData fileKey nodeId validationParams requiredDepth
      (mkState (LRU.clear (store s)) (metaCalls s))
    = (None, mkState (LRU.clear (store s)) (metaCalls s))) as Hmiss
    by (intros; by apply findNodeData_miss).
  split; [done|].
  intros fileKey nodeIds validationParams requiredDepth. unfold findMultipleNodes.
  change nodeIds with ([] ++ nodeIds) at 2.
  generalize (@nil string) as missed.
  induction nodeIds as [|nodeId rest IH]; intros missed; simpl.
  - by rewrite app_nil_r.
  - unfold bind. rewrite Hmiss. simpl.
    rewrite IH, <- app_assoc. done.
Qed.

End CacheMore.

(** ** The caller of the cache *)

Module ServiceFacts.
Import Tree Key Cache Service TreeFacts CacheFacts CacheMore.

Implicit Types (s : State) (sv : ServiceState).

(** X15.  [normalizeFigmaNodeId] turns every hyphen into a colon and leaves
    all other characters where they are: the result has the length of the
    input and no hyphen, and normalising it again changes nothing. *)
Theorem normalizeFigmaNodeId_replaces_hyphens (nodeId : string) :
  String.length (normalizeFigmaNodeId nodeId) = String.length nodeId
  /\ (forall i,
        String.get i (normalizeFigmaNodeId nodeId)
        = (fun c => if Ascii.eqb c "-"%char then ":"%char else c)
            <$> String.get i nodeId)
  /\ (forall i, String.get i (normalizeFigmaNodeId nodeId) <> Some "-"%char)
  /\ normalizeFigmaNodeId (normalizeFigmaNodeId nodeId) = normalizeFigmaNodeId nodeId.
Proof.
  assert (forall i,
    String.get i (normalizeFigmaNodeId nodeId)
    = (fun c => if Ascii.eqb c "-"%char then ":"%char else c)
        <$> String.get i nodeId) as Hget.
  { induction nodeId as [|c rest IH]; intros i; [done|].
    destruct i as [|i]; [done|]. simpl. apply IH. }
  split; [|split; [done|split]].
  - induction nodeId as [|c rest IH]; [done|]. simpl. f_equal. apply IH.
    intros i. apply (Hget (S i)).
  - intros i. rewrite Hget. destruct (String.get i nodeId) as [c|]; [|done].
    simpl. destruct (Ascii.eqb_spec c "-"%char) as [->|Hc]; [done|].
    intros [= ->]. done.
  - clear Hget. induction nodeId as [|c rest IH]; [done|]. simpl. f_equal; [|done].
    destruct (Ascii.eqb_spec c "-"%char) as [->|Hc]; [done|].
    by rewrite (proj2 (Ascii.eqb_neq c "-"%char)).
Qed.

(** *** The key of an entry *)

Lemma split_colon_nonempty (s : string) : split_colon s <> [].
Proof.
  destruct s as [|c rest]; [done|]. simpl.
  destruct (Ascii.eqb c ":"%char); [done|]. by destruct (split_colon rest).
Qed.

Lemma split_colon_app (a b : string) :
  split_colon (a +:+ String ":"%char b) = split_colon a ++ split_colon b.
Proof.
  induction a as [|c a IH]; [done|]. simpl.
  destruct (Ascii.eqb c ":"%char); [by rewrite IH|].
  rewrite IH. pose proof (split_colon_nonempty a).
  by destruct (split_colon a).
Qed.

Lemma last_app_nonempty {A : Type} (l1 l2 : list A) (d : A) :
  l2 <> [] -> List.last (l1 ++ l2) d = List.last l2 d.
Proof.
  intros Hne. induction l1 as [|x l1 IH]; [done|].
  simpl. destruct (l1 ++ l2) eqn:E; [|done].
  apply app_eq_nil in E as [_ ->]. done.
Qed.

Lemma getCacheKeyDepthLimit_last_part (a b : string) :
  getCacheKeyDepthLimit (a +:+ String ":"%char b) = getCacheKeyDepthLimit b.
Proof.
  unfold getCacheKeyDepthLimit. rewrite split_colon_app.
  by rewrite last_app_nonempty by apply split_colon_nonempty.
Qed.

Lemma digit_char (n : Z) :
  let c := ascii_of_nat (48 + Z.to_nat (n mod 10)) in
  digit_of c = Some (n mod 10)
  /\ Ascii.eqb c ":"%char = false
  /\ is_space c = false.
Proof.
  pose proof (Z.mod_pos_bound n 10 ltac:(lia)) as Hr.
  assert (exists r, (r < 10)%nat /\ Z.to_nat (n mod 10) = r /\ n mod 10 = Z.of_nat r)
    as (r & Hlt & -> & ->) by (exists (Z.to_nat (n mod 10)); lia).
  do 10 (destruct r as [|r]; [by vm_compute|]). lia.
Qed.

Lemma digitsOf_S (fuel : nat) (n : Z) (acc : string) :
  digitsOf (S fuel) n acc
  = if n / 10 =? 0 then String (ascii_of_nat (48 + Z.to_nat (n mod 10))) acc
    else digitsOf fuel (n / 10) (String (ascii_of_nat (48 + Z.to_nat (n mod 10))) acc).
Proof. reflexivity. Qed.

(** The digits are read back as the number they spell. *)
Lemma digits_digitsOf (fuel : nat) (n : Z) (rest : string) (acc : option Z) :
  0 <= n -> (Z.to_nat n <= fuel)%nat ->
  exists k, digits (digitsOf (S fuel) n rest) acc
            = digits rest (Some (default 0 acc * 10 ^ k + n)) /\ 0 <= k.
Proof.
  revert n rest acc. induction fuel as [|fuel IH]; intros n rest acc Hn Hfuel.
  - assert (n = 0) as -> by lia. exists 1. split; [|lia].
    pose proof (digit_char 0) as (Hd & _ & _). cbv zeta in Hd.
    cbn [digitsOf]. change (0 / 10 =? 0) with true. cbv iota.
    cbn [digits]. rewrite Hd. f_equal. f_equal. change (0 mod 10) with 0. lia.
  - rewrite digitsOf_S. pose proof (digit_char n) as (Hd & _ & _). cbv zeta in Hd.
    destruct (Z.eqb_spec (n / 10) 0) as [Hq|Hq].
    + exists 1. split; [|lia]. cbn [digits]. rewrite Hd. f_equal. f_equal.
      pose proof (Z.div_mod n 10 ltac:(lia)). lia.
    + assert (0 <= n / 10) by (apply Z.div_pos; lia).
      assert (n / 10 < n).
      { pose proof (Z.div_mod n 10 ltac:(lia)).
        pose proof (Z.mod_pos_bound n 10 ltac:(lia)). lia. }
      destruct (IH (n / 10)
                  (String (ascii_of_nat (48 + Z.to_nat (n mod 10))) rest) acc
                  ltac:(lia) ltac:(lia)) as (k & Hk & Hk0).
      exists (k + 1). split; [|lia]. rewrite Hk. cbn [digits]. rewrite Hd.
      f_equal. f_equal. cbn [default from_option Datatypes.id].
      rewrite Z.pow_add_r by lia.
      pose proof (Z.div_mod n 10 ltac:(lia)). lia.
Qed.

Lemma digitsOf_head (fuel : nat) (n : Z) (rest : string) :
  exists c tail,
    digitsOf (S fuel) n rest = String c tail
    /\ (exists d, digit_of c = Some d).
Proof.
  revert n rest. induction fuel as [|fuel IH]; intros n rest.
  - pose proof (digit_char n) as (Hd & _). cbv zeta in Hd.
    cbn [digitsOf]. destruct (n / 10 =? 0); eauto.
  - rewrite digitsOf_S. pose proof (digit_char n) as (Hd & _). cbv zeta in Hd.
    destruct (n / 10 =? 0); [eauto|]. apply IH.
Qed.

Lemma split_colon_digitsOf (fuel : nat) (n : Z) (rest : string) :
  split_colon (digitsOf fuel n rest)
  = match split_colon rest with
    | part :: parts => digitsOf fuel n part :: parts
    | [] => []
    end.
Proof.
  revert n rest. induction fuel as [|fuel IH]; intros n rest.
  - simpl. by destruct (split_colon rest).
  - pose proof (digit_char n) as (_ & Hc & _). cbv zeta in Hc.
    assert (split_colon (String (ascii_of_nat (48 + Z.to_nat (n mod 10))) rest)
            = match split_colon rest with
              | part :: parts =>
                  String (ascii_of_nat (48 + Z.to_nat (n mod 10))) part :: parts
              | [] => []
              end) as Hsplit.
    { cbn [split_colon]. rewrite Hc. pose proof (split_colon_nonempty rest).
      by destruct (split_colon rest). }
    destruct (n / 10 =? 0) eqn:E.
    + rewrite digitsOf_S, E, Hsplit. destruct (split_colon rest); [done|].
      by rewrite digitsOf_S, E.
    + rewrite digitsOf_S, E, IH, Hsplit. destruct (split_colon rest); [done|].
      by rewrite digitsOf_S, E.
Qed.

Lemma parseInt10_digit (c : ascii) (tail : string) d :
  digit_of c = Some d ->
  parseInt10 (String c tail) = digits (String c tail) None.
Proof.
  destruct c as [[] [] [] [] [] [] [] []]; intros Hd; try discriminate Hd; reflexivity.
Qed.

Lemma parseInt10_numberToString (d : Z) : parseInt10 (numberToString d) = Some d.
Proof.
  unfold numberToString. destruct (Z.ltb_spec d 0) as [Hneg|Hpos].
  - unfold parseInt10. cbn [skip_space]. change (is_space "-"%char) with false.
    cbv iota.
    destruct (digits_digitsOf (Z.to_nat (- d)) (- d) EmptyString None
                ltac:(lia) ltac:(lia)) as (k & Hk & _).
    rewrite Hk. simpl. f_equal. lia.
  - destruct (digitsOf_head (Z.to_nat d) d EmptyString) as (c & tail & Hs & dd & Hc).
    destruct (digits_digitsOf (Z.to_nat d) d EmptyString None
                ltac:(lia) ltac:(lia)) as (k & Hk & _).
    rewrite Hs in Hk |- *. rewrite (parseInt10_digit c tail dd Hc), Hk. done.
Qed.

Lemma getCacheKeyDepthLimit_numberToString (d : Z) :
  getCacheKeyDepthLimit (numberToString d) = Some d.
Proof.
  unfold getCacheKeyDepthLimit.
  assert (split_colon (numberToString d) = [numberToString d]) as ->.
  { unfold numberToString. destruct (d <? 0).
    - cbn [split_colon]. change (Ascii.eqb "-"%char ":"%char) with false. cbv iota.
      by rewrite split_colon_digitsOf.
    - by rewrite split_colon_digitsOf. }
  apply parseInt10_numberToString.
Qed.

Lemma forFile_prefix (fileKey rest : string) :
  forFile fileKey (fileKey +:+ ":" +:+ rest) = true.
Proof.
  unfold forFile. induction fileKey as [|c fileKey IH]; simpl.
  - by destruct rest.
  - rewrite IH. by destruct (Ascii.ascii_dec c c).
Qed.

(** X16.  The key that [getNode] builds is read back by the cache as it was
    meant: it is a key of the file, and its depth limit is the depth of the
    request when that is a nonzero number (an integer that JavaScript prints
    in plain decimal notation) and absent when the depth is missing or 0. *)
Theorem cacheKeyOf_is_read_back (fileKey nodeIds : string) (depth : option Z) :
  (forall d, depth = Some d -> Z.abs d < 10 ^ 21) ->
  forFile fileKey (cacheKeyOf fileKey nodeIds depth) = true
  /\ getCacheKeyDepthLimit (cacheKeyOf fileKey nodeIds depth) = truthyDepth depth.
Proof.
  intros _. split; [apply forFile_prefix|].
  unfold cacheKeyOf.
  change (fileKey +:+ ":" +:+ nodeIds +:+ ":" +:+ ?t)
    with (fileKey +:+ String ":"%char (nodeIds +:+ String ":"%char t)).
  rewrite !getCacheKeyDepthLimit_last_part.
  destruct (truthyDepth depth) as [d|]; [apply getCacheKeyDepthLimit_numberToString|].
  reflexivity.
Qed.

Lemma cacheKeyOf_is_read_back_witness :
  getCacheKeyDepthLimit (cacheKeyOf "file1" "1:2,3:4" (Some 12)) = Some 12.
Proof.
  apply (cacheKeyOf_is_read_back "file1" "1:2,3:4" (Some 12)).
  intros d [= <-]. reflexivity.
Defined.

(** *** [getNode] *)

Lemma split_comma_nonempty (s : string) : split_comma s <> [].
Proof.
  destruct s as [|c rest]; [done|]. simpl.
  destruct (Ascii.eqb c ","%char); [done|]. by destruct (split_comma rest).
Qed.

(** A hit of [get] leaves the entry in the store. *)
Lemma get_hit_stays cacheKey validationParams s d :
  (Cache.get cacheKey validationParams s).1 = Some d ->
  exists item,
    data item = d
    /\ LRU.Map_get cacheKey (LRU.cache (store s)) = Some item
    /\ LRU.Map_get cacheKey
         (LRU.cache (store (Cache.get cacheKey validationParams s).2)) = Some item.
Proof.
  unfold Cache.get, bind, withStore, LRU.get.
  destruct (LRU.Map_get cacheKey (LRU.cache (store s))) as [item|] eqn:Hitem;
    simpl; [|done].
  destruct validationParams as [params|]; simpl.
  - pose proof (validateCacheItem_store item params
                  (mkState (LRU.moveToFront cacheKey (store s)) (metaCalls s)))
      as Hstore.
    destruct (validateCacheItem item params _) as [[|] s2]; simpl in *.
    + intros [= <-]. exists item. by rewrite Hstore, LRUFacts.moveToFront_cache.
    + by destruct (LRU.delete cacheKey (store s2)).
  - intros [= <-]. exists item. by rewrite LRUFacts.moveToFront_cache.
Qed.

Lemma put_stored cacheKey design marker s :
  LRU.Map_get cacheKey (LRU.cache (store (put cacheKey design marker s).2))
  = Some (mkItem design marker).
Proof.
  unfold put, withStore. simpl.
  destruct (LRUMore.put_cache cacheKey (mkItem design marker) (store s))
    as (m & -> & _).
  rewrite LRUMore.Map_get_set. by rewrite decide_True.
Qed.

(** When ids were asked for, either one of them is missing or a source
    design was recorded. *)
Lemma found_source_or_missing fileKey nodeIds validationParams requiredDepth s :
  nodeIds <> [] ->
  let found := (findMultipleNodes fileKey nodeIds validationParams requiredDepth s).1 in
  missingNodeIds found <> [] \/ is_Some (sourceDesign found).
Proof.
  intros Hne. cbv zeta. unfold findMultipleNodes.
  pose proof (loop_first_hit fileKey nodeIds validationParams requiredDepth
                (mkMultiple [] [] None) s eq_refl eq_refl) as Hfirst.
  pose proof (loop_accounts fileKey nodeIds validationParams requiredDepth
                (mkMultiple [] [] None) s) as Hacc.
  cbv zeta in Hfirst.
  destruct (findMultipleNodes_loop fileKey nodeIds validationParams requiredDepth
              (mkMultiple [] [] None) s) as [res s1].
  simpl in *.
  destruct Hfirst as [[Hnil _]|Hhit].
  - left. destruct Hacc as ((hits & misses & Hh & Hm & _ & _ & Hperm) & _).
    subst hits. rewrite Hnil in Hperm. simpl in Hperm.
    intros Hmiss. rewrite Hm, Hmiss in *. subst misses.
    apply Permutation_nil_r in Hperm. done.
  - right. by destruct Hhit as (? & ? & ? & ? & ? & ? & ? & _ & _ & _ & _ & _ & Hsome).
Qed.

(** The ways through [getNode] when the cache is on. *)
Lemma getNode_cached_cases remote fileKey ids depth sv :
  let nodeIds := normalizeFigmaNodeId ids in
  let cacheKey := cacheKeyOf fileKey nodeIds depth in
  let params := mkParams fileKey (metaResponse remote) in
  let hit := Cache.get cacheKey (Some params) (cacheState sv) in
  let search :=
    findMultipleNodes fileKey (map trim (split_comma nodeIds)) (Some params) depth
      hit.2 in
  let found := search.1 in
  let missing := missingNodeIds found in
  let request := (fileKey, join_comma missing, truthyDepth depth) in
  let response :=
    nodesResponse remote fileKey (join_comma missing) (truthyDepth depth)
      (length (fetches sv)) in
  let '(out, sv1) := getNode true remote fileKey ids depth sv in
  match hit.1 with
  | Some d => out = Returned d /\ sv1 = mkService hit.2 (fetches sv)
  | None =>
      match missing with
      | [] =>
          exists source,
            sourceDesign found = Some source
            /\ out = Returned (mergeNodesAsDesign source (cachedNodes found))
            /\ sv1 = mkService
                       (put cacheKey (mergeNodesAsDesign source (cachedNodes found))
                          (Some (lastModified source)) search.2).2
                       (fetches sv)
      | _ :: _ =>
          match response with
          | Rejected =>
              out = FetchFailed
              /\ sv1 = mkService search.2 (fetches sv ++ [request])
          | Fulfilled r =>
              let final :=
                mergeNodesAsDesign (default r (sourceDesign found))
                  (cachedNodes found ++ nodes r) in
              out = Returned final
              /\ sv1 = mkService
                         (put cacheKey final (Some (lastModified final)) search.2).2
                         (fetches sv ++ [request])
          end
      end
  end.
Proof.
  cbv zeta. unfold getNode. cbn [negb].
  destruct (Cache.get _ _ (cacheState sv)) as [[d|] s1]; cbn [fst snd]; [done|].
  pose proof (found_source_or_missing fileKey
                (map trim (split_comma (normalizeFigmaNodeId ids)))
                (Some (mkParams fileKey (metaResponse remote))) depth s1) as Hfound.
  cbv zeta in Hfound.
  destruct (findMultipleNodes _ _ _ depth s1) as [found s2]; cbn [fst snd] in *.
  destruct (missingNodeIds found) as [|m ms] eqn:Hmissing.
  - destruct Hfound as [Hfound|[source Hsource]].
    { intros Hnil. pose proof (split_comma_nonempty (normalizeFigmaNodeId ids)).
      by destruct (split_comma (normalizeFigmaNodeId ids)). }
    { done. }
    rewrite Hsource. eauto.
  - unfold fetchAndProcessNodes. cbn [fetches cacheState].
    destruct (nodesResponse remote fileKey (join_comma (m :: ms)) (truthyDepth depth)
                (length (fetches sv))) as [r|]; [|by destruct (sourceDesign found)].
    by destruct (sourceDesign found).
Qed.

(** Every node that the search takes from the cache obeys the depth that
    was asked for. *)
Lemma loop_hits_within_depth fileKey nodeIds validationParams requiredDepth acc s :
  let within node :=
    forall d, requiredDepth = Some d -> 0 <= d -> getNodeDepth node <= d in
  Forall within (cachedNodes acc) ->
  Forall within
    (cachedNodes
       (findMultipleNodes_loop fileKey nodeIds validationParams requiredDepth acc s).1).
Proof.
  cbv zeta. revert acc s. induction nodeIds as [|nodeId rest IH]; intros acc s Hacc;
    [done|].
  cbn [findMultipleNodes_loop]. unfold bind.
  pose proof (findNodeData_hit_core fileKey nodeId
                validationParams requiredDepth s) as Hhit.
  destruct (findNodeData fileKey nodeId validationParams requiredDepth s)
    as [[node|] s1]; cbn [fst snd] in *.
  - unfold readStore. apply IH. cbn [cachedNodes].
    apply Forall_app. split; [done|]. apply Forall_singleton.
    intros d -> Hd.
    destruct (Hhit node eq_refl) as (_ & _ & _ & stored & _ & _ & _ & Hnode).
    destruct (Z.geb_spec d 0) as [_|]; [|lia]. by destruct Hnode.
  - by apply IH.
Qed.



(** X18.  One call of [getNode] makes at most one fetch of nodes, and
    which one is settled by the cache.  With the cache off it asks for the
    normalised ids and leaves the cache alone.  With the cache on it makes no
    fetch when the key is hit, and none when [findMultipleNodes], run on the
    trimmed ids after the miss, reports no id missing; otherwise it asks for
    exactly the ids reported missing, joined by commas in the order of the
    request.  A depth that is missing or 0 is never sent. *)
Theorem getNode_fetches_only_what_is_missing useCache remote fileKey ids depth sv :
  let nodeIds := normalizeFigmaNodeId ids in
  let cacheKey := cacheKeyOf fileKey nodeIds depth in
  let params := mkParams fileKey (metaResponse remote) in
  let hit := Cache.get cacheKey (Some params) (cacheState sv) in
  let found :=
    (findMultipleNodes fileKey (map trim (split_comma nodeIds)) (Some params)
       depth hit.2).1 in
  let sv1 := (getNode useCache remote fileKey ids depth sv).2 in
  fetches sv1
  = fetches sv
    ++ (if useCache then
          match hit.1, missingNodeIds found with
          | Some _, _ => []
          | None, [] => []
          | None, missing => [(fileKey, join_comma missing, truthyDepth depth)]
          end
        else [(fileKey, nodeIds, truthyDepth depth)])
  /\ (if useCache
      then missingNodeIds found `sublist_of` map trim (split_comma nodeIds)
      else cacheState sv1 = cacheState sv).
Proof.
  cbv zeta. destruct useCache.
  - pose proof (getNode_cached_cases remote fileKey ids depth sv) as Hcases.
    cbv zeta in Hcases.
    destruct (getNode true remote fileKey ids depth sv) as [out sv1].
    cbn [fst snd].
    pose proof (loop_accounts fileKey
                  (map trim (split_comma (normalizeFigmaNodeId ids)))
                  (Some (mkParams fileKey (metaResponse remote))) depth
                  (mkMultiple [] [] None)
                  (Cache.get (cacheKeyOf fileKey (normalizeFigmaNodeId ids) depth)
                     (Some (mkParams fileKey (metaResponse remote)))
                     (cacheState sv)).2) as Hacc.
    unfold findMultipleNodes in *.
    destruct (findMultipleNodes_loop _ _ _ depth _ _) as [found s2];
      cbn [fst snd] in *.
    destruct Hacc as ((hits & misses & _ & Hmisses & _ & Hsub & _) & _).
    cbn [missingNodeIds app] in Hmisses. split; [|by rewrite Hmisses].
    destruct (Cache.get _ _ (cacheState sv)).1 as [d|].
    { destruct Hcases as [_ ->]. cbn [fetches]. by rewrite app_nil_r. }
    destruct (missingNodeIds found) as [|m ms].
    { destruct Hcases as (source & _ & _ & ->). cbn [fetches]. by rewrite app_nil_r. }
    by destruct (nodesResponse remote fileKey (join_comma (m :: ms))
                   (truthyDepth depth) (length (fetches sv)));
      destruct Hcases as [_ ->].
  - unfold getNode, fetchAndProcessNodes. cbn [negb].
    by destruct (nodesResponse remote fileKey (normalizeFigmaNodeId ids)
                   (truthyDepth depth) (length (fetches sv))).
Qed.

(** X19.  With the cache on, a design that [getNode] returns is in the cache
    under the key of the request when the call ends, so that [get] without
    validation returns it; when the key was not hit, the entry carries the
    design's own [lastModified] as its stamp. *)
Theorem getNode_result_is_cached remote fileKey ids depth sv d :
  (getNode true remote fileKey ids depth sv).1 = Returned d ->
  let cacheKey := cacheKeyOf fileKey (normalizeFigmaNodeId ids) depth in
  let params := mkParams fileKey (metaResponse remote) in
  let s1 := cacheState (getNode true remote fileKey ids depth sv).2 in
  exists item,
    LRU.Map_get cacheKey (LRU.cache (store s1)) = Some item
    /\ data item = d
    /\ (Cache.get cacheKey None s1).1 = Some d
    /\ ((Cache.get cacheKey (Some params) (cacheState sv)).1 = None ->
        lastTouchedAt item = Some (lastModified d)).
Proof.
  cbv zeta.
  pose proof (getNode_cached_cases remote fileKey ids depth sv) as Hcases.
  cbv zeta in Hcases.
  destruct (getNode true remote fileKey ids depth sv) as [out sv1].
  cbn [fst snd]. intros ->.
  assert (forall item,
            LRU.Map_get (cacheKeyOf fileKey (normalizeFigmaNodeId ids) depth)
              (LRU.cache (store (cacheState sv1))) = Some item ->
            (Cache.get (cacheKeyOf fileKey (normalizeFigmaNodeId ids) depth) None
               (cacheState sv1)).1 = Some (data item)) as Hget.
  { intros item Hitem. unfold Cache.get, bind, withStore, LRU.get.
    by rewrite Hitem. }
  pose proof (get_hit_stays (cacheKeyOf fileKey (normalizeFigmaNodeId ids) depth)
                (Some (mkParams fileKey (metaResponse remote))) (cacheState sv))
    as Hstays.
  destruct (Cache.get _ (Some _) (cacheState sv)) as [[d'|] s1]; cbn [fst snd] in *.
  { destruct Hcases as [[= <-] ->]. cbn [cacheState] in *.
    destruct (Hstays d eq_refl) as (item & Hdata & _ & Hitem).
    exists item. split; [done|]. split; [done|]. split; [|done].
    by rewrite (Hget item Hitem), Hdata. }
  clear Hstays.
  destruct (missingNodeIds _) as [|m ms].
  { destruct Hcases as (source & _ & [= ->] & ->). cbn [cacheState] in *.
    eexists. split; [apply put_stored|]. split; [done|].
    split; [|done]. by rewrite (Hget _ (put_stored _ _ _ _)). }
  destruct (nodesResponse remote fileKey (join_comma (m :: ms)) (truthyDepth depth)
              (length (fetches sv))) as [r|]; [|by destruct Hcases].
  destruct Hcases as [[= ->] ->]. cbn [cacheState] in *.
  eexists. split; [apply put_stored|]. split; [done|].
  split; [|done]. by rewrite (Hget _ (put_stored _ _ _ _)).
Qed.

Lemma getNode_result_is_cached_witness :
  (Cache.get "file1:node:1,node:2:default" None
     (cacheState
        (getNode true Samples.library "file1" "node-1,node-2" None
           Samples.freshService).2)).1
  = Some Samples.mockMultiNodeDesign.
Proof.
  destruct (getNode_result_is_cached Samples.library "file1" "node-1,node-2" None
              Samples.freshService Samples.mockMultiNodeDesign)
    as (item & _ & _ & Hget & _); [vm_compute; reflexivity|exact Hget].
Defined.

(** X20.  A second identical request is served from the cache: when a call
    returned a design and the entry of its key is judged fresh at the next
    call, that call returns the same design and makes no fetch. *)
Theorem getNode_repeat_is_served_from_cache remote fileKey ids depth sv d :
  (getNode true remote fileKey ids depth sv).1 = Returned d ->
  let cacheKey := cacheKeyOf fileKey (normalizeFigmaNodeId ids) depth in
  let params := mkParams fileKey (metaResponse remote) in
  let sv1 := (getNode true remote fileKey ids depth sv).2 in
  (forall item,
      LRU.Map_get cacheKey (LRU.cache (store (cacheState sv1))) = Some item ->
      (validateCacheItem item params (cacheState sv1)).1 = true) ->
  (getNode true remote fileKey ids depth sv1).1 = Returned d
  /\ fetches (getNode true remote fileKey ids depth sv1).2 = fetches sv1.
Proof.
  cbv zeta. intros Hout Hfresh.
  pose proof (getNode_cached_cases remote fileKey ids depth sv) as Hcases.
  cbv zeta in Hcases.
  pose proof (get_hit_stays (cacheKeyOf fileKey (normalizeFigmaNodeId ids) depth)
                (Some (mkParams fileKey (metaResponse remote))) (cacheState sv))
    as Hstays.
  destruct (getNode true remote fileKey ids depth sv) as [out sv1].
  cbn [fst snd] in *. subst out.
  assert (exists item,
            LRU.Map_get (cacheKeyOf fileKey (normalizeFigmaNodeId ids) depth)
              (LRU.cache (store (cacheState sv1))) = Some item
            /\ data item = d) as (item & Hitem & Hdata).
  { destruct (Cache.get _ (Some _) (cacheState sv)) as [[d'|] s1]; cbn [fst snd] in *.
    { destruct Hcases as [[= <-] ->]. cbn [cacheState].
      destruct (Hstays d eq_refl) as (item & Hdata & _ & Hitem). eauto. }
    destruct (missingNodeIds _) as [|m ms].
    { destruct Hcases as (source & _ & [= <-] & ->). cbn [cacheState].
      eexists. split; [apply put_stored|done]. }
    destruct (nodesResponse remote fileKey (join_comma (m :: ms)) (truthyDepth depth)
                (length (fetches sv))) as [r|]; [|by destruct Hcases].
    destruct Hcases as [[= <-] ->]. cbn [cacheState].
    eexists. split; [apply put_stored|done]. }
  clear Hcases Hstays. specialize (Hfresh item Hitem).
  unfold getNode. cbn [negb].
  unfold Cache.get, bind, withStore, LRU.get. rewrite Hitem. cbn [fst snd].
  pose proof (validateCacheItem_verdict_calls item
                (mkParams fileKey (metaResponse remote))
                (mkState (LRU.moveToFront
                            (cacheKeyOf fileKey (normalizeFigmaNodeId ids) depth)
                            (store (cacheState sv1)))
                   (metaCalls (cacheState sv1)))
                (cacheState sv1) eq_refl) as Hverdict.
  rewrite Hfresh in Hverdict.
  destruct (validateCacheItem item _ (mkState _ _)) as [valid s2].
  cbn [fst] in Hverdict. subst valid. cbn [negb fst snd fetches]. by rewrite Hdata.
Qed.

Lemma getNode_repeat_is_served_from_cache_witness :
  let sv1 := (getNode true Samples.library "file1" "node-1,node-2" None
                Samples.freshService).2 in
  (getNode true Samples.library "file1" "node-1,node-2" None sv1).1
  = Returned Samples.mockMultiNodeDesign
  /\ fetches (getNode true Samples.library "file1" "node-1,node-2" None sv1).2
     = fetches sv1.
Proof.
  apply (getNode_repeat_is_served_from_cache Samples.library "file1" "node-1,node-2"
           None Samples.freshService Samples.mockMultiNodeDesign).
  - vm_compute. reflexivity.
  - intros item Hitem. vm_compute in Hitem. injection Hitem as <-.
    vm_compute. reflexivity.
Defined.

(** X21.  What a merged answer holds: when the key is not hit and a design
    is returned, its nodes are the nodes taken from the cache followed by
    the nodes of the response; the cached ones carry requested ids, account
    with the missing ids for every id of the request, and are no deeper than
    a depth of 0 or more that was asked for.  The other fields come from the
    recorded source design, or from the response when none was recorded. *)
Theorem getNode_merges_cached_and_fetched remote fileKey ids depth sv d :
  let nodeIds := normalizeFigmaNodeId ids in
  let cacheKey := cacheKeyOf fileKey nodeIds depth in
  let params := mkParams fileKey (metaResponse remote) in
  (Cache.get cacheKey (Some params) (cacheState sv)).1 = None ->
  (getNode true remote fileKey ids depth sv).1 = Returned d ->
  exists cached fetched missing,
    nodes d = cached ++ fetched
    /\ map trim (split_comma nodeIds) ≡ₚ (id <$> cached) ++ missing
    /\ Forall (fun node => forall limit,
                 depth = Some limit -> 0 <= limit -> getNodeDepth node <= limit)
         cached
    /\ match missing with
       | [] => fetched = []
       | _ :: _ =>
           exists r,
             nodesResponse remote fileKey (join_comma missing) (truthyDepth depth)
               (length (fetches sv)) = Fulfilled r
             /\ fetched = nodes r
             /\ (cached = [] -> d = r)
       end.
Proof.
  cbv zeta. intros Hmiss Hout.
  pose proof (getNode_cached_cases remote fileKey ids depth sv) as Hcases.
  cbv zeta in Hcases.
  destruct (getNode true remote fileKey ids depth sv) as [out sv1].
  cbn [fst snd] in *. subst out. rewrite Hmiss in Hcases.
  set (s1 := (Cache.get _ _ (cacheState sv)).2) in *. clearbody s1.
  pose proof (loop_accounts fileKey
                (map trim (split_comma (normalizeFigmaNodeId ids)))
                (Some (mkParams fileKey (metaResponse remote))) depth
                (mkMultiple [] [] None) s1) as Hacc.
  pose proof (loop_hits_within_depth fileKey
                (map trim (split_comma (normalizeFigmaNodeId ids)))
                (Some (mkParams fileKey (metaResponse remote))) depth
                (mkMultiple [] [] None) s1 (Forall_nil_2 _)) as Hdepth.
  pose proof (loop_first_hit fileKey
                (map trim (split_comma (normalizeFigmaNodeId ids)))
                (Some (mkParams fileKey (metaResponse remote))) depth
                (mkMultiple [] [] None) s1 eq_refl eq_refl) as Hfirst.
  cbv zeta in Hfirst.
  unfold findMultipleNodes in Hcases.
  destruct (findMultipleNodes_loop _ _ _ depth _ s1) as [found s2];
    cbn [fst snd] in *.
  destruct Hacc as ((hits & misses & Hhits & Hmisses & _ & _ & Hperm) & _).
  cbn [cachedNodes missingNodeIds app] in Hhits, Hmisses. subst hits misses.
  exists (cachedNodes found).
  destruct (missingNodeIds found) as [|m ms] eqn:Hmissing.
  { destruct Hcases as (source & _ & [= ->] & _).
    exists [], []. cbn [mergeNodesAsDesign createDesignFromNodes nodes].
    by rewrite app_nil_r. }
  destruct (nodesResponse remote fileKey (join_comma (m :: ms)) (truthyDepth depth)
              (length (fetches sv))) as [r|] eqn:Hresponse; [|by destruct Hcases].
  destruct Hcases as [[= ->] _].
  exists (nodes r), (m :: ms). split; [done|]. split; [done|]. split; [done|].
  exists r. split; [done|]. split; [done|]. intros Hnone.
  destruct Hfirst as [[_ Hsource]|Hhit].
  - rewrite Hsource, Hnone. by destruct r.
  - destruct Hhit as (? & ? & ? & ? & ? & ? & ? & _ & _ & _ & Hcons & _).
    by rewrite Hnone in Hcons.
Qed.

Lemma getNode_merges_cached_and_fetched_witness :
  exists cached fetched missing,
    nodes Samples.mockMultiNodeDesign = cached ++ fetched
    /\ map trim (split_comma (normalizeFigmaNodeId "node-1,node-2"))
       ≡ₚ (id <$> cached) ++ missing
    /\ Forall (fun node => forall limit,
                 None = Some limit -> 0 <= limit -> getNodeDepth node <= limit)
         cached
    /\ match missing with
       | [] => fetched = []
       | _ :: _ =>
           exists r,
             nodesResponse Samples.library "file1" (join_comma missing)
               (truthyDepth None) (length (fetches Samples.freshService))
             = Fulfilled r
             /\ fetched = nodes r
             /\ (cached = [] -> Samples.mockMultiNodeDesign = r)
       end.
Proof.
  apply (getNode_merges_cached_and_fetched Samples.library "file1" "node-1,node-2"
           None Samples.freshService Samples.mockMultiNodeDesign);
    vm_compute; reflexivity.
Defined.

End ServiceFacts.

(** ** More on the tree helpers *)

Module TreeMore.
Import Tree TreeFacts CacheFacts.

Lemma fold_left_max_min (l : list Z) (x k : Z) :
  fold_left Z.max (map (fun y => Z.min y k) l) (Z.min x k)
  = Z.min (fold_left Z.max l x) k.
Proof.
  revert x. induction l as [|y l IH]; intros x; [done|].
  cbn [map fold_left].
  replace (Z.max (Z.min x k) (Z.min y k)) with (Z.min (Z.max x y) k) by lia.
  apply IH.
Qed.

Lemma children_depth_below i n t (cs : list SimplifiedNode) :
  Forall (fun c => getNodeDepth c <= getNodeDepth (mkNode i n t (Some cs)) - 1) cs.
Proof.
  destruct cs as [|c cs]; [done|]. rewrite getNodeDepth_cons.
  apply Forall_cons. split.
  - pose proof (fold_left_max_ge_init (map getNodeDepth cs) (getNodeDepth c)). lia.
  - apply Forall_forall. intros c' Hc'.
    pose proof (fold_left_max_ge_elem (map getNodeDepth cs) (getNodeDepth c)
                  (getNodeDepth c')) as Hge.
    assert (getNodeDepth c' ∈ map getNodeDepth cs) as Hin.
    { apply list_elem_of_In, in_map, list_elem_of_In, Hc'. }
    specialize (Hge Hin). lia.
Qed.

(** X22.  The depth of a truncated node is exactly the smaller of the depth
    it had and the limit (a limit below 0 counting as 0). *)
Theorem limitNodeDepth_exact_depth node d :
  getNodeDepth (limitNodeDepth node d) = Z.min (getNodeDepth node) (Z.max d 0).
Proof.
  revert d. induction node as [i n t|i n t cs IH] using SimplifiedNode_ind; intros d.
  - destruct (Z.leb_spec d 0) as [Hd|Hd].
    + rewrite limitNodeDepth_cut by done. cbn. lia.
    + rewrite limitNodeDepth_childless by (lia || by left). cbn. lia.
  - pose proof (getNodeDepth_nonneg (mkNode i n t (Some cs))) as Hnonneg.
    destruct (Z.leb_spec d 0) as [Hd|Hd].
    + rewrite limitNodeDepth_cut by done.
      change (getNodeDepth (mkNode _ _ _ None)) with 0. lia.
    + destruct cs as [|c cs].
      * rewrite limitNodeDepth_childless by (lia || by right). cbn. lia.
      * rewrite limitNodeDepth_keep by done. cbn [map].
        rewrite !getNodeDepth_cons. apply Forall_cons in IH as [IHc IHcs].
        rewrite IHc, map_map.
        rewrite (map_ext_Forall _ (fun c => Z.min (getNodeDepth c) (d - 1))).
        2:{ eapply Forall_impl; [exact IHcs|]. intros c' Hc'. cbn beta.
            rewrite Hc'. lia. }
        rewrite <- (map_map getNodeDepth (fun y => Z.min y (d - 1))).
        replace (Z.max (d - 1) 0) with (d - 1) by lia.
        rewrite fold_left_max_min. lia.
Qed.

(** X23.  Truncating twice is truncating once at the smaller limit. *)
Theorem limitNodeDepth_composes node a b :
  limitNodeDepth (limitNodeDepth node a) b = limitNodeDepth node (Z.min a b).
Proof.
  revert a b.
  induction node as [i n t|i n t cs IH] using SimplifiedNode_ind; intros a b.
  - destruct (Z.leb_spec a 0) as [Ha|Ha], (Z.leb_spec b 0) as [Hb|Hb].
    + by rewrite !limitNodeDepth_cut by lia.
    + rewrite (limitNodeDepth_cut _ a), (limitNodeDepth_cut _ (Z.min a b)) by lia.
      by rewrite limitNodeDepth_childless by (lia || by left).
    + rewrite (limitNodeDepth_childless _ _ _ _ a) by (lia || by left).
      by rewrite !limitNodeDepth_cut by lia.
    + by rewrite !limitNodeDepth_childless by (lia || by left).
  - destruct (Z.leb_spec a 0) as [Ha|Ha], (Z.leb_spec b 0) as [Hb|Hb].
    + by rewrite !limitNodeDepth_cut by lia.
    + rewrite (limitNodeDepth_cut _ a), (limitNodeDepth_cut _ (Z.min a b)) by lia.
      by rewrite limitNodeDepth_childless by (lia || by left).
    + rewrite (limitNodeDepth_cut _ b), (limitNodeDepth_cut _ (Z.min a b)) by lia.
      by destruct (limitNodeDepth_fields (mkNode i n t (Some cs)) a) as (-> & -> & ->).
    + destruct cs as [|c cs].
      * by rewrite !limitNodeDepth_childless by (lia || by right).
      * rewrite (limitNodeDepth_keep _ _ _ _ _ a),
          (limitNodeDepth_keep _ _ _ _ _ (Z.min a b)) by lia.
        cbn [map]. rewrite limitNodeDepth_keep by lia. cbn [map].
        apply Forall_cons in IH as [IHc IHcs].
        rewrite IHc, map_map.
        replace (Z.min (a - 1) (b - 1)) with (Z.min a b - 1) by lia.
        do 3 f_equal.
        apply map_ext_Forall. eapply Forall_impl; [exact IHcs|].
        intros c' Hc'. cbn beta. rewrite Hc'. f_equal. lia.
Qed.

(** X24.  A node that is shallower than the limit comes back unchanged. *)
Theorem limitNodeDepth_leaves_shallow_nodes node d :
  getNodeDepth node < d -> limitNodeDepth node d = node.
Proof.
  revert d. induction node as [i n t|i n t cs IH] using SimplifiedNode_ind;
    intros d Hd.
  - apply limitNodeDepth_childless; [cbn in Hd; lia|by left].
  - pose proof (getNodeDepth_nonneg (mkNode i n t (Some cs))) as Hnonneg.
    pose proof (children_depth_below i n t cs) as Hbelow.
    destruct cs as [|c cs].
    + apply limitNodeDepth_childless; [lia|by right].
    + rewrite limitNodeDepth_keep by lia. f_equal. f_equal.
      rewrite <- (map_id (c :: cs)) at 2. apply map_ext_Forall.
      apply Forall_forall. intros c' Hc'.
      rewrite Forall_forall in IH, Hbelow.
      apply IH; [done|]. specialize (Hbelow c' Hc'). lia.
Qed.

Lemma limitNodeDepth_leaves_shallow_nodes_witness :
  limitNodeDepth Samples.mockNode1 3 = Samples.mockNode1.
Proof.
  apply (limitNodeDepth_leaves_shallow_nodes Samples.mockNode1 3).
  vm_compute. reflexivity.
Defined.

Lemma findNode_in_complete targetId (nodes : list SimplifiedNode) path m :
  subnode nodes path = Some m ->
  id m = targetId ->
  is_Some (for_of (findNode_in targetId) nodes).
Proof.
  revert nodes. induction path as [|i rest IH]; intros nodes Hsub Hid; [done|].
  cbn [subnode] in Hsub.
  destruct (nth_error nodes i) as [n|] eqn:Hnth; [|done].
  assert (is_Some (findNode_in targetId n)) as [r Hr].
  { destruct n as [ni nn nt ncs]. cbn [findNode_in id children].
    destruct (String.eqb_spec ni targetId) as [_|Hne]; [done|].
    destruct rest as [|j rest'].
    - injection Hsub as <-. done.
    - cbn [children] in Hsub. destruct ncs as [cs|]; [|done].
      by apply IH. }
  destruct (for_of (findNode_in targetId) nodes) as [r'|] eqn:Hfor; [done|].
  rewrite for_of_None in Hfor.
  rewrite (Hfor n) in Hr; [done|]. apply list_elem_of_In.
  by apply nth_error_In with i.
Qed.

(** X25.  [findNodeInTree] finds a node exactly when some node of the
    forest, at any level, carries the id. *)
Theorem findNodeInTree_finds_what_is_there (nodes : list SimplifiedNode) targetId :
  is_Some (findNodeInTree nodes targetId)
  <-> exists path m, subnode nodes path = Some m /\ id m = targetId.
Proof.
  split.
  - intros [node Hnode]. pose proof (findNodeInTree_depth nodes targetId) as Hdepth.
    rewrite Hnode in Hdepth. destruct Hdepth as (Hid & path & Hsub & _). eauto.
  - intros (path & m & Hsub & Hid). by apply findNode_in_complete with path m.
Qed.

End TreeMore.

(** ** The utilities *)

Module CommonFacts.
Import Common.

Lemma Value_ind (P : Value -> Prop) :
  P Undefined -> P Null -> (forall text, P (Prim text)) ->
  (forall items, Forall P items -> P (Arr items)) ->
  (forall members, Forall (fun member => P member.2) members -> P (Obj members)) ->
  forall v, P v.
Proof.
  intros Hu Hn Hp Ha Ho. fix IH 1. intros [| |text|items|members]; [done..| |].
  - apply Ha. induction items as [|x items IHitems]; constructor; [apply IH|done].
  - apply Ho. induction members as [|[k x] members IHm]; constructor; [apply IH|done].
Qed.

Lemma removeEmptyKeys_clean v :
  noEmptyMembers (removeEmptyKeys v) = true
  /\ ordinaryKeys (removeEmptyKeys v) = true.
Proof.
  induction v as [| |text|items IH|members IH] using Value_ind; [done..| |].
  - cbn [removeEmptyKeys noEmptyMembers ordinaryKeys]. rewrite !forallb_forall.
    rewrite Forall_forall in IH.
    split; intros x Hx; apply in_map_iff in Hx as (y & <- & Hy);
      apply IH; by apply list_elem_of_In.
  - cbn [removeEmptyKeys noEmptyMembers ordinaryKeys]. rewrite !forallb_forall.
    rewrite Forall_forall in IH.
    split; intros [k x] Hx; apply list_elem_of_In, list_elem_of_omap in Hx
      as ([k' y] & Hy & Hkeep);
      unfold keepMember in Hkeep; cbn [fst snd] in *;
      destruct (isEmpty (removeEmptyKeys y)) eqn:Hempty; [done| |done|];
      destruct (isProto k') eqn:Hproto; [done| |done|];
      injection Hkeep as <- <-; destruct (IH (k', y) Hy) as [Hclean Hkeys];
      cbn [snd] in *.
    + by rewrite Hempty, Hclean.
    + by rewrite Hproto, Hkeys.
Qed.

Lemma removeEmptyKeys_fixed v :
  noEmptyMembers v = true -> ordinaryKeys v = true -> removeEmptyKeys v = v.
Proof.
  induction v as [| |text|items IH|members IH] using Value_ind; [done..| |].
  - cbn [removeEmptyKeys noEmptyMembers ordinaryKeys]. rewrite !forallb_forall.
    intros Hall Hkeys.
    f_equal. rewrite <- (map_id items) at 2. apply map_ext_Forall.
    rewrite Forall_forall in IH |- *. intros x Hx.
    apply IH; [done|apply Hall|apply Hkeys]; by apply list_elem_of_In.
  - cbn [removeEmptyKeys noEmptyMembers ordinaryKeys]. rewrite !forallb_forall.
    intros Hall Hkeys.
    f_equal. induction members as [|[k x] members IHm]; [done|].
    apply Forall_cons in IH as [IHx IHrest]. cbn [omap list_omap fst snd].
    pose proof (Hall (k, x) (or_introl eq_refl)) as Hx.
    pose proof (Hkeys (k, x) (or_introl eq_refl)) as Hk. cbn [fst snd] in Hx, Hk.
    apply andb_true_iff in Hx as [Hne Hclean].
    apply andb_true_iff in Hk as [Hproto Hordinary]. cbn [snd] in IHx.
    rewrite (IHx Hclean Hordinary). unfold keepMember.
    apply negb_true_iff in Hne, Hproto. rewrite Hne, Hproto. f_equal.
    apply IHm; [done| |]; intros y Hy; [apply Hall|apply Hkeys]; by right.
Qed.

(** X26.  [removeEmptyKeys] leaves no member behind that it would skip: in
    its result no object, at any level, has a member that is [undefined], an
    empty array or an object without keys, and none has a member named
    [__proto__] (the assignment to that key makes no member); applying it
    again changes nothing, and a value that has no such member is returned
    as it is. *)
Theorem removeEmptyKeys_result_is_clean v :
  noEmptyMembers (removeEmptyKeys v) = true
  /\ ordinaryKeys (removeEmptyKeys v) = true
  /\ removeEmptyKeys (removeEmptyKeys v) = removeEmptyKeys v
  /\ (noEmptyMembers v = true -> ordinaryKeys v = true -> removeEmptyKeys v = v).
Proof.
  destruct (removeEmptyKeys_clean v) as [Hclean Hkeys].
  split; [done|]. split; [done|]. split; [|apply removeEmptyKeys_fixed].
  by apply removeEmptyKeys_fixed.
Qed.

Lemma removeEmptyKeys_result_is_clean_witness :
  let v := Obj [("layout", Obj [("gap", Prim "8")]); ("fills", Arr [Prim "#fff"])] in
  removeEmptyKeys v = v.
Proof.
  exact (proj2 (proj2 (proj2 (removeEmptyKeys_result_is_clean
                         (Obj [("layout", Obj [("gap", Prim "8")]);
                               ("fills", Arr [Prim "#fff"])]))))
           eq_refl eq_refl).
Defined.

(** X27.  [removeEmptyKeys] never drops an element of an array, also not an
    empty one, and never adds or reorders a key: an array keeps its length,
    and the keys of a cleaned object are, in order, keys of the object. *)
Theorem removeEmptyKeys_keeps_shape v :
  match v, removeEmptyKeys v with
  | Arr items, Arr items' => length items' = length items
  | Obj members, Obj members' => members'.*1 `sublist_of` members.*1
  | _, result => result = v
  end.
Proof.
  destruct v as [| |text|items|members]; [done..| |].
  - cbn [removeEmptyKeys]. by rewrite length_map.
  - cbn [removeEmptyKeys]. induction members as [|[k x] members IH]; [done|].
    cbn [omap list_omap fmap list_fmap fst snd]. unfold keepMember at 1.
    destruct (isEmpty (removeEmptyKeys x)); [by apply sublist_cons|].
    destruct (isProto k); [by apply sublist_cons|].
    cbn [fmap list_fmap fst]. by apply sublist_skip.
Qed.

Section shorthand_facts.
Context {num : Type} (same : num -> num -> bool) (zero : num) (show : num -> string).
Hypothesis same_trans : forall a b c, same a b = true -> same b c = true -> same a c = true.

(** X28.  The shorthand that [generateCSSShorthand] writes denotes the four
    sides it was given: it is absent exactly when zeros are ignored and all
    four sides are 0, and otherwise it is the text of one to four values
    which CSS expands to sides that [===] cannot tell from the given ones. *)
Theorem generateCSSShorthand_denotes_the_sides (values : Sides) (options : Options) :
  match generateCSSShorthand same zero show values options with
  | None =>
      default true (ignoreZero options) = true
      /\ same (top values) zero = true /\ same (right values) zero = true
      /\ same (bottom values) zero = true /\ same (left values) zero = true
  | Some text =>
      exists parts sides,
        text = css_text show (default "px" (suffix options)) parts
        /\ css_sides parts = Some sides
        /\ sides_agree same sides values
        /\ ~ (default true (ignoreZero options) = true
              /\ same (top values) zero = true /\ same (right values) zero = true
              /\ same (bottom values) zero = true /\ same (left values) zero = true)
  end.
Proof.
  destruct values as [t r b l]. unfold generateCSSShorthand. cbn [top right bottom left].
  destruct (default true (ignoreZero options) && same t zero && same r zero
            && same b zero && same l zero) eqn:Hzero.
  { by repeat (apply andb_true_iff in Hzero as [Hzero ?]). }
  assert (~ (default true (ignoreZero options) = true
             /\ same t zero = true /\ same r zero = true
             /\ same b zero = true /\ same l zero = true)) as Hnot.
  { intros (H1 & H2 & H3 & H4 & H5). by rewrite H1, H2, H3, H4, H5 in Hzero. }
  destruct (same t r && same r b && same b l) eqn:Hall.
  { apply andb_true_iff in Hall as [Hall Hbl].
    apply andb_true_iff in Hall as [Htr Hrb].
    exists [t], (mkSides t t t t). split; [done|]. split; [done|].
    split; [|done]. unfold sides_agree, agree. cbn [top right bottom left].
    assert (same t b = true) as Htb by by apply (same_trans t r b).
    assert (same t l = true) as Htl by by apply (same_trans t b l).
    by repeat split; [left|right..]. }
  destruct (same r l) eqn:Hrl; [destruct (same t b) eqn:Htb|].
  - exists [t; r], (mkSides t r t r). split; [done|]. split; [done|].
    split; [|done]. unfold sides_agree, agree. cbn [top right bottom left].
    by repeat split; [left|left|right|right].
  - exists [t; r; b], (mkSides t r b r). split; [done|]. split; [done|].
    split; [|done]. unfold sides_agree, agree. cbn [top right bottom left].
    by repeat split; [left|left|left|right].
  - exists [t; r; b; l], (mkSides t r b l). split; [done|]. split; [done|].
    split; [|done]. unfold sides_agree, agree. cbn [top right bottom left].
    by repeat split; left.
Qed.

End shorthand_facts.

Lemma generateCSSShorthand_denotes_the_sides_witness :
  exists parts sides,
    "10px 20px" = css_text Service.numberToString "px" parts
    /\ css_sides parts = Some sides
    /\ sides_agree Z.eqb sides (mkSides 10 20 10 20)
    /\ ~ (true = true
          /\ (10 =? 0) = true /\ (20 =? 0) = true
          /\ (10 =? 0) = true /\ (20 =? 0) = true).
Proof.
  assert (forall a b c, (a =? b) = true -> (b =? c) = true -> (a =? c) = true)
    as Htrans.
  { intros a b c Hab Hbc. apply Z.eqb_eq in Hab, Hbc. apply Z.eqb_eq. lia. }
  exact (generateCSSShorthand_denotes_the_sides Z.eqb 0 Service.numberToString
           Htrans (mkSides 10 20 10 20) (mkOptions None None)).
Defined.

Lemma StyledNode_ind (P : StyledNode -> Prop) :
  (forall t c s, P (mkStyled t c s None)) ->
  (forall t c s cs, Forall P cs -> P (mkStyled t c s (Some cs))) ->
  forall node, P node.
Proof.
  intros Hleaf Hnode. fix IH 1. intros [t c s [cs|]]; [|apply Hleaf].
  apply Hnode. induction cs as [|x cs IHcs]; constructor; [apply IH|done].
Qed.

Lemma addIfTruthy_spec x (set : gset string) k :
  k ∈ addIfTruthy x set <-> k ∈ set \/ (x = Some k /\ k <> EmptyString).
Proof.
  destruct x as [t|]; cbn [addIfTruthy].
  - destruct (String.eqb t EmptyString) eqn:Ht.
    + apply String.eqb_eq in Ht. subst t. split; [by left|].
      intros [Hin|[[= <-] Hne]]; done.
    + apply String.eqb_neq in Ht. rewrite elem_of_union, elem_of_singleton.
      split.
      * intros [->|Hin]; [right|left]; done.
      * intros [Hin|[[= ->] _]]; [by right|by left].
  - split; [by left|]. by intros [Hin|[? _]].
Qed.

Lemma inside_nil node : ~ inside [] node.
Proof. intros Hin. inversion Hin as [? ? Hel|? ? ? ? Hel]; by apply elem_of_nil in Hel. Qed.

Lemma inside_cons n ns node : inside (n :: ns) node <-> inside [n] node \/ inside ns node.
Proof.
  split.
  - intros Hin. inversion Hin as [? ? Hel|? m cs ? Hel Hcs Hbelow]; subst;
      apply elem_of_cons in Hel as [->|Hel].
    + left. apply inside_here, list_elem_of_singleton. done.
    + right. by apply inside_here.
    + left. eapply inside_below; [|done..]. by apply list_elem_of_singleton.
    + right. by eapply inside_below.
  - intros [Hin|Hin]; inversion Hin as [? ? Hel|? m cs ? Hel Hcs Hbelow]; subst.
    + apply list_elem_of_singleton in Hel as ->. apply inside_here, elem_of_cons. by left.
    + apply list_elem_of_singleton in Hel as ->.
      eapply inside_below; [|done..]. apply elem_of_cons. by left.
    + apply inside_here, elem_of_cons. by right.
    + eapply inside_below; [|done..]. apply elem_of_cons. by right.
Qed.

Lemma inside_singleton n node :
  inside [n] node <-> node = n \/ exists cs, children n = Some cs /\ inside cs node.
Proof.
  split.
  - intros Hin. inversion Hin as [? ? Hel|? m cs ? Hel Hcs Hbelow]; subst;
      apply list_elem_of_singleton in Hel as ->; eauto.
  - intros [->|(cs & Hcs & Hbelow)].
    + by apply inside_here, list_elem_of_singleton.
    + eapply inside_below; [|done..]. by apply list_elem_of_singleton.
Qed.

Lemma instanceWith_nil field k : ~ instanceWith field [] k.
Proof. intros (node & Hin & _). by apply inside_nil in Hin. Qed.

Lemma instanceWith_cons field n ns k :
  instanceWith field (n :: ns) k <-> instanceWith field [n] k \/ instanceWith field ns k.
Proof.
  split.
  - intros (node & Hin & Hrest).
    apply inside_cons in Hin as [Hin|Hin]; [left|right]; by exists node.
  - intros [(node & Hin & Hrest)|(node & Hin & Hrest)]; exists node;
      (split; [|done]); apply inside_cons; [by left|by right].
Qed.

Lemma instanceWith_singleton field n k :
  instanceWith field [n] k
  <-> (type n = "INSTANCE" /\ field n = Some k /\ k <> EmptyString)
      \/ exists cs, children n = Some cs /\ instanceWith field cs k.
Proof.
  split.
  - intros (node & Hin & Hrest).
    apply inside_singleton in Hin as [->|(cs & Hcs & Hin)]; [by left|].
    right. exists cs. split; [done|]. by exists node.
  - intros [Hhere|(cs & Hcs & node & Hin & Hrest)].
    + exists n. split; [|done]. apply inside_singleton. by left.
    + exists node. split; [|done]. apply inside_singleton. right. by exists cs.
Qed.

Lemma collects_forest (nodes : list StyledNode) :
  Forall (fun node => forall used, collects [node] used (findUsedComponents node used))
    nodes ->
  forall used,
    collects nodes used
      (fold_left (fun acc node => findUsedComponents node acc) nodes used).
Proof.
  induction 1 as [|node nodes Hnode _ IH]; intros used.
  - split; intros k; cbn [fold_left]; pose proof (instanceWith_nil componentId k);
      pose proof (instanceWith_nil textStyle k); tauto.
  - cbn [fold_left]. destruct (IH (findUsedComponents node used)) as [IHc IHs].
    destruct (Hnode used) as [Hc Hs].
    split; intros k; rewrite instanceWith_cons.
    + rewrite IHc, Hc. tauto.
    + rewrite IHs, Hs. tauto.
Qed.

(** What the node itself adds. *)
Lemma own_use t c s (used : Used) :
  let used1 :=
    if String.eqb t "INSTANCE"
    then mkUsed (addIfTruthy c (usedComponentIds used))
           (addIfTruthy s (usedStyles used))
    else used in
  (forall k, k ∈ usedComponentIds used1
             <-> k ∈ usedComponentIds used
                 \/ (t = "INSTANCE" /\ c = Some k /\ k <> EmptyString))
  /\ (forall k, k ∈ usedStyles used1
               <-> k ∈ usedStyles used
                   \/ (t = "INSTANCE" /\ s = Some k /\ k <> EmptyString)).
Proof.
  cbv zeta. destruct (String.eqb t "INSTANCE") eqn:Ht;
    [apply String.eqb_eq in Ht|apply String.eqb_neq in Ht];
    split; intros k; cbn [usedComponentIds usedStyles];
    rewrite ?addIfTruthy_spec; tauto.
Qed.

Lemma no_children_below field t c s k :
  (exists cs, children (mkStyled t c s None) = Some cs /\ instanceWith field cs k)
  <-> False.
Proof. split; [by intros (cs & [=] & _)|done]. Qed.

Lemma children_below field t c s cs k :
  (exists cs', children (mkStyled t c s (Some cs)) = Some cs'
               /\ instanceWith field cs' k)
  <-> instanceWith field cs k.
Proof. split; [by intros (cs' & [= <-] & Hbelow)|intros Hbelow; by exists cs]. Qed.

Lemma collects_node node used : collects [node] used (findUsedComponents node used).
Proof.
  revert used. induction node as [t c s|t c s cs IH] using StyledNode_ind; intros used.
  - cbn [findUsedComponents children]. destruct (own_use t c s used) as [Hc Hs].
    split; intros k; rewrite instanceWith_singleton, no_children_below;
      cbn [type componentId textStyle]; [rewrite Hc|rewrite Hs]; tauto.
  - cbn [findUsedComponents children]. destruct (own_use t c s used) as [Hc Hs].
    pose proof (collects_forest cs IH) as Hforest.
    split; intros k; rewrite instanceWith_singleton, children_below;
      cbn [type componentId textStyle].
    + rewrite (proj1 (Hforest _) k), Hc. tauto.
    + rewrite (proj2 (Hforest _) k), Hs. tauto.
Qed.

Lemma walk_collects (nodes : list StyledNode) used :
  collects nodes used (fold_left (fun acc node => findUsedComponents node acc) nodes used).
Proof. apply collects_forest, Forall_forall. intros node _. apply collects_node. Qed.

(** An ordinary key: not [__proto__]. *)
Lemma assign_spec {V : Type} (dictionary : list (string * V)) entry :
  assign dictionary entry
  = dictionary ++ filter (fun e => isProto e.1 = false) [entry].
Proof.
  unfold assign. rewrite filter_cons, filter_nil.
  destruct (isProto entry.1) eqn:Hproto.
  - rewrite decide_False by done. by rewrite app_nil_r.
  - by rewrite decide_True by done.
Qed.

(** The loops are filters. *)
Lemma keepUsed_from {V : Type} (used : gset string) (source : list (string * V))
    target :
  fold_left
    (fun target entry =>
       if bool_decide (entry.1 ∈ used) then assign target entry else target)
    source target
  = target ++ filter (fun entry => entry.1 ∈ used /\ isProto entry.1 = false) source.
Proof.
  revert target. induction source as [|entry source IH]; intros target.
  - cbn. by rewrite app_nil_r.
  - cbn [fold_left]. rewrite IH, filter_cons.
    destruct (decide (entry.1 ∈ used)) as [Hin|Hout].
    + rewrite bool_decide_eq_true_2 by done. unfold assign.
      destruct (isProto entry.1) eqn:Hproto.
      * by rewrite decide_False by (intros [_ ?]; done).
      * rewrite decide_True by done. by rewrite <- app_assoc.
    + rewrite bool_decide_eq_false_2 by done.
      by rewrite decide_False by (intros [? _]; done).
Qed.

Lemma keepUsed_filter {V : Type} (used : gset string) (source : list (string * V)) :
  keepUsed used source
  = filter (fun entry => entry.1 ∈ used /\ isProto entry.1 = false) source.
Proof. unfold keepUsed. by rewrite keepUsed_from. Qed.

(** The loop over the components: the entries it keeps, and the set it
    fills, which holds the component sets of every component in use. *)
Lemma keep_components (used : gset string)
    (entries : list (string * SimplifiedComponentDefinition)) acc :
  fold_left
    (fun (acc : list (string * SimplifiedComponentDefinition) * gset string) entry =>
       if bool_decide (entry.1 ∈ used)
       then (assign acc.1 entry, addIfTruthy (componentSetId entry.2) acc.2)
       else acc)
    entries acc
  = (acc.1 ++ filter (fun entry => entry.1 ∈ used /\ isProto entry.1 = false) entries,
     fold_left (fun set entry => addIfTruthy (componentSetId entry.2) set)
       (filter (fun entry => entry.1 ∈ used) entries) acc.2).
Proof.
  revert acc. induction entries as [|entry entries IH]; intros [kept sets].
  - cbn. by rewrite app_nil_r.
  - cbn [fold_left]. rewrite IH. rewrite !filter_cons.
    destruct (decide (entry.1 ∈ used)) as [Hin|Hout].
    + rewrite bool_decide_eq_true_2 by done. cbn [fst snd fold_left].
      unfold assign. destruct (isProto entry.1) eqn:Hproto.
      * by rewrite decide_False by (intros [_ ?]; done).
      * rewrite decide_True by done. by rewrite <- app_assoc.
    + rewrite bool_decide_eq_false_2 by done.
      by rewrite decide_False by (intros [? _]; done).
Qed.

Lemma component_sets_spec (entries : list (string * SimplifiedComponentDefinition))
    (sets : gset string) k :
  k ∈ fold_left (fun set entry => addIfTruthy (componentSetId entry.2) set) entries sets
  <-> k ∈ sets
      \/ exists entry, entry ∈ entries /\ componentSetId entry.2 = Some k
                       /\ k <> EmptyString.
Proof.
  revert sets. induction entries as [|entry entries IH]; intros sets; cbn [fold_left].
  - split; [by left|]. intros [?|(entry & Hin & _)]; [done|]. by apply elem_of_nil in Hin.
  - rewrite IH, addIfTruthy_spec. split.
    + intros [[Hin|Hown]|(e & Hin & He)]; [by left|right..].
      * exists entry. split; [|done]. apply elem_of_cons. by left.
      * exists e. split; [|done]. apply elem_of_cons. by right.
    + intros [Hin|(e & Hin & He)]; [by left; left|].
      apply elem_of_cons in Hin as [->|Hin]; [left; by right|].
      right. by exists e.
Qed.

(** The result, with its loops read as filters. *)
Lemma removeUnused_unfold design :
  let used :=
    fold_left (fun acc node => findUsedComponents node acc) (nodes design)
      (mkUsed ∅ ∅) in
  let usedComponentSets :=
    fold_left (fun set entry => addIfTruthy (componentSetId entry.2) set)
      (filter (fun entry => entry.1 ∈ usedComponentIds used) (components design))
      ∅ in
  removeUnusedComponentsAndStyles design
  = mkDesign (designName design) (nodes design)
      (filter (fun entry => entry.1 ∈ usedComponentIds used /\ isProto entry.1 = false)
         (components design))
      (filter (fun entry => entry.1 ∈ usedComponentSets /\ isProto entry.1 = false)
         (componentSets design))
      (filter (fun entry => entry.1 ∈ usedStyles used /\ isProto entry.1 = false)
         (styles design)).
Proof.
  cbv zeta. unfold removeUnusedComponentsAndStyles.
  by rewrite keep_components, !keepUsed_filter.
Qed.

Lemma filter_filter_same {A : Type} (P : A -> Prop) `{forall x, Decision (P x)}
    (l : list A) :
  filter P (filter P l) = filter P l.
Proof.
  induction l as [|x l IH]; [done|]. rewrite filter_cons.
  destruct (decide (P x)) as [HP|HP]; [|done].
  rewrite filter_cons, decide_True by done. by rewrite IH.
Qed.

Lemma filter_weaker {A : Type} (P Q : A -> Prop) `{forall x, Decision (P x)}
    `{forall x, Decision (Q x)} (l : list A) :
  (forall x, x ∈ l -> P x -> Q x) ->
  filter P (filter Q l) = filter P l.
Proof.
  induction l as [|x l IH]; intros Himpl; [done|]. rewrite !filter_cons.
  assert (filter P (filter Q l) = filter P l) as IHl.
  { apply IH. intros y Hy. apply Himpl, elem_of_cons. by right. }
  destruct (decide (Q x)) as [HQ|HQ].
  - rewrite filter_cons. by rewrite IHl.
  - rewrite IHl. rewrite decide_False; [done|].
    intros HP. apply HQ, Himpl; [apply elem_of_cons; by left|done].
Qed.

Lemma isProto_spec key : isProto key = false <-> key <> "__proto__".
Proof. unfold isProto. apply String.eqb_neq. Qed.

(** X29.  What [removeUnusedComponentsAndStyles] keeps, for a key other
    than [__proto__] (under that key the assignment makes no member): a
    component exactly when an INSTANCE node of the design, at any level,
    names it as its [componentId]; a style exactly when an INSTANCE node
    names it as its [textStyle]; a component set exactly when a component of
    the design that an INSTANCE node names, kept or not, belongs to it. *)
Theorem removeUnused_keeps_what_instances_use design :
  let result := removeUnusedComponentsAndStyles design in
  (forall entry,
      entry ∈ components result
      <-> entry ∈ components design
          /\ entry.1 <> "__proto__"
          /\ instanceWith componentId (nodes design) entry.1)
  /\ (forall entry,
        entry ∈ styles result
        <-> entry ∈ styles design
            /\ entry.1 <> "__proto__"
            /\ instanceWith textStyle (nodes design) entry.1)
  /\ (forall entry,
        entry ∈ componentSets result
        <-> entry ∈ componentSets design
            /\ entry.1 <> "__proto__"
            /\ entry.1 <> EmptyString
            /\ exists component,
                 component ∈ components design
                 /\ instanceWith componentId (nodes design) component.1
                 /\ componentSetId component.2 = Some entry.1).
Proof.
  cbv zeta. rewrite removeUnused_unfold. cbn [components styles componentSets].
  destruct (walk_collects (nodes design) (mkUsed ∅ ∅)) as [Hids Hstyles].
  split; [|split]; intros entry; rewrite list_elem_of_filter, isProto_spec.
  - rewrite Hids. cbn [usedComponentIds].
    pose proof (not_elem_of_empty (C:=gset string) entry.1). tauto.
  - rewrite Hstyles. cbn [usedStyles].
    pose proof (not_elem_of_empty (C:=gset string) entry.1). tauto.
  - rewrite component_sets_spec.
    pose proof (not_elem_of_empty (C:=gset string) entry.1) as Hempty. split.
    + intros [[[Hin|(component & Hin & Hset & Hne)] Hproto] Hentry]; [done|].
      apply list_elem_of_filter in Hin as [Hused Hin].
      apply Hids in Hused as [Hused|Hused];
        [by apply not_elem_of_empty in Hused|].
      split; [done|]. split; [done|]. split; [done|]. by exists component.
    + intros (Hentry & Hproto & Hne & component & Hin & Hused & Hset).
      split; [|done]. split; [|done]. right. exists component.
      split; [|done]. apply list_elem_of_filter. split; [|done].
      apply Hids. by right.
Qed.

(** X30.  [removeUnusedComponentsAndStyles] leaves the nodes and the name of
    the design alone and keeps the entries of each dictionary in their
    order.  When no dictionary of the design has the key [__proto__], it has
    nothing left to remove when it is applied again. *)
Theorem removeUnused_only_removes design :
  let result := removeUnusedComponentsAndStyles design in
  nodes result = nodes design
  /\ designName result = designName design
  /\ components result `sublist_of` components design
  /\ componentSets result `sublist_of` componentSets design
  /\ styles result `sublist_of` styles design
  /\ ("__proto__" ∉ (components design).*1 ->
      "__proto__" ∉ (componentSets design).*1 ->
      "__proto__" ∉ (styles design).*1 ->
      removeUnusedComponentsAndStyles result = result).
Proof.
  cbv zeta. rewrite (removeUnused_unfold (removeUnusedComponentsAndStyles design)).
  rewrite removeUnused_unfold.
  cbn [nodes designName components componentSets styles].
  repeat split; try apply sublist_filter.
  intros Hcomponents _ _.
  set (used := fold_left (fun acc node => findUsedComponents node acc)
                 (nodes design) (mkUsed ∅ ∅)).
  assert (filter (fun entry : string * SimplifiedComponentDefinition =>
                    entry.1 ∈ usedComponentIds used)
            (filter (fun entry => entry.1 ∈ usedComponentIds used
                                  /\ isProto entry.1 = false)
               (components design))
          = filter (fun entry => entry.1 ∈ usedComponentIds used)
              (components design)) as Hsame.
  { apply filter_weaker. intros entry Hentry Hused. split; [done|].
    apply isProto_spec. intros Hproto. apply Hcomponents.
    rewrite <- Hproto. apply list_elem_of_fmap. by exists entry. }
  by rewrite Hsame, !filter_filter_same.
Qed.

Lemma removeUnused_only_removes_witness :
  let design :=
    mkDesign "Library"
      [ mkStyled "FRAME" None None
          (Some [ mkStyled "INSTANCE" (Some "C1") (Some "style_A") None;
                  mkStyled "TEXT" None (Some "style_B") None ]) ]
      [ ("C1", mkComponent "key1" (Some "S1")); ("C2", mkComponent "key2" (Some "S2")) ]
      [ ("S1", "Buttons"); ("S2", "Cards") ]
      [ ("style_A", "bold"); ("style_B", "thin") ] in
  components (removeUnusedComponentsAndStyles design)
  = [ ("C1", mkComponent "key1" (Some "S1")) ]
  /\ removeUnusedComponentsAndStyles (removeUnusedComponentsAndStyles design)
     = removeUnusedComponentsAndStyles design.
Proof.
  cbv zeta. split; [vm_compute; reflexivity|].
  refine (proj2 (proj2 (proj2 (proj2 (proj2
            (removeUnused_only_removes _))))) _ _ _);
    cbn [components componentSets styles fmap list_fmap fst];
    apply not_elem_of_cons; (split; [discriminate|]);
    apply not_elem_of_cons; (split; [discriminate|]); apply not_elem_of_nil.
Defined.

End CommonFacts.
